(** * WavelengthCalibrationTool: [recalibrate.py]

    A shallow embedding of the re-calibration module and the proofs of
    the properties its specification states.

    Arithmetic.  The program computes with numpy [float64] arrays.  The
    embedding is written once, over an interface [Num] of the arithmetic
    the source uses, and is read at two carriers:

    - [float], Rocq's primitive binary64 numbers, where every definition
      runs;
    - [xreal], the real numbers extended with the three exceptional
      results numpy produces instead of raising ([inf], [-inf], [nan]),
      where operations on finite values are exact.  Rounding, overflow of
      a finite result and the sign of zero are not part of [xreal]; the
      algebraic properties are stated at this carrier. *)

From Stdlib Require Import ZArith Reals Lra Lia String Ascii List.
From Stdlib Require Floats.PrimFloat Numbers.Cyclic.Int63.Uint63.
From stdpp Require Import gmap strings list sorting.
Import ListNotations.

(** ** Extended reals *)

Module XReal.

Local Open Scope R_scope.

Inductive xreal : Type :=
| Fin (r : R)
| PInf
| NInf
| NaN.

Definition Req_b (a b : R) : bool := if Req_EM_T a b then true else false.
Definition Rlt_b (a b : R) : bool := if Rlt_dec a b then true else false.

(** The infinity that has the sign of the product of two signs. *)
Definition inf_of (positive : bool) : xreal := if positive then PInf else NInf.

Definition xopp (a : xreal) : xreal :=
  match a with
  | Fin r => Fin (- r)
  | PInf => NInf
  | NInf => PInf
  | NaN => NaN
  end.

Definition xadd (a b : xreal) : xreal :=
  match a, b with
  | NaN, _ | _, NaN => NaN
  | Fin x, Fin y => Fin (x + y)
  | PInf, NInf | NInf, PInf => NaN
  | PInf, _ | _, PInf => PInf
  | NInf, _ | _, NInf => NInf
  end.

Definition xsub (a b : xreal) : xreal := xadd a (xopp b).

(** [inf * 0] is [nan]; otherwise the sign rule. *)
Definition xmul_inf (positive : bool) (y : R) : xreal :=
  if Req_b y 0 then NaN else inf_of (Bool.eqb positive (Rlt_b 0 y)).

Definition xmul (a b : xreal) : xreal :=
  match a, b with
  | NaN, _ | _, NaN => NaN
  | Fin x, Fin y => Fin (x * y)
  | PInf, Fin y | Fin y, PInf => xmul_inf true y
  | NInf, Fin y | Fin y, NInf => xmul_inf false y
  | PInf, PInf | NInf, NInf => PInf
  | PInf, NInf | NInf, PInf => NInf
  end.

(** Division never raises on arrays and numpy scalars: [0/0] is [nan],
    [x/0] is an infinity with the sign of [x], [x/inf] is [0]. *)
Definition xdiv (a b : xreal) : xreal :=
  match a, b with
  | NaN, _ | _, NaN => NaN
  | Fin x, Fin y =>
      if Req_b y 0
      then (if Req_b x 0 then NaN else inf_of (Rlt_b 0 x))
      else Fin (x / y)
  | Fin _, (PInf | NInf) => Fin 0
  | PInf, Fin y => inf_of (negb (Rlt_b y 0))
  | NInf, Fin y => inf_of (Rlt_b y 0)
  | (PInf | NInf), (PInf | NInf) => NaN
  end.

Definition xsqrt (a : xreal) : xreal :=
  match a with
  | Fin x => if Rlt_b x 0 then NaN else Fin (sqrt x)
  | PInf => PInf
  | NInf | NaN => NaN
  end.

Definition xabs (a : xreal) : xreal :=
  match a with
  | Fin x => Fin (Rabs x)
  | PInf | NInf => PInf
  | NaN => NaN
  end.

(** [a < b]; every comparison with [nan] is false. *)
Definition xltb (a b : xreal) : bool :=
  match a, b with
  | NaN, _ | _, NaN => false
  | Fin x, Fin y => Rlt_b x y
  | NInf, (Fin _ | PInf) => true
  | Fin _, PInf => true
  | _, _ => false
  end.

Definition is_fin (a : xreal) : Prop :=
  match a with Fin _ => True | _ => False end.

End XReal.
Export XReal.

(** ** The arithmetic interface *)

Class Num (A : Type) : Type := {
  nZ : Z -> A;                 (* a Python int used as a float *)
  nadd : A -> A -> A;
  nsub : A -> A -> A;
  nmul : A -> A -> A;
  ndiv : A -> A -> A;
  nsqrt : A -> A;
  nabs : A -> A;
  nltb : A -> A -> bool;
}.

Definition float_of_Z (z : Z) : PrimFloat.float :=
  match z with
  | Z0 => PrimFloat.zero
  | Zpos _ => PrimFloat.of_uint63 (Uint63.of_Z z)
  | Zneg p => PrimFloat.opp (PrimFloat.of_uint63 (Uint63.of_Z (Zpos p)))
  end.

#[export] Instance float_Num : Num PrimFloat.float := {|
  nZ := float_of_Z;
  nadd := PrimFloat.add;
  nsub := PrimFloat.sub;
  nmul := PrimFloat.mul;
  ndiv := PrimFloat.div;
  nsqrt := PrimFloat.sqrt;
  nabs := PrimFloat.abs;
  nltb := PrimFloat.ltb;
|}.

#[export] Instance xreal_Num : Num xreal := {|
  nZ := fun z => Fin (IZR z);
  nadd := xadd;
  nsub := xsub;
  nmul := xmul;
  ndiv := xdiv;
  nsqrt := xsqrt;
  nabs := xabs;
  nltb := xltb;
|}.

Declare Scope num_scope.
Delimit Scope num_scope with num.
Infix "+" := nadd : num_scope.
Infix "-" := nsub : num_scope.
Infix "*" := nmul : num_scope.
Infix "/" := ndiv : num_scope.

(** ** Arrays ([numpy.ndarray] of one dimension) *)

Section Arrays.
Context {A : Type} `{Num A}.

(** [x * s], [x + s], ... with a scalar [s]. *)
Definition vscale (s : A) (x : list A) : list A := map (fun t => (t * s)%num) x.

(** [numpy.zeros(n)] *)
Definition np_zeros (n : nat) : list A := repeat (nZ 0) n.

(** Element-wise operation on two arrays of one length. *)
Fixpoint zip_with_same (f : A -> A -> A) (x y : list A) : list A :=
  match x, y with
  | a :: x', b :: y' => f a b :: zip_with_same f x' y'
  | _, _ => []
  end.

(** [numpy.dot(x, y)] of two arrays of one length, summed from the left. *)
Definition np_dot (x y : list A) : A :=
  fold_left nadd (zip_with_same nmul x y) (nZ 0).

(** [numpy.linalg.norm(x)] of a one-dimensional real array:
    [sqrt(dot(x, x))]. *)
Definition np_norm (x : list A) : A := nsqrt (np_dot x x).

(** [numpy.identity(n)] as a list of rows. *)
Definition np_identity (n : nat) : list (list A) :=
  map (fun i => map (fun j => if Nat.eqb i j then nZ 1 else nZ 0) (seq 0 n))
      (seq 0 n).

(** [numpy.matmul(M, x)] of a square matrix and a vector. *)
Definition np_matvec (M : list (list A)) (x : list A) : list A :=
  map (fun row => np_dot row x) M.

(** [M[i, j] = v].  The loops of the source stay inside the matrix. *)
Definition mat_set (M : list (list A)) (i j : nat) (v : A) : list (list A) :=
  match M !! i with
  | Some row => <[i := <[j := v]> row]> M
  | None => M
  end.
End Arrays.

(** ** [scale_interval_m1top1] (lines 23-28) *)

Section Scaler.
Context {A : Type} `{Num A}.

(** On numpy operands, as the driver passes them: a division by 0 gives
    an infinity or [nan] and raises nothing, where plain Python floats
    would raise [ZeroDivisionError]. *)
Definition scale_interval_m1top1 (x a b : A) (inverse_scale : bool) : A :=
  if inverse_scale
  then (((b - a) * x + a + b) / nZ 2)%num
  else ((nZ 2 * x - (b + a)) / (b - a))%num.
End Scaler.

(** ** Python values the program passes around *)

(** The exceptions the program can end in.  [LibraryError] stands for
    whatever a numpy or scipy routine raises on its own account. *)
Inductive exn : Type :=
| IndexError
| KeyError
| ValueError
| TypeError
| NameError (name : string)
| UnboundLocalError (name : string)
| NotImplementedError (method : string)
| LibraryError (routine : string).

Inductive result (X : Type) : Type :=
| Ok (x : X)
| Err (e : exn).
Arguments Ok {X} x.
Arguments Err {X} e.

#[export] Instance result_ret : MRet result := fun _ x => Ok x.
#[export] Instance result_bind : MBind result := fun _ _ k m =>
  match m with
  | Ok x => k x
  | Err e => Err e
  end.

(** Dictionary keys: the program indexes its dictionaries by integers
    (coefficient positions) and by strings (role names). *)
Definition key : Type := Z + string.
Definition ikey (i : Z) : key := inl i.
Definition skey (s : string) : key := inr s.

(** [d[k]] *)
Definition dict_get {V : Type} (d : gmap key V) (k : key) : result V :=
  match d !! k with
  | Some v => Ok v
  | None => Err KeyError
  end.

(** [l[0] = v] on an array *)
Definition set_first {V : Type} (l : list V) (v : V) : result (list V) :=
  match l with
  | [] => Err IndexError
  | _ :: l' => Ok (v :: l')
  end.

(** [range(start, stop, 2)] *)
Definition range2 (start stop : nat) : list nat :=
  filter (fun j => Nat.even (j - start)) (seq start (stop - start)).

(** ** The Legendre coefficient transform (lines 30-62) *)

Section Legendre.
Context {A : Type} `{Num A}.

(** [LCTransformMatrixP(p, deg)]: the identity of size [deg+1], then
    the two loops that overwrite [TM_pix[i, j]]. *)
Definition LCTransformMatrixP (p : A) (deg : nat) : list (list A) :=
  let TM_pix := np_identity (S deg) in
  fold_left
    (fun TM i =>
       fold_left
         (fun TM j => mat_set TM i j (p * nZ (Z.of_nat i * 2 + 1))%num)
         (range2 (i + 1) (S deg)) TM)
    (seq 0 (S deg)) TM_pix.

(** Lines 46-49: [T_LC = LC + w], where [w] is zero but for [w[0]]. *)
Definition wavl_shift (LC : list A) (w0 : A) : result (list A) :=
  w ← set_first (np_zeros (length LC)) w0;
  Ok (zip_with_same nadd LC w).

(** Lines 52-57: the pixel shift, rescaled to the norm it had before
    when [normP] is set.  [T_LC] has the length of [LC] and is not empty
    here (line 48 has passed), so [length T_LC - 1] is [ldeg]. *)
Definition pixel_shift (p : A) (normP : bool) (T_LC : list A) : list A :=
  let TM_pix := LCTransformMatrixP p (length T_LC - 1) in
  let Original_norm := np_norm T_LC in
  let T_LC := np_matvec TM_pix T_LC in
  if normP
  then map (fun t => t / (np_norm T_LC / Original_norm))%num T_LC
  else T_LC.

(** Line 60: the velocity shift. *)
Definition velocity_shift (v : A) (T_LC : list A) : list A :=
  vscale (nZ 1 + v)%num T_LC.

Definition TransformLegendreCoeffs
    (LC : list A) (PVWdic : gmap key A) (normP : bool) : result (list A) :=
  w0 ← dict_get PVWdic (skey "w");
  T_LC ← wavl_shift LC w0;
  p ← dict_get PVWdic (skey "p");
  let T_LC := pixel_shift p normP T_LC in
  v ← dict_get PVWdic (skey "v");
  Ok (velocity_shift v T_LC).
End Legendre.

(** Lines 166-168 and 338-340:
    [('p' in paramstring) and ('v' in paramstring)]. *)
Definition normP_of (paramstring : list string) : bool :=
  bool_decide ("p" ∈ paramstring) && bool_decide ("v" ∈ paramstring).

(** The role map [{'v': v, 'p': p, 'w': w}]. *)
Definition pvw_dict {A : Type} (p v w : A) : gmap key A :=
  <[skey "v" := v]> (<[skey "p" := p]> (<[skey "w" := w]> ∅)).

(** ** Strings *)

(** [c.isdigit()] for a character of code below 256: the ten decimal
    digits and the superscripts two, three and one. *)
Definition is_decimal (c : ascii) : bool :=
  let n := nat_of_ascii c in Nat.leb 48 n && Nat.leb n 57.

Definition char_isdigit (c : ascii) : bool :=
  let n := nat_of_ascii c in
  is_decimal c || Nat.eqb n 178 || Nat.eqb n 179 || Nat.eqb n 185.

(** [s.isdigit()]: false on the empty string. *)
Definition str_isdigit (s : string) : bool :=
  match s with
  | EmptyString => false
  | _ => forallb char_isdigit (list_ascii_of_string s)
  end.

Fixpoint read_decimal (acc : nat) (s : string) : result nat :=
  match s with
  | EmptyString => Ok acc
  | String c s' =>
      if is_decimal c
      then read_decimal (10 * acc + (nat_of_ascii c - 48)) s'
      else Err ValueError
  end.

(** [int(s)] for a string of [isdigit] characters, the only strings the
    program converts: decimal digits are read in base 10, the empty
    string and the superscripts are a [ValueError]. *)
Definition py_int (s : string) : result nat :=
  match s with
  | EmptyString => Err ValueError
  | _ => read_decimal 0 s
  end.

(** [[s for s in rest if not s.isdigit()]] *)
Definition role_letters (rest : string) : list string :=
  map (fun c => String c EmptyString)
      (filter (fun c => negb (char_isdigit c)) (list_ascii_of_string rest)).

(** [''.join([s for s in rest if s.isdigit()])] *)
Definition digit_letters (rest : string) : string :=
  string_of_list_ascii (filter (fun c => char_isdigit c) (list_ascii_of_string rest)).

(** ** The store, what is printed, and the monad of the program *)

Definition loc : Type := positive.

Inductive event : Type :=
| PrintNotImplemented (method : string)          (* lines 128 and 173 *)
| PrintMissingCoeffs (len : nat) (k : key)       (* line 79 *)
| PrintStatus (paramstring : list string) (status : Z)  (* line 330 *)
| CallCurveFit                                   (* [optimize.curve_fit] is entered *)
| CallLeastSquares.                              (* [optimize.least_squares] is entered *)

(** Dictionaries live in [heap] and are passed by reference; [globals]
    is the namespace of the module; [log] is what has been printed, with
    a mark where an optimizer is entered. *)
Record state (A : Type) : Type := mkState {
  heap : gmap loc (gmap key A);
  globals : gmap string Z;
  log : list event;
}.
Arguments mkState {A} heap globals log.
Arguments heap {A} s.
Arguments globals {A} s.
Arguments log {A} s.

Definition M (A X : Type) : Type := state A -> result X * state A.

#[export] Instance M_ret {A : Type} : MRet (M A) := fun _ x s => (Ok x, s).
#[export] Instance M_bind {A : Type} : MBind (M A) := fun _ _ k m s =>
  match m s with
  | (Ok x, s') => k x s'
  | (Err e, s') => (Err e, s')
  end.

Definition raise {A X : Type} (e : exn) : M A X := fun s => (Err e, s).

Definition lift {A X : Type} (r : result X) : M A X := fun s => (r, s).

(** A call into numpy or scipy that may raise. *)
Definition library {A X : Type} (routine : string) (o : option X) : M A X :=
  fun s => match o with
           | Some x => (Ok x, s)
           | None => (Err (LibraryError routine), s)
           end.

Definition emit {A : Type} (ev : event) : M A unit :=
  fun s => (Ok tt, mkState (heap s) (globals s) (log s ++ [ev])).

(** The dictionary a reference points to. *)
Definition deref {A : Type} (l : loc) : M A (gmap key A) :=
  fun s => (Ok (default ∅ (heap s !! l)), s).

(** [d[k] = v] through the reference [l]. *)
Definition store {A : Type} (l : loc) (k : key) (v : A) : M A unit :=
  fun s => (Ok tt, mkState (<[l := <[k := v]> (default ∅ (heap s !! l))]> (heap s))
                           (globals s) (log s)).

(** A dictionary display [{...}]: a new object. *)
Definition alloc {A : Type} (d : gmap key A) : M A loc :=
  fun s => let l := fresh (dom (heap s)) in
           (Ok l, mkState (<[l := d]> (heap s)) (globals s) (log s)).

(** A name that is no local of the function: looked up in the module. *)
Definition global_name {A : Type} (name : string) : M A Z :=
  fun s => match globals s !! name with
           | Some z => (Ok z, s)
           | None => (Err (NameError name), s)
           end.

(** ** What numpy and scipy provide *)

(** [sigma]: a number, or one number for each sample. *)
Inductive weights (A : Type) : Type :=
| WScalar (a : A)
| WArray (l : list A).
Arguments WScalar {A} a.
Arguments WArray {A} l.

(** An optimizer: it returns, raises on its own account, or evaluates the
    function it was given and goes on from the value. *)
Inductive strategy (A R : Type) : Type :=
| Return (r : R)
| Raise
| Eval (x : list A) (k : list A -> strategy A R).
Arguments Return {A R} r.
Arguments Raise {A R}.
Arguments Eval {A R} x k.

(** The result object of [least_squares]. *)
Record fit_output (A : Type) : Type := mkFit {
  fo_x : list A;
  fo_status : Z;
  fo_jac : list (list A);
}.
Arguments mkFit {A} fo_x fo_status fo_jac.
Arguments fo_x {A} f.
Arguments fo_status {A} f.
Arguments fo_jac {A} f.

Class Numerics (A : Type) : Type := {
  (* numpy.linspace(-1, 1, n) *)
  np_linspace : nat -> list A;
  (* numpy.polynomial.legendre.legfit(x, y, deg) *)
  legfit : list A -> list A -> Z -> option (list A);
  (* numpy.polynomial.legendre.legval(x, c) *)
  legval : list A -> list A -> option (list A);
  (* numpy.polynomial.polynomial.polyval(x, c) *)
  polyval : list A -> list A -> option (list A);
  (* numpy.polynomial.chebyshev.chebval(x, c) *)
  chebval : list A -> list A -> option (list A);
  (* numpy.gradient(x) *)
  np_gradient : list A -> option (list A);
  (* splev(xnew, splrep(x, y), ext=ext) *)
  spline : Z -> list A -> list A -> list A -> option (list A);
  (* optimize.curve_fit(f, xdata, ydata, p0=p0, sigma=sigma) *)
  curve_fit : list A -> list A -> list A -> option (weights A) ->
              strategy A (list A * list (list A));
  (* optimize.least_squares(fun, p0, x_scale=x_scale, ftol=None, xtol=1e-10) *)
  least_squares : list A -> list A -> strategy A (fit_output A);
  (* calculate_cov_matrix_fromscipylsq(fitoutput), of [utils] *)
  calculate_cov_matrix_fromscipylsq : fit_output A -> option (list (list A));
}.

(** Running an optimizer against the function it is given.  An exception
    of the function passes through the optimizer. *)
Fixpoint run_strategy {A R : Type} (routine : string) (t : strategy A R)
    (f : list A -> M A (list A)) : M A R :=
  match t with
  | Return r => mret r
  | Raise => raise (LibraryError routine)
  | Eval x k => y ← f x; run_strategy routine (k y) f
  end.

(** ** The program *)

Section Program.
Context {A : Type} `{Num A} `{Numerics A}.

(** [l[i]] for [0 <= i] *)
Definition index (l : list A) (i : nat) : result A :=
  match l !! i with
  | Some a => Ok a
  | None => Err IndexError
  end.

(** An operand that may be [None] where an array is needed. *)
Definition not_none {X : Type} (o : option X) : result X :=
  match o with
  | Some x => Ok x
  | None => Err TypeError
  end.

(** [numpy.arange(n)] *)
Definition np_arange (n : nat) : list A := map (fun i => nZ (Z.of_nat i)) (seq 0 n).

(** An element-wise operation of two arrays under numpy's broadcasting:
    equal lengths, or one of the two of length 1. *)
Definition broadcast (f : A -> A -> A) (x y : list A) : result (list A) :=
  if Nat.eqb (length x) (length y) then Ok (zip_with_same f x y)
  else match x, y with
       | _, [b] => Ok (map (fun a => f a b) x)
       | [a], _ => Ok (map (fun b => f a b) y)
       | _, _ => Err ValueError
       end.

(** [x / sigma] *)
Definition divide_by (x : list A) (sigma : weights A) : result (list A) :=
  match sigma with
  | WScalar s => Ok (map (fun a => a / s)%num x)
  | WArray l => broadcast ndiv x l
  end.

(** The built-in [min] and [max] over an array. *)
Definition py_min (l : list A) : result A :=
  match l with
  | [] => Err ValueError
  | a :: l' => Ok (fold_left (fun m x => if nltb x m then x else m) l' a)
  end.

Definition py_max (l : list A) : result A :=
  match l with
  | [] => Err ValueError
  | a :: l' => Ok (fold_left (fun m x => if nltb m x then x else m) l' a)
  end.

Definition speed_of_light : A := nZ 299792458.

(** [if defaultParamDic:] -- neither [None] nor empty. *)
Definition truthy (d : option (gmap key A)) : bool :=
  match d with
  | Some d => negb (Nat.eqb (size d) 0)
  | None => false
  end.

(** *** [update_coeffs_with_defaults] (lines 64-81) *)

Definition int_keys (ks : list key) : list Z :=
  omap (fun k => match k with inl z => Some z | inr _ => None end) ks.

Definition str_keys (ks : list key) : list string :=
  omap (fun k => match k with inl _ => None | inr s => Some s end) ks.

Definition str_le (s t : string) : Prop := String.leb s t = true.

#[export] Instance str_le_dec (s t : string) : Decision (str_le s t) :=
  bool_eq_dec (String.leb s t) true.

(** [sorted(d.keys())]: integers and strings do not compare. *)
Definition sorted_keys (d : gmap key A) : result (list key) :=
  let ks := (map_to_list d).*1 in
  match int_keys ks, str_keys ks with
  | ints, [] => Ok (ikey <$> merge_sort Z.le ints)
  | [], strs => Ok (skey <$> merge_sort str_le strs)
  | _, _ => Err TypeError
  end.

(** [coeffs[z] = v], negative positions counted from the end; [None] is
    the [IndexError]. *)
Definition list_assign (coeffs : list A) (z : Z) (v : A) : option (list A) :=
  let n := Z.of_nat (length coeffs) in
  if Z.leb 0 z && Z.ltb z n then Some (<[Z.to_nat z := v]> coeffs)
  else if Z.leb (- n) z && Z.ltb z 0 then Some (<[Z.to_nat (n + z) := v]> coeffs)
  else None.

(** The loop of lines 69-80.  [is_array] tells a numpy array from a list:
    a string index is an [IndexError] on the first, caught and raised
    again, and a [TypeError] on the second. *)
Fixpoint assign_defaults (is_array : bool) (d : gmap key A)
    (keys : list key) (coeffs : list A) : M A (list A) :=
  match keys with
  | [] => mret coeffs
  | k :: keys' =>
      v ← lift (dict_get d k);
      match k with
      | inl z =>
          match list_assign coeffs z v with
          | Some coeffs' => assign_defaults is_array d keys' coeffs'
          | None =>
              if Z.eqb (Z.of_nat (length coeffs)) z
              then assign_defaults is_array d keys' (coeffs ++ [v])
              else (_ ← emit (PrintMissingCoeffs (length coeffs) k);
                    raise IndexError)
          end
      | inr _ =>
          if is_array
          then (_ ← emit (PrintMissingCoeffs (length coeffs) k);
                raise IndexError)
          else raise TypeError
      end
  end.

Definition update_coeffs_with_defaults (is_array : bool) (coeffs : list A)
    (defaultParamDic : option (gmap key A)) : M A (list A) :=
  match defaultParamDic with
  | Some d =>
      if truthy (Some d)
      then (keys ← lift (sorted_keys d); assign_defaults is_array d keys coeffs)
      else mret coeffs
  | None => mret coeffs
  end.

(** The dictionary behind [defaultParamDic], if one was given. *)
Definition read_defaults (defaultParamDic : option loc) : M A (option (gmap key A)) :=
  match defaultParamDic with
  | Some l => d ← deref l; mret (Some d)
  | None => mret None
  end.

(** *** [transformed_spectrum] (lines 83-133) *)

Record ts_kwargs : Type := mkTs {
  ts_WavlCoords : option (list A);
  ts_method : option string;
  ts_defaultParamDic : option loc;
}.

Definition transformed_spectrum (FluxSpec params : list A) (kwargs : ts_kwargs)
    : M A (option (list A)) :=
  let Xoriginal := default (np_arange (length FluxSpec)) (ts_WavlCoords kwargs) in
  let method := default "c" (ts_method kwargs) in
  scale ← lift (index params 0);
  let scaledFlux := vscale scale FluxSpec in
  let coeffs :=
    if Nat.eqb (length (tail params)) 1 then tail params ++ [nZ 1] else tail params in
  dic ← read_defaults (ts_defaultParamDic kwargs);
  coeffs ← (if truthy dic then update_coeffs_with_defaults false coeffs dic
            else mret coeffs);
  let resample (Xtransformed : list A) : M A (option (list A)) :=
    y ← library "splev" (spline 3 Xoriginal scaledFlux Xtransformed);
    mret (Some y) in
  if String.eqb method "p" then
    Xtransformed ← library "polyval" (polyval Xoriginal coeffs);
    resample Xtransformed
  else if String.eqb method "c" then
    Xtransformed ← library "chebval" (chebval Xoriginal coeffs);
    resample Xtransformed
  else if String.eqb method "v" then
    c0 ← lift (index coeffs 0);
    resample (vscale (nZ 1 + c0 / speed_of_light)%num Xoriginal)
  else if String.eqb method "x" then
    c0 ← lift (index coeffs 0);
    c1 ← lift (index coeffs 1);
    g ← library "gradient" (np_gradient Xoriginal);
    Xtransformed ← lift (broadcast nadd
                           (vscale (nZ 1 + c0 / speed_of_light)%num Xoriginal)
                           (map (fun t => c1 * t)%num g));
    resample Xtransformed
  else
    _ ← emit (PrintNotImplemented method);
    mret None.

(** *** [errorfunc_tominimise] (lines 136-181) *)

Record ef_kwargs : Type := mkEf {
  ef_WavlCoords : option (list A);
  ef_LCRef : option (list A);
  ef_ldeg : option Z;
  ef_paramstofit : option (list string);
}.

(** [for i, s in enumerate(paramstring): PVWdic[s] = values[i]], where
    [values] is [params[1:]]. *)
Fixpoint store_roles (PVWdic : loc) (paramstring : list string) (values : list A)
    : M A unit :=
  match paramstring with
  | [] => mret tt
  | s :: paramstring' =>
      match values with
      | [] => raise IndexError
      | v :: values' =>
          _ ← store PVWdic (skey s) v;
          store_roles PVWdic paramstring' values'
      end
  end.

(** Lines 159-162 and 305-308: a new dictionary, or the caller's own. *)
Definition role_map (defaultParamDic : option loc) : M A loc :=
  match defaultParamDic with
  | None => alloc (pvw_dict (nZ 0) (nZ 0) (nZ 0))
  | Some l => mret l
  end.

(** Line 181: [sqrt(Reg*abs(params[1:]))]. *)
Definition penalty (Reg : A) (params : list A) : list A :=
  map (fun x => nsqrt (Reg * nabs x)%num) (tail params).

(** Lines 146-178: the reference flux resampled at the transformed
    coordinates. *)
Definition predicted_spectrum (params scaledFlux : list A) (n : nat)
    (defaultParamDic : option loc) (kwargs : ef_kwargs) : M A (list A) :=
  let grid := np_linspace n in
  let Xoriginal := ef_WavlCoords kwargs in
  '(LCRef, Xoriginal) ←
    match ef_LCRef kwargs with
    | Some LCRef =>
        match Xoriginal with
        | None =>
            X ← library "legval" (legval grid LCRef);
            mret (Some LCRef, Some X)
        | Some X => mret (Some LCRef, Some X)
        end
    | None =>
        match ef_ldeg kwargs, Xoriginal with
        | Some _, Some X =>
            ldeg ← global_name "ldeg";
            LCRef ← library "legfit" (legfit grid X ldeg);
            mret (Some LCRef, Some X)
        | _, _ => mret (None, Xoriginal)
        end
    end;
  paramstring ← lift (match ef_paramstofit kwargs with
                      | Some ps => Ok ps
                      | None => Err KeyError
                      end);
  PVWdic ← role_map defaultParamDic;
  _ ← store_roles PVWdic paramstring (tail params);
  let normP := normP_of paramstring in
  LCRef ← lift (match LCRef with
                | Some LC => Ok LC
                | None => Err (UnboundLocalError "LCRef")
                end);
  d ← deref PVWdic;
  LCnew ← lift (TransformLegendreCoeffs LCRef d normP);
  Xtransformed ← library "legval" (legval grid LCnew);
  Xoriginal ← lift (not_none Xoriginal);
  library "splev" (spline 0 Xoriginal scaledFlux Xtransformed).

(** Line 181: the two blocks of the residual vector. *)
Definition residual_vector (PredictedSpectrum : list A) (DataToFit : option (list A))
    (sigma : option (weights A)) (Reg : A) (params : list A) : result (list A) :=
  let sigma := default (WScalar (nZ 1)) sigma in
  DataToFit ← not_none DataToFit;
  difference ← broadcast nsub PredictedSpectrum DataToFit;
  residual ← divide_by difference sigma;
  Ok (residual ++ penalty Reg params).

Definition errorfunc_tominimise (params : list A) (method : string) (Reg : A)
    (RefSpectrum DataToFit : option (list A)) (sigma : option (weights A))
    (defaultParamDic : option loc) (kwargs : ef_kwargs) : M A (option (list A)) :=
  scale ← lift (index params 0);
  RefSpectrum ← lift (not_none RefSpectrum);
  let scaledFlux := vscale scale RefSpectrum in
  if String.eqb method "l" then
    PredictedSpectrum ← predicted_spectrum params scaledFlux (length RefSpectrum)
                          defaultParamDic kwargs;
    out ← lift (residual_vector PredictedSpectrum DataToFit sigma Reg params);
    mret (Some out)
  else
    _ ← emit (PrintNotImplemented method);
    mret None.
End Program.
Arguments ts_kwargs A : clear implicits.
Arguments ef_kwargs A : clear implicits.

(** *** [ReCalibrateDispersionSolution] (lines 185-359) *)

Section Driver.
Context {A : Type} `{Num A} `{Numerics A}.

(** What the driver returns: [wavl_sln, popt] and, when [cov] is set,
    [pcov]. *)
Definition fit_result : Type := (list A * list A * option (list (list A)))%type.

Fixpoint map_result {X Y : Type} (f : X -> result Y) (l : list X) : result (list Y) :=
  match l with
  | [] => Ok []
  | x :: l' => y ← f x; ys ← map_result f l'; Ok (y :: ys)
  end.

(** Line 317: [{'v':1e-6,'p':1e-6,'w':1e-3}[s]] *)
Definition Initp (s : string) : result A :=
  if String.eqb s "v" then Ok (nZ 1 / nZ 1000000)%num
  else if String.eqb s "p" then Ok (nZ 1 / nZ 1000000)%num
  else if String.eqb s "w" then Ok (nZ 1 / nZ 1000)%num
  else Err KeyError.

(** Line 323: [{'v':1e-7,'p':1e-6,'w':1e-3}[s]] *)
Definition x_scaledic (s : string) : result A :=
  if String.eqb s "v" then Ok (nZ 1 / nZ 10000000)%num
  else if String.eqb s "p" then Ok (nZ 1 / nZ 1000000)%num
  else if String.eqb s "w" then Ok (nZ 1 / nZ 1000)%num
  else Err KeyError.

(** The value of the fitted function as the optimizer needs it: an
    array.  (Not reached with [None]: the callers below pass a method the
    callee implements.) *)
Definition as_array (r : M A (option (list A))) : M A (list A) :=
  y ← r;
  match y with
  | Some y => mret y
  | None => raise TypeError
  end.

Section Call.
Variables (SpectrumY : list A) (RefSpectrum : list (A * A))
  (method : string) (initial_guess : option (list A))
  (sigma : option (weights A)) (cov : bool) (Reg : A)
  (defaultParamDic : option loc) (scalepixel : bool).

Let RefFlux : list A := map snd RefSpectrum.
Let RefWavl : list A := map fst RefSpectrum.

(** Lines 225-248 and 250-273, which differ in the basis only:
    [basis] is ['p'] or ['c'] and [evaluate] is [polyval] or [chebval].
    [coeffs = popt[1:]] is a view of [popt]: what
    [update_coeffs_with_defaults] writes inside it is written to [popt]. *)
Definition series_fit (basis : string)
    (evaluate : list A -> list A -> option (list A))
    (rest : string) (scaledWavl : option (list A)) : M A fit_result :=
  deg ← lift (py_int rest);
  let p0 :=
    match initial_guess with
    | Some guess => guess
    | None =>
        if Nat.ltb 0 deg then [nZ 1; nZ 0; nZ 1] ++ repeat (nZ 0) (deg - 1)
        else [nZ 1; nZ 0]
    end in
  scaledWavl ← lift (match scaledWavl with
                      | Some x => Ok x
                      | None => Err (UnboundLocalError "scaledWavl")
                      end);
  _ ← emit CallCurveFit;
  '(popt, pcov) ←
    run_strategy "curve_fit" (curve_fit RefFlux SpectrumY p0 sigma)
      (fun params =>
         as_array (transformed_spectrum RefFlux params
                     (mkTs (Some scaledWavl) (Some basis) defaultParamDic)));
  let popt := if Nat.ltb deg 1 then popt ++ [nZ 1] else popt in
  let coeffs := tail popt in
  dic ← read_defaults defaultParamDic;
  coeffs' ← (if truthy dic then update_coeffs_with_defaults true coeffs dic
             else mret coeffs);
  let popt :=
    match popt with
    | [] => []
    | scale :: _ => scale :: firstn (length coeffs) coeffs'
    end in
  transformed_scaledWavl ← library basis (evaluate scaledWavl coeffs');
  mret (transformed_scaledWavl, popt, Some pcov).

(** Lines 275-286. *)
Definition velocity_fit : M A fit_result :=
  let p0 := default [nZ 1; nZ 100] initial_guess in
  _ ← emit CallCurveFit;
  '(popt, pcov) ←
    run_strategy "curve_fit" (curve_fit RefFlux SpectrumY p0 sigma)
      (fun params =>
         as_array (transformed_spectrum RefFlux params
                     (mkTs (Some RefWavl) (Some "v") defaultParamDic)));
  v ← lift (index popt 1);
  mret (vscale (nZ 1 + v / speed_of_light)%num RefWavl, popt, Some pcov).

(** Lines 288-299. *)
Definition velocity_pixel_fit : M A fit_result :=
  let p0 := default [nZ 1; nZ 100; nZ 0] initial_guess in
  _ ← emit CallCurveFit;
  '(popt, pcov) ←
    run_strategy "curve_fit" (curve_fit RefFlux SpectrumY p0 sigma)
      (fun params =>
         as_array (transformed_spectrum RefFlux params
                     (mkTs (Some RefWavl) (Some "x") defaultParamDic)));
  v ← lift (index popt 1);
  dp ← lift (index popt 2);
  g ← library "gradient" (np_gradient RefWavl);
  wavl_sln ← lift (broadcast nadd
                     (vscale (nZ 1 + v / speed_of_light)%num RefWavl)
                     (map (fun t => dp * t)%num g));
  mret (wavl_sln, popt, Some pcov).

(** Lines 329-343: from the result of the optimizer to the wavelength
    solution. *)
Definition legendre_finish (PVWdic : loc) (paramstring : list string)
    (grid LCRef : list A) (fitoutput : fit_output A) : M A fit_result :=
  let popt := fo_x fitoutput in
  _ ← emit (PrintStatus paramstring (fo_status fitoutput));
  pcov ← (if cov
          then (c ← library "calculate_cov_matrix_fromscipylsq"
                      (calculate_cov_matrix_fromscipylsq fitoutput);
                mret (Some c))
          else mret None);
  _ ← store_roles PVWdic paramstring (tail popt);
  let normP := normP_of paramstring in
  d ← deref PVWdic;
  LCnew ← lift (TransformLegendreCoeffs LCRef d normP);
  wavl_sln ← library "legval" (legval grid LCnew);
  mret (wavl_sln, popt, pcov).

(** Lines 302-343. *)
Definition legendre_fit (rest : string) : M A fit_result :=
  PVWdic ← role_map defaultParamDic;
  let paramstring := role_letters rest in
  ldeg ← lift (py_int (digit_letters rest));
  let grid := np_linspace (length RefWavl) in
  LCRef ← library "legfit" (legfit grid RefWavl (Z.of_nat ldeg));
  p0 ← (match initial_guess with
        | Some guess => mret guess
        | None => inits ← lift (map_result Initp paramstring); mret (nZ 1 :: inits)
        end);
  scales ← lift (map_result x_scaledic paramstring);
  let x_scale := nZ 1 :: scales in
  _ ← emit CallLeastSquares;
  fitoutput ←
    run_strategy "least_squares" (least_squares p0 x_scale)
      (fun params =>
         as_array (errorfunc_tominimise params "l" Reg (Some RefFlux)
                     (Some SpectrumY) sigma (Some PVWdic)
                     (mkEf (Some RefWavl) (Some LCRef) None (Some paramstring))));
  legendre_finish PVWdic paramstring grid LCRef fitoutput.

(** Lines 219-223 and 348-354: the coordinates scaled to [-1, 1] and
    back, for the families ['p'] and ['c']. *)
Definition scale_wavl (inverse_scale : bool) (x : list A) : M A (list A) :=
  a ← lift (py_min RefWavl);
  b ← lift (py_max RefWavl);
  mret (map (fun t => scale_interval_m1top1 t a b inverse_scale) x).

Definition ReCalibrateDispersionSolution : M A fit_result :=
  match method with
  | EmptyString => raise IndexError
  | String c rest =>
      let p_or_c := Ascii.eqb c "p" || Ascii.eqb c "c" in
      scaledWavl ← (if p_or_c
                    then (if scalepixel
                          then (x ← scale_wavl false RefWavl; mret (Some x))
                          else mret (Some RefWavl))
                    else mret None);
      '(wavl, popt, pcov) ←
        (if Ascii.eqb c "p" && str_isdigit rest
         then series_fit "p" polyval rest scaledWavl
         else if Ascii.eqb c "c" && str_isdigit rest
         then series_fit "c" chebval rest scaledWavl
         else if Ascii.eqb c "v" then velocity_fit
         else if Ascii.eqb c "x" then velocity_pixel_fit
         else if Ascii.eqb c "l" then legendre_fit rest
         else raise (NotImplementedError method));
      wavl_sln ← (if p_or_c
                  then (if scalepixel then scale_wavl true wavl else mret wavl)
                  else mret wavl);
      mret (wavl_sln, popt, if cov then pcov else None)
  end.
End Call.
End Driver.

(** ** A stand-in for the library *)

(** The properties below hold for every [Numerics]; this one is the
    smallest that lets the program run to the end: polynomials of degree
    at most 1 (where the three bases agree), a fit that keeps the leading
    samples, a spline that hands the flux back, and optimizers that
    evaluate their function once at the initial guess and stop there with
    the given [status]. *)
Section Stub.
Context {A : Type} `{Num A}.

Definition stub_eval (x c : list A) : option (list A) :=
  match c with
  | [] => None
  | [c0] => Some (map (fun _ => c0) x)
  | c0 :: c1 :: _ => Some (map (fun t => c0 + c1 * t)%num x)
  end.

Definition stub_numerics (status : Z) : Numerics A := {|
  np_linspace := fun n => repeat (nZ 0) n;
  legfit := fun _ y deg => Some (firstn (Z.to_nat deg + 1) y);
  legval := stub_eval;
  polyval := stub_eval;
  chebval := stub_eval;
  np_gradient := fun x => Some (map (fun _ => nZ 1) x);
  spline := fun _ _ y _ => Some y;
  curve_fit := fun _ _ p0 _ => Eval p0 (fun _ => Return (p0, []));
  least_squares := fun p0 _ => Eval p0 (fun _ => Return (mkFit p0 status []));
  calculate_cov_matrix_fromscipylsq := fun _ => Some [];
|}.
End Stub.

(** ** The same library with another optimizer status *)

Definition set_status {A : Type} (status : Z) (f : fit_output A) : fit_output A :=
  mkFit (fo_x f) status (fo_jac f).

(** The optimizer [t], but stopping with [status]. *)
Fixpoint with_status {A : Type} (status : Z) (t : strategy A (fit_output A))
    : strategy A (fit_output A) :=
  match t with
  | Return f => Return (set_status status f)
  | Raise => Raise
  | Eval x k => Eval x (fun y => with_status status (k y))
  end.

(** The library [N], but with [least_squares] stopping with [status]. *)
Definition with_least_squares_status {A : Type} (status : Z) (N : Numerics A)
    : Numerics A := {|
  np_linspace := @np_linspace A N;
  legfit := @legfit A N;
  legval := @legval A N;
  polyval := @polyval A N;
  chebval := @chebval A N;
  np_gradient := @np_gradient A N;
  spline := @spline A N;
  curve_fit := @curve_fit A N;
  least_squares := fun p0 x_scale => with_status status (@least_squares A N p0 x_scale);
  calculate_cov_matrix_fromscipylsq := @calculate_cov_matrix_fromscipylsq A N;
|}.

(** The library [N], but with a [curve_fit] that does not find its
    optimum: scipy's [curve_fit] then raises a [RuntimeError]. *)
Definition with_failing_curve_fit {A : Type} (N : Numerics A) : Numerics A := {|
  np_linspace := @np_linspace A N;
  legfit := @legfit A N;
  legval := @legval A N;
  polyval := @polyval A N;
  chebval := @chebval A N;
  np_gradient := @np_gradient A N;
  spline := @spline A N;
  curve_fit := fun _ _ _ _ => Raise;
  least_squares := @least_squares A N;
  calculate_cov_matrix_fromscipylsq := @calculate_cov_matrix_fromscipylsq A N;
|}.

(** The state [s] with [lg] for what has been printed. *)
Definition with_log {A : Type} (lg : list event) (s : state A) : state A :=
  mkState (heap s) (globals s) lg.

(** The state before a call: no object, no module-level [ldeg], nothing
    printed. *)
Definition empty_state {A : Type} : state A := mkState ∅ ∅ [].

(** ** What a computation may change *)

(** [respects R m]: every run of [m], whatever its outcome, takes a state
    to one related to it by [R]. *)
Definition respects {A X : Type} (R : relation (state A)) (m : M A X) : Prop :=
  forall s r s', m s = (r, s') -> R s s'.

(** The dictionary behind [l]. *)
Definition dict_at {A : Type} (l : loc) (s : state A) : gmap key A :=
  default ∅ (heap s !! l).

(** From one state to the next, nothing changed but entries of the
    dictionary behind [l] under the role names [paramstring] (and what was
    printed). *)
Definition only_roles {A : Type} (l : loc) (paramstring : list string)
    : relation (state A) :=
  fun s s' =>
    globals s' = globals s /\
    (forall l', l' <> l -> heap s' !! l' = heap s !! l') /\
    (is_Some (heap s !! l) -> is_Some (heap s' !! l)) /\
    (forall k, k ∉ skey <$> paramstring -> dict_at l s' !! k = dict_at l s !! k).

(** The dictionary the Legendre family works on from the state [s]: the
    caller's, or the one it makes itself (lines 159-162 and 305-308). *)
Definition role_map_at {A : Type} (defaultParamDic : option loc) (s : state A)
    : loc :=
  default (fresh (dom (heap s))) defaultParamDic.

(** From one state to the next no dictionary and no module-level name
    changed: at most something was printed. *)
Definition store_unchanged {A : Type} : relation (state A) :=
  fun s s' => heap s' = heap s /\ globals s' = globals s.

(** Lines 131-133: the flux [FluxSpec], scaled by [scale] and given at
    the coordinates [Xoriginal], resampled at the coordinates [X]. *)
Definition resampled_at {A : Type} `{Num A} `{Numerics A}
    (FluxSpec Xoriginal : list A) (scale : A) (X : list A)
    : M A (option (list A)) :=
  y ← library "splev" (spline 3 Xoriginal (vscale scale FluxSpec) X);
  mret (Some y).

(** ** Sample inputs *)

Module Samples.
Import PrimFloat.

(** A caller's dictionary [{'w': 7, 'q': 9}] behind the reference 5. *)
Definition caller_dict : gmap key float :=
  <[skey "w" := 7%float]> (<[skey "q" := 9%float]> ∅).

Definition caller_state : state float :=
  mkState (<[5%positive := caller_dict]> ∅) ∅ [].
End Samples.

(** ** The transform as the specification words it *)

Section LegendreSpec.
Context {A : Type} `{Num A}.

(** Entry [(i, j)] of the pixel-shift matrix: 1 on the diagonal,
    [p*(2i+1)] above it where [j - i] is odd, 0 elsewhere. *)
Definition TM_entry (p : A) (i j : nat) : A :=
  if Nat.eqb i j then nZ 1
  else if Nat.ltb i j && Nat.odd (j - i) then (p * nZ (Z.of_nat i * 2 + 1))%num
  else nZ 0.

Definition TM_spec (p : A) (deg : nat) : list (list A) :=
  map (fun i => map (TM_entry p i) (seq 0 (S deg))) (seq 0 (S deg)).
End LegendreSpec.

(** The matrix of size [n] whose entry [(i, j)] is [f i j]. *)
Definition tabulate {A : Type} (n : nat) (f : nat -> nat -> A) : list (list A) :=
  map (fun i => map (f i) (seq 0 n)) (seq 0 n).

(** The same steps over the reals, in the specification's words: the
    code at finite inputs is compared with these. *)
Module Spec.
Local Open Scope R_scope.

Definition rsum (l : list R) : R := fold_right Rplus 0 l.

Definition rdot (x y : list R) : R := rsum (zip_with_same Rmult x y).

Definition all_zero (x : list R) : Prop := Forall (fun t => t = 0) x.

(** The Euclidean norm. *)
Definition rnorm (x : list R) : R := sqrt (rdot x x).

Definition rmatvec (M : list (list R)) (x : list R) : list R :=
  map (fun row => rdot row x) M.

(** [TM[i,i] = 1], [TM[i,j] = p*(2i+1)] for [j > i] with [j - i] odd,
    every other entry 0. *)
Definition TM (p : R) (i j : nat) : R :=
  if Nat.eqb i j then 1
  else if Nat.ltb i j && Nat.odd (j - i) then p * IZR (Z.of_nat i * 2 + 1)
  else 0.

(** Step 1: add [w] to the degree-0 coefficient only. *)
Definition step1_wavelength (w : R) (LC : list R) : list R :=
  match LC with
  | [] => []
  | c0 :: rest => (c0 + w) :: rest
  end.

(** Step 2: multiply by the matrix [TM]. *)
Definition step2_pixel (p : R) (T : list R) : list R :=
  map (fun i => rdot (map (TM p i) (seq 0 (length T))) T) (seq 0 (length T)).

(** Step 3: [T'] is [T] rescaled so that its norm is [N]. *)
Definition rescaled_to (N : R) (T T' : list R) : Prop :=
  (exists c, 0 < c /\ T' = map (Rmult c) T) /\ rnorm T' = N.

(** Step 4: multiply every coefficient by [1 + v]. *)
Definition step4_velocity (v : R) (T : list R) : list R :=
  map (fun c => c * (1 + v)) T.

(** The four steps in their order, as a relation between the inputs and
    what the transform returns. *)
Definition four_steps (LC : list R) (p v w : R) (normP : bool)
    (out : result (list xreal)) : Prop :=
  let T1 := step1_wavelength w LC in
  let T2 := step2_pixel p T1 in
  exists T3,
    (if normP then rescaled_to (rnorm T1) T2 T3 else T3 = T2) /\
    out = Ok (map Fin (step4_velocity v T3)) /\
    length (step4_velocity v T3) = length LC.


(** What C8 says of the caller's dictionary [d] behind [l]: after the
    call it holds the fitted value of [popt] under each fitted role, its
    other entries are as they were, and no other dictionary and no
    module-level name has changed. *)
Definition roles_recorded {A : Type} (l : loc) (d : gmap key A)
    (paramstring : list string) (popt : list A) (st st' : state A) : Prop :=
  (exists d',
     heap st' !! l = Some d' /\
     (forall i s, paramstring !! i = Some s -> s ∉ drop (S i) paramstring ->
                  d' !! skey s = popt !! S i /\ is_Some (popt !! S i)) /\
     (forall k, k ∉ skey <$> paramstring -> d' !! k = d !! k)) /\
  (forall l', l' <> l -> heap st' !! l' = heap st !! l') /\
  globals st' = globals st.

(** What C6 says of the status of the optimizer: the caller can read it
    off what the driver returns.  [run status] is a call whose optimizer
    stops with [status]. *)
Definition status_returned {A : Type}
    (run : Z -> result (@fit_result A) * state A) : Prop :=
  exists read : @fit_result A -> Z,
    forall status rv st', run status = (Ok rv, st') -> read rv = status.

(** Numpy's stretching of an array of one entry: what stands for its
    entry [i] in an operation with a longer array. *)
Definition stretched {X : Type} (l : list X) (i : nat) : option X :=
  if Nat.eqb (length l) 1 then l !! 0%nat else l !! i.

(** [sigma] at the sample [i]: 1 when none is given. *)
Definition sigma_at (sigma : option (weights xreal)) (i : nat) : option xreal :=
  match sigma with
  | None => Some (Fin 1)
  | Some (WScalar s) => Some s
  | Some (WArray sg) => stretched sg i
  end.

(** What C4 says of the first block: [(predicted - observed)/sigma],
    sample by sample, where [sigma] is 1 when none is given, a number, or
    one number for each sample. *)
Definition weighted_residuals (predicted observed : list xreal)
    (sigma : option (weights xreal)) : list xreal :=
  match sigma with
  | None => zip_with (fun p d => xdiv (xsub p d) (Fin 1)) predicted observed
  | Some (WScalar s) => zip_with (fun p d => xdiv (xsub p d) s) predicted observed
  | Some (WArray sg) =>
      zip_with (fun pd s => xdiv (xsub pd.1 pd.2) s) (zip predicted observed) sg
  end.

(** What C2 says of the vector [LCnew] that the code evaluates when the
    roles [roles] are fit: with both [p] and [v] among them it comes, by
    the velocity scaling, from a positive multiple of the pixel-shifted
    vector that has the norm of the wavelength-shifted one; otherwise
    from the pixel-shifted vector itself. *)
Definition renormalised_when_both (roles : list string) (LC : list R)
    (p v w : R) (LCnew : list xreal) : Prop :=
  let T1 := step1_wavelength w LC in
  let T2 := step2_pixel p T1 in
  ("p" ∈ roles /\ "v" ∈ roles -> ~ all_zero T1 ->
   exists T3, rescaled_to (rnorm T1) T2 T3 /\
              LCnew = map Fin (step4_velocity v T3)) /\
  (~ ("p" ∈ roles /\ "v" ∈ roles) -> LCnew = map Fin (step4_velocity v T2)).

(** What the specification says of the renormalisation: it is applied
    when both [p] and [v] are fit, and the pixel-shifted vector then has
    the norm of the vector it was computed from. *)
Definition norm_preserved (paramstring : list string) (p : R) (T : list R) : Prop :=
  normP_of paramstring = true ->
  exists T', pixel_shift (Fin p) (normP_of paramstring) (map Fin T) = map Fin T'
             /\ rnorm T' = rnorm T.

End Spec.
Import Spec.

(** * Properties *)

(** ** Arithmetic at [xreal] *)

Section XRealFacts.
Local Open Scope R_scope.

Lemma Req_b_true (a b : R) : a = b -> Req_b a b = true.
Proof. intros E. unfold Req_b. destruct (Req_EM_T a b); congruence. Qed.

Lemma Req_b_false (a b : R) : a <> b -> Req_b a b = false.
Proof. intros E. unfold Req_b. destruct (Req_EM_T a b); congruence. Qed.

Lemma Rlt_b_true (a b : R) : a < b -> Rlt_b a b = true.
Proof. intros E. unfold Rlt_b. destruct (Rlt_dec a b); [reflexivity | lra]. Qed.

Lemma Rlt_b_false (a b : R) : b <= a -> Rlt_b a b = false.
Proof. intros E. unfold Rlt_b. destruct (Rlt_dec a b); [lra | reflexivity]. Qed.

Lemma xdiv_fin (x y : R) : y <> 0 -> xdiv (Fin x) (Fin y) = Fin (x / y).
Proof. intros E. simpl. rewrite Req_b_false by assumption. reflexivity. Qed.

Lemma xdiv_zero_zero : xdiv (Fin 0) (Fin 0) = NaN.
Proof. simpl. rewrite !Req_b_true by reflexivity. reflexivity. Qed.

Lemma xsqrt_fin (x : R) : 0 <= x -> xsqrt (Fin x) = Fin (sqrt x).
Proof. intros E. simpl. rewrite Rlt_b_false by assumption. reflexivity. Qed.
End XRealFacts.

(** ** C7: the coordinate scaler and its inverse *)

(** C7.  For every [x] and every [a <> b], scaling [x] from the interval
    [a..b] to [-1..1] and back with [inverse_scale] returns [x], exactly,
    in exact arithmetic. *)
Theorem scale_interval_m1top1_roundtrip (x a b : R) :
  a <> b ->
  scale_interval_m1top1
    (scale_interval_m1top1 (Fin x) (Fin a) (Fin b) false)
    (Fin a) (Fin b) true = Fin x.
Proof.
  intros Hab. unfold scale_interval_m1top1. cbn [nsub nadd nmul ndiv nZ xreal_Num].
  cbn [xsub xadd xmul xopp].
  rewrite xdiv_fin by lra.
  cbn [xsub xadd xmul xopp].
  rewrite xdiv_fin by lra.
  f_equal. field. lra.
Qed.

Lemma scale_interval_m1top1_roundtrip_witness :
  scale_interval_m1top1
    (scale_interval_m1top1 (Fin 5) (Fin 4) (Fin 7) false)
    (Fin 4) (Fin 7) true = Fin 5.
Proof. apply scale_interval_m1top1_roundtrip. lra. Defined.

(** ** The pixel-shift matrix, entry by entry *)

Section MatrixFacts.
Context {A : Type} `{Num A}.

Lemma tabulate_ext (n : nat) (f g : nat -> nat -> A) :
  (forall i j, i < n -> j < n -> f i j = g i j) -> tabulate n f = tabulate n g.
Proof.
  intros E. unfold tabulate. apply map_ext_in. intros i Hi.
  apply map_ext_in. intros j Hj.
  apply in_seq in Hi, Hj. apply E; lia.
Qed.

Lemma tabulate_lookup (n : nat) (f : nat -> nat -> A) (i : nat) :
  i < n -> tabulate n f !! i = Some (map (f i) (seq 0 n)).
Proof.
  intros Hi. unfold tabulate. rewrite list_lookup_fmap.
  rewrite lookup_seq_lt by assumption. reflexivity.
Qed.

Lemma mat_set_tabulate (n : nat) (f : nat -> nat -> A) (i j : nat) (v : A) :
  i < n -> j < n ->
  mat_set (tabulate n f) i j v =
  tabulate n (fun i' j' => if Nat.eqb i' i && Nat.eqb j' j then v else f i' j').
Proof.
  intros Hi Hj. unfold mat_set. rewrite tabulate_lookup by assumption.
  apply list_eq. intros k.
  destruct (decide (k = i)) as [->|Hk].
  - rewrite list_lookup_insert_eq
      by (unfold tabulate; rewrite length_map, length_seq; assumption).
    rewrite tabulate_lookup by assumption. f_equal.
    apply list_eq. intros l.
    destruct (decide (l = j)) as [->|Hl].
    + rewrite list_lookup_insert_eq by (rewrite length_map, length_seq; assumption).
      rewrite list_lookup_fmap, lookup_seq_lt by assumption. simpl.
      rewrite !Nat.eqb_refl. reflexivity.
    + rewrite list_lookup_insert_ne by congruence.
      rewrite !list_lookup_fmap.
      destruct (seq 0 n !! l) as [l'|] eqn:El; [|reflexivity].
      apply lookup_seq in El as [-> _]. simpl.
      rewrite (proj2 (Nat.eqb_neq l j)) by assumption.
      rewrite andb_false_r. reflexivity.
  - rewrite list_lookup_insert_ne by congruence.
    unfold tabulate. rewrite !list_lookup_fmap.
    destruct (seq 0 n !! k) as [k'|] eqn:Ek; [|reflexivity].
    apply lookup_seq in Ek as [-> _]. simpl. f_equal.
    apply map_ext. intros l.
    rewrite (proj2 (Nat.eqb_neq k i)) by assumption. reflexivity.
Qed.

(** The inner loop over [j] for one row [i]. *)
Lemma row_loop_tabulate (n i : nat) (v : A) (js : list nat) :
  i < n -> Forall (fun j => j < n) js ->
  forall f,
  fold_left (fun TM j => mat_set TM i j v) js (tabulate n f) =
  tabulate n (fun i' j' =>
    if Nat.eqb i' i && bool_decide (j' ∈ js) then v else f i' j').
Proof.
  intros Hi Hjs. induction Hjs as [|j js Hj Hjs IH]; intros f.
  - cbn [fold_left]. apply tabulate_ext. intros i' j' _ _.
    rewrite bool_decide_eq_false_2 by apply not_elem_of_nil.
    rewrite andb_false_r. reflexivity.
  - cbn [fold_left]. rewrite mat_set_tabulate by assumption. rewrite IH.
    apply tabulate_ext. intros i' j' _ _.
    destruct (Nat.eqb i' i); simpl; [|reflexivity].
    destruct (decide (j' = j)) as [->|Hne].
    + rewrite (bool_decide_eq_true_2 (j ∈ j :: js)) by apply list_elem_of_here.
      rewrite Nat.eqb_refl. destruct (bool_decide (j ∈ js)); reflexivity.
    + rewrite (proj2 (Nat.eqb_neq j' j)) by assumption.
      destruct (decide (j' ∈ js)) as [Hin|Hin].
      * rewrite !bool_decide_eq_true_2; [reflexivity| |assumption].
        apply list_elem_of_further. assumption.
      * rewrite !bool_decide_eq_false_2; [reflexivity| |assumption].
        intros [?|?]%elem_of_cons; contradiction.
Qed.

(** The outer loop over the rows [is]. *)
Lemma matrix_loop_tabulate (n : nat) (v : nat -> A) (js : nat -> list nat) (rows : list nat) :
  (forall i, Forall (fun j => j < n) (js i)) ->
  Forall (fun i => i < n) rows ->
  forall f,
  fold_left
    (fun TM i => fold_left (fun TM j => mat_set TM i j (v i)) (js i) TM)
    rows (tabulate n f) =
  tabulate n (fun i' j' =>
    if bool_decide (i' ∈ rows) && bool_decide (j' ∈ js i') then v i' else f i' j').
Proof.
  intros Hjs Hrows. induction Hrows as [|i rows Hi Hrows IH]; intros f.
  - cbn [fold_left]. apply tabulate_ext. intros i' j' _ _.
    rewrite bool_decide_eq_false_2 by apply not_elem_of_nil. reflexivity.
  - cbn [fold_left]. rewrite row_loop_tabulate by auto. rewrite IH.
    apply tabulate_ext. intros i' j' _ _.
    destruct (decide (i' = i)) as [->|Hne].
    + rewrite Nat.eqb_refl.
      rewrite (bool_decide_eq_true_2 (i ∈ i :: rows)) by apply list_elem_of_here.
      simpl. destruct (bool_decide (i ∈ rows)), (bool_decide (j' ∈ js i)); reflexivity.
    + rewrite (proj2 (Nat.eqb_neq i' i)) by assumption. simpl.
      destruct (decide (i' ∈ rows)) as [Hin|Hin].
      * rewrite (bool_decide_eq_true_2 (i' ∈ i :: rows))
          by (apply list_elem_of_further; assumption).
        rewrite (bool_decide_eq_true_2 (i' ∈ rows)) by assumption.
        reflexivity.
      * rewrite (bool_decide_eq_false_2 (i' ∈ i :: rows))
          by (intros [?|?]%elem_of_cons; contradiction).
        rewrite (bool_decide_eq_false_2 (i' ∈ rows)) by assumption.
        reflexivity.
Qed.

Lemma elem_of_range2 (j start stop : nat) :
  j ∈ range2 start stop <-> start <= j < stop /\ Nat.even (j - start) = true.
Proof.
  unfold range2. rewrite list_elem_of_filter, elem_of_seq.
  split.
  - intros [He Hr]. split; [lia|]. destruct (Nat.even (j - start)); [reflexivity|contradiction].
  - intros [Hr He]. split; [rewrite He; exact I | lia].
Qed.

Lemma LCTransformMatrixP_entries (p : A) (deg : nat) :
  LCTransformMatrixP p deg = TM_spec p deg.
Proof.
  unfold LCTransformMatrixP, TM_spec, np_identity.
  change (map (fun i => map (fun j => if Nat.eqb i j then nZ 1 else nZ 0)
                           (seq 0 (S deg))) (seq 0 (S deg)))
    with (tabulate (S deg) (fun i j => if Nat.eqb i j then nZ 1 else nZ 0)).
  rewrite (matrix_loop_tabulate (S deg)
             (fun i => (p * nZ (Z.of_nat i * 2 + 1))%num)
             (fun i => range2 (i + 1) (S deg))).
  - apply tabulate_ext. intros i j Hi Hj. unfold TM_entry.
    rewrite (bool_decide_eq_true_2 (i ∈ seq 0 (S deg))) by (apply elem_of_seq; lia).
    simpl andb.
    destruct (Nat.eqb_spec i j) as [->|Hne].
    + rewrite bool_decide_eq_false_2; [reflexivity|].
      rewrite elem_of_range2. lia.
    + destruct (Nat.ltb_spec i j) as [Hlt|Hge].
      * replace (j - i) with (S (j - (i + 1))) by lia.
        rewrite Nat.odd_succ. simpl andb.
        destruct (Nat.even (j - (i + 1))) eqn:Ev.
        -- rewrite bool_decide_eq_true_2; [reflexivity|].
           apply elem_of_range2. split; [lia|assumption].
        -- rewrite bool_decide_eq_false_2; [reflexivity|].
           rewrite elem_of_range2. intros [_ E]. congruence.
      * simpl andb. rewrite bool_decide_eq_false_2; [reflexivity|].
        rewrite elem_of_range2. lia.
  - intros i. apply Forall_forall. intros j Hj.
    apply elem_of_range2 in Hj. lia.
  - apply Forall_forall. intros i Hi. apply elem_of_seq in Hi. lia.
Qed.
End MatrixFacts.

(** ** Finite arrays: the code at [xreal] against the reals *)

Section FiniteArrays.
Local Open Scope R_scope.

Lemma fold_left_Rplus_rsum (l : list R) (a : R) :
  fold_left Rplus l a = a + rsum l.
Proof.
  revert a. induction l as [|t l IH]; intros a; simpl.
  - lra.
  - rewrite IH. lra.
Qed.

Lemma fold_left_xadd_fin (l : list R) (a : R) :
  fold_left xadd (map Fin l) (Fin a) = Fin (fold_left Rplus l a).
Proof.
  revert a. induction l as [|t l IH]; intros a; simpl; [reflexivity|apply IH].
Qed.

Lemma zip_with_same_fin (f : xreal -> xreal -> xreal) (g : R -> R -> R) :
  (forall a b, f (Fin a) (Fin b) = Fin (g a b)) ->
  forall x y,
  zip_with_same f (map Fin x) (map Fin y) = map Fin (zip_with_same g x y).
Proof.
  intros Hfg. induction x as [|a x IH]; intros [|b y]; simpl; try reflexivity.
  rewrite Hfg, IH. reflexivity.
Qed.

Lemma zip_with_same_diag {X : Type} (f : X -> X -> X) (x : list X) :
  zip_with_same f x x = map (fun t => f t t) x.
Proof. induction x as [|a x IH]; simpl; [reflexivity|rewrite IH; reflexivity]. Qed.

Lemma zip_with_same_length {X : Type} (f : X -> X -> X) (x y : list X) :
  length x = length y -> length (zip_with_same f x y) = length x.
Proof.
  revert y. induction x as [|a x IH]; intros [|b y] E; simpl in *; try congruence.
  rewrite IH; congruence.
Qed.

Lemma np_dot_fin (x y : list R) :
  np_dot (map Fin x) (map Fin y) = Fin (rdot x y).
Proof.
  unfold np_dot, rdot. cbn [nadd nmul nZ xreal_Num].
  rewrite (zip_with_same_fin xmul Rmult) by reflexivity.
  rewrite fold_left_xadd_fin, fold_left_Rplus_rsum. f_equal. lra.
Qed.

Lemma rsum_squares_nonneg (x : list R) : 0 <= rsum (map (fun t => t * t) x).
Proof.
  induction x as [|a x IH]; simpl; [lra|]. pose proof (Rle_0_sqr a) as Ha.
  unfold Rsqr in Ha. lra.
Qed.

Lemma rdot_self_nonneg (x : list R) : 0 <= rdot x x.
Proof. unfold rdot. rewrite zip_with_same_diag. apply rsum_squares_nonneg. Qed.

Lemma rdot_self_zero (x : list R) : rdot x x = 0 <-> all_zero x.
Proof.
  unfold rdot. rewrite zip_with_same_diag. unfold all_zero.
  induction x as [|a x IH]; simpl.
  - split; [constructor|reflexivity].
  - pose proof (rsum_squares_nonneg x) as Hx.
    pose proof (Rle_0_sqr a) as Ha. unfold Rsqr in Ha.
    split.
    + intros E. constructor; [nra|]. apply IH. nra.
    + inversion 1 as [|? ? Ea Ex]; subst. apply IH in Ex. rewrite Ex. lra.
Qed.

Lemma np_norm_fin (x : list R) : np_norm (map Fin x) = Fin (rnorm x).
Proof.
  unfold np_norm, rnorm. rewrite np_dot_fin. cbn [nsqrt xreal_Num].
  apply xsqrt_fin, rdot_self_nonneg.
Qed.

Lemma rnorm_nonneg (x : list R) : 0 <= rnorm x.
Proof. apply sqrt_pos. Qed.

Lemma rnorm_zero (x : list R) : rnorm x = 0 <-> all_zero x.
Proof.
  rewrite <- rdot_self_zero. unfold rnorm. split.
  - intros E. apply sqrt_eq_0 in E; [assumption|apply rdot_self_nonneg].
  - intros ->. apply sqrt_0.
Qed.

Lemma rnorm_scale (c : R) (x : list R) :
  0 <= c -> rnorm (map (Rmult c) x) = c * rnorm x.
Proof.
  intros Hc. unfold rnorm, rdot. rewrite !zip_with_same_diag, map_map.
  assert (E : rsum (map (fun t => c * t * (c * t)) x) =
              (c * c) * rsum (map (fun t => t * t) x)).
  { induction x as [|a x IH]; simpl; [lra|]. rewrite IH. lra. }
  rewrite E, sqrt_mult_alt by nra.
  rewrite sqrt_square by assumption. reflexivity.
Qed.

Lemma np_matvec_fin (M : list (list R)) (x : list R) :
  np_matvec (map (map Fin) M) (map Fin x) = map Fin (rmatvec M x).
Proof.
  unfold np_matvec, rmatvec. rewrite !map_map. apply map_ext.
  intros row. apply np_dot_fin.
Qed.

Lemma TM_entry_fin (p : R) (i j : nat) : TM_entry (Fin p) i j = Fin (TM p i j).
Proof.
  unfold TM_entry, TM. destruct (Nat.eqb i j); [reflexivity|].
  destruct (Nat.ltb i j && Nat.odd (j - i)); reflexivity.
Qed.

Lemma LCTransformMatrixP_fin (p : R) (deg : nat) :
  LCTransformMatrixP (Fin p) deg = map (map Fin) (tabulate (S deg) (TM p)).
Proof.
  rewrite LCTransformMatrixP_entries. unfold TM_spec, tabulate.
  rewrite map_map. apply map_ext. intros i.
  rewrite map_map. apply map_ext. intros j. apply TM_entry_fin.
Qed.

Lemma step2_pixel_matvec (p : R) (T : list R) :
  step2_pixel p T = rmatvec (tabulate (length T) (TM p)) T.
Proof. unfold step2_pixel, rmatvec, tabulate. rewrite map_map. reflexivity. Qed.

Lemma step2_pixel_length (p : R) (T : list R) :
  length (step2_pixel p T) = length T.
Proof. unfold step2_pixel. rewrite length_map, length_seq. reflexivity. Qed.

Lemma pixel_shift_fin_plain (p : R) (T : list R) :
  T <> [] ->
  pixel_shift (Fin p) false (map Fin T) = map Fin (step2_pixel p T).
Proof.
  intros HT. unfold pixel_shift. rewrite length_map.
  replace (S (length T - 1))%nat with (length T)
    by (destruct T; [congruence|simpl; lia]).
  rewrite LCTransformMatrixP_fin.
  replace (S (length T - 1))%nat with (length T)
    by (destruct T; [congruence|simpl; lia]).
  rewrite np_matvec_fin, step2_pixel_matvec. reflexivity.
Qed.

Lemma rsum_app (x y : list R) : rsum (x ++ y) = rsum x + rsum y.
Proof. induction x as [|a x IH]; simpl; [lra|rewrite IH; lra]. Qed.

Lemma rdot_app (x y x' y' : list R) :
  length x = length y ->
  rdot (x ++ x') (y ++ y') = rdot x y + rdot x' y'.
Proof.
  intros E. unfold rdot.
  assert (Z : zip_with_same Rmult (x ++ x') (y ++ y') =
              zip_with_same Rmult x y ++ zip_with_same Rmult x' y').
  { revert y E. induction x as [|a x IH]; intros [|b y] E; simpl in *;
      try congruence. rewrite IH; congruence. }
  rewrite Z. apply rsum_app.
Qed.

Lemma rdot_zero_row (f : nat -> R) (js : list nat) (T : list R) :
  (forall j, j ∈ js -> f j = 0) -> rdot (map f js) T = 0.
Proof.
  unfold rdot. revert T. induction js as [|j js IH]; intros T Hf; simpl.
  - reflexivity.
  - destruct T as [|t T]; simpl; [reflexivity|].
    fold (rdot (map f js) T) in *.
    rewrite (Hf j) by apply list_elem_of_here.
    unfold rdot. rewrite IH; [lra|].
    intros k Hk. apply Hf, list_elem_of_further, Hk.
Qed.

Lemma step2_pixel_snoc (p : R) (T : list R) (t : R) :
  step2_pixel p (T ++ [t]) =
  map (fun i => rdot (map (TM p i) (seq 0 (length T))) T + TM p i (length T) * t)
      (seq 0 (length T)) ++ [t].
Proof.
  unfold step2_pixel. rewrite length_app. simpl length.
  rewrite Nat.add_1_r, seq_S, map_app. simpl.
  f_equal.
  - apply map_ext. intros i. rewrite map_app.
    rewrite rdot_app by (rewrite length_map, length_seq; reflexivity).
    simpl. unfold rdot at 2. simpl. lra.
  - f_equal. rewrite map_app.
    rewrite rdot_app by (rewrite length_map, length_seq; reflexivity).
    rewrite rdot_zero_row.
    + unfold rdot, TM. simpl. rewrite Nat.eqb_refl. lra.
    + intros j Hj. apply elem_of_seq in Hj. unfold TM.
      rewrite (proj2 (Nat.eqb_neq (length T) j)) by lia.
      rewrite (proj2 (Nat.ltb_ge (length T) j)) by lia. reflexivity.
Qed.

(** The pixel-shift matrix is upper triangular with a unit diagonal: it
    sends no vector but zero to zero. *)
Lemma step2_pixel_zero (p : R) (T : list R) :
  all_zero (step2_pixel p T) -> all_zero T.
Proof.
  unfold all_zero. induction T as [|t T IH] using rev_ind; intros Hz.
  - constructor.
  - rewrite step2_pixel_snoc in Hz. apply Forall_app in Hz as [Hrows Hlast].
    inversion Hlast as [|? ? Ht _]; subst.
    apply Forall_app. split; [|repeat constructor].
    apply IH. unfold step2_pixel.
    rewrite Forall_map in Hrows |- *.
    eapply Forall_impl; [exact Hrows|]. intros i Hi. simpl in *. lra.
Qed.

Lemma pixel_shift_fin_normed (p : R) (T : list R) :
  ~ all_zero T ->
  let T2 := step2_pixel p T in
  pixel_shift (Fin p) true (map Fin T) =
  map Fin (map (Rmult (rnorm T / rnorm T2)) T2).
Proof.
  intros HT T2.
  assert (HTne : T <> []) by (intros ->; apply HT; constructor).
  assert (Hn1 : rnorm T <> 0) by (rewrite rnorm_zero; exact HT).
  assert (Hn2 : rnorm T2 <> 0).
  { rewrite rnorm_zero. intros Hz. apply HT. exact (step2_pixel_zero p T Hz). }
  pose proof (pixel_shift_fin_plain p T HTne) as Hplain.
  unfold pixel_shift in *. cbv zeta in *. rewrite Hplain. fold T2.
  rewrite !np_norm_fin. cbn [ndiv xreal_Num].
  rewrite xdiv_fin by assumption.
  rewrite !map_map. apply map_ext. intros t.
  rewrite xdiv_fin.
  - f_equal. field. split; assumption.
  - intros E. apply Hn2.
    apply (Rmult_eq_compat_r (rnorm T)) in E.
    unfold Rdiv in E. rewrite Rmult_assoc, Rinv_l, Rmult_1_r, Rmult_0_l in E by assumption.
    exact E.
Qed.

Lemma rdot_zero_r (x y : list R) : all_zero y -> rdot x y = 0.
Proof.
  unfold rdot. intros Hy. revert x.
  induction Hy as [|b y Hb Hy IH]; intros [|a x]; simpl; try reflexivity.
  rewrite IH, Hb. lra.
Qed.

Lemma step2_pixel_of_zero (p : R) (T : list R) :
  all_zero T -> all_zero (step2_pixel p T).
Proof.
  intros HT. unfold step2_pixel, all_zero. rewrite Forall_map.
  apply Forall_forall. intros i _. simpl. apply rdot_zero_r, HT.
Qed.

(** On the zero vector the renormalisation divides 0 by 0. *)
Lemma pixel_shift_fin_zero (p : R) (T : list R) :
  T <> [] -> all_zero T ->
  pixel_shift (Fin p) true (map Fin T) = map (fun _ => NaN) T.
Proof.
  intros HTne HT.
  pose proof (pixel_shift_fin_plain p T HTne) as Hplain.
  unfold pixel_shift in *. cbv zeta in *. rewrite Hplain.
  rewrite !np_norm_fin. cbn [ndiv xreal_Num].
  rewrite (proj2 (rnorm_zero T) HT).
  rewrite (proj2 (rnorm_zero _) (step2_pixel_of_zero p T HT)).
  rewrite xdiv_zero_zero, map_map.
  pose proof (step2_pixel_length p T) as Hlen. revert Hlen.
  generalize (step2_pixel p T). intros l. clear. revert T.
  induction l as [|a l IH]; intros [|t T] E; simpl in *; try congruence.
  f_equal. apply IH. congruence.
Qed.

Lemma wavl_shift_fin (LC : list R) (w : R) :
  LC <> [] ->
  wavl_shift (map Fin LC) (Fin w) = Ok (map Fin (step1_wavelength w LC)).
Proof.
  destruct LC as [|c0 rest]; [congruence|]. intros _.
  unfold wavl_shift. simpl. do 2 f_equal. rewrite length_map.
  induction rest as [|c rest IH]; simpl; [reflexivity|].
  rewrite IH. do 2 f_equal. lra.
Qed.

Lemma step1_wavelength_length (w : R) (LC : list R) :
  length (step1_wavelength w LC) = length LC.
Proof. destruct LC; reflexivity. Qed.

Lemma velocity_shift_fin (v : R) (T : list R) :
  velocity_shift (Fin v) (map Fin T) = map Fin (step4_velocity v T).
Proof.
  unfold velocity_shift, vscale, step4_velocity. rewrite !map_map.
  apply map_ext. intros t. reflexivity.
Qed.

(** The transform at finite inputs, without and with renormalisation. *)
Lemma TransformLegendreCoeffs_fin (LC : list R) (d : gmap key xreal)
    (p v w : R) (normP : bool) :
  LC <> [] ->
  d !! skey "p" = Some (Fin p) ->
  d !! skey "v" = Some (Fin v) ->
  d !! skey "w" = Some (Fin w) ->
  TransformLegendreCoeffs (map Fin LC) d normP =
  Ok (velocity_shift (Fin v)
        (pixel_shift (Fin p) normP (map Fin (step1_wavelength w LC)))).
Proof.
  intros HLC Hp Hv Hw. unfold TransformLegendreCoeffs, dict_get.
  rewrite Hw. simpl. rewrite wavl_shift_fin by assumption. simpl.
  rewrite Hp. simpl. rewrite Hv. reflexivity.
Qed.
End FiniteArrays.


Lemma pvw_dict_p {V : Type} (p v w : V) : pvw_dict p v w !! skey "p" = Some p.
Proof.
  unfold pvw_dict. rewrite lookup_insert_ne by discriminate.
  apply lookup_insert_eq.
Qed.

Lemma pvw_dict_v {V : Type} (p v w : V) : pvw_dict p v w !! skey "v" = Some v.
Proof. unfold pvw_dict. apply lookup_insert_eq. Qed.

Lemma pvw_dict_w {V : Type} (p v w : V) : pvw_dict p v w !! skey "w" = Some w.
Proof.
  unfold pvw_dict. rewrite !lookup_insert_ne by discriminate.
  apply lookup_insert_eq.
Qed.

Lemma normP_of_true (paramstring : list string) :
  normP_of paramstring = true <-> "p" ∈ paramstring /\ "v" ∈ paramstring.
Proof.
  unfold normP_of. rewrite andb_true_iff, !bool_decide_eq_true. reflexivity.
Qed.

(** ** C1: the steps of [TransformLegendreCoeffs] *)

(** Where the wavelength-shifted vector is the zero vector the
    renormalisation divides 0 by 0: every coefficient returned is [nan]. *)
Lemma TransformLegendreCoeffs_fin_zero (LC : list R) (d : gmap key xreal)
    (p v w : R) :
  LC <> [] ->
  d !! skey "p" = Some (Fin p) ->
  d !! skey "v" = Some (Fin v) ->
  d !! skey "w" = Some (Fin w) ->
  all_zero (step1_wavelength w LC) ->
  TransformLegendreCoeffs (map Fin LC) d true = Ok (repeat NaN (length LC)).
Proof.
  intros HLC Hp Hv Hw Hz.
  rewrite (TransformLegendreCoeffs_fin LC d p v w) by assumption.
  rewrite pixel_shift_fin_zero;
    [|destruct LC; [congruence|discriminate]|assumption].
  f_equal. rewrite <- (step1_wavelength_length w LC).
  unfold velocity_shift, vscale. rewrite map_map. clear.
  induction (step1_wavelength w LC) as [|t T IH]; [reflexivity|].
  cbn [map length repeat]. rewrite IH. reflexivity.
Qed.

(** The four steps, where no 0 is divided by 0. *)
Lemma TransformLegendreCoeffs_steps (LC : list R) (d : gmap key xreal)
    (p v w : R) (normP : bool) :
  LC <> [] ->
  d !! skey "p" = Some (Fin p) ->
  d !! skey "v" = Some (Fin v) ->
  d !! skey "w" = Some (Fin w) ->
  normP = false \/ ~ all_zero (step1_wavelength w LC) ->
  four_steps LC p v w normP (TransformLegendreCoeffs (map Fin LC) d normP).
Proof.
  intros HLC Hp Hv Hw Hnz.
  assert (HT1 : step1_wavelength w LC <> []).
  { destruct LC; [congruence|discriminate]. }
  rewrite (TransformLegendreCoeffs_fin LC d p v w) by assumption.
  unfold four_steps. cbv zeta.
  destruct normP.
  - destruct Hnz as [Hnz|Hnz]; [discriminate|].
    rewrite pixel_shift_fin_normed by assumption. cbv zeta.
    set (T1 := step1_wavelength w LC) in *.
    set (T2 := step2_pixel p T1).
    assert (Hn1 : (0 < rnorm T1)%R).
    { pose proof (rnorm_nonneg T1). pose proof (rnorm_zero T1).
      destruct (Req_dec (rnorm T1) 0); [tauto|lra]. }
    assert (Hn2 : (0 < rnorm T2)%R).
    { pose proof (rnorm_nonneg T2). pose proof (rnorm_zero T2) as Hz.
      destruct (Req_dec (rnorm T2) 0) as [E|E]; [|lra].
      exfalso. apply Hnz, (step2_pixel_zero p), Hz, E. }
    assert (Hc : (0 < rnorm T1 / rnorm T2)%R) by (apply Rdiv_lt_0_compat; assumption).
    exists (map (Rmult (rnorm T1 / rnorm T2)) T2). repeat split.
    + exists (rnorm T1 / rnorm T2)%R. split; [assumption|reflexivity].
    + rewrite rnorm_scale by lra. field. lra.
    + rewrite velocity_shift_fin. reflexivity.
    + unfold step4_velocity, T2, T1.
      rewrite !length_map, step2_pixel_length, step1_wavelength_length.
      reflexivity.
  - rewrite pixel_shift_fin_plain by assumption.
    exists (step2_pixel p (step1_wavelength w LC)). repeat split.
    + rewrite velocity_shift_fin. reflexivity.
    + unfold step4_velocity.
      rewrite length_map, step2_pixel_length, step1_wavelength_length.
      reflexivity.
Qed.

(** C1 (amended).  In exact arithmetic, for every coefficient vector
    [LC] of length [ldeg+1] and every role map, both finite,
    [TransformLegendreCoeffs] returns a vector of the length of [LC].
    It adds [w] to the degree-0 coefficient only, multiplies by the
    matrix [TM], divides by the ratio of the norms after and before that
    multiplication when [normP] is set, and multiplies every coefficient
    by [1+v].  The division makes the norm what it was before the
    multiplication where the wavelength-shifted vector is not the zero
    vector; where it is, every coefficient returned is [nan]. *)
Theorem TransformLegendreCoeffs_four_steps
    (ldeg : nat) (LC : list R) (d : gmap key xreal) (p v w : R) (normP : bool) :
  length LC = S ldeg ->
  d !! skey "p" = Some (Fin p) ->
  d !! skey "v" = Some (Fin v) ->
  d !! skey "w" = Some (Fin w) ->
  let out := TransformLegendreCoeffs (map Fin LC) d normP in
  (exists T, out = Ok T /\ length T = S ldeg) /\
  (normP = false \/ ~ all_zero (step1_wavelength w LC) ->
   four_steps LC p v w normP out) /\
  (normP = true -> all_zero (step1_wavelength w LC) ->
   out = Ok (repeat NaN (S ldeg))).
Proof.
  intros Hlen Hp Hv Hw. cbv zeta.
  assert (HLC : LC <> []) by (intros ->; discriminate).
  pose proof (TransformLegendreCoeffs_steps LC d p v w normP HLC Hp Hv Hw) as Hsteps.
  assert (Hzero : normP = true -> all_zero (step1_wavelength w LC) ->
            TransformLegendreCoeffs (map Fin LC) d normP = Ok (repeat NaN (S ldeg))).
  { intros -> Hz. rewrite <- Hlen.
    exact (TransformLegendreCoeffs_fin_zero LC d p v w HLC Hp Hv Hw Hz). }
  split; [|split; [exact Hsteps|exact Hzero]].
  destruct normP.
  - destruct (Req_dec (rnorm (step1_wavelength w LC)) 0) as [Hz|Hnz];
      [apply rnorm_zero in Hz
      |assert (Hnz' : ~ all_zero (step1_wavelength w LC))
         by (intros Hz; apply Hnz, rnorm_zero, Hz);
       clear Hnz; rename Hnz' into Hnz].
    + rewrite (Hzero eq_refl Hz). eexists. split; [reflexivity|].
      apply repeat_length.
    + destruct (Hsteps (or_intror Hnz)) as (T3 & _ & E & El).
      rewrite E. eexists. split; [reflexivity|].
      rewrite length_map, El. exact Hlen.
  - destruct (Hsteps (or_introl eq_refl)) as (T3 & _ & E & El).
    rewrite E. eexists. split; [reflexivity|].
    rewrite length_map, El. exact Hlen.
Qed.

Lemma TransformLegendreCoeffs_four_steps_witness :
  let out :=
    TransformLegendreCoeffs (map Fin [5000; 1500; 3]%R)
      (pvw_dict (Fin 1) (Fin 2) (Fin 3)) true in
  (exists T, out = Ok T /\ length T = 3%nat) /\
  (true = false \/ ~ all_zero (step1_wavelength 3 [5000; 1500; 3]%R) ->
   four_steps [5000; 1500; 3]%R 1 2 3 true out) /\
  (true = true -> all_zero (step1_wavelength 3 [5000; 1500; 3]%R) ->
   out = Ok (repeat NaN 3)).
Proof.
  apply (TransformLegendreCoeffs_four_steps 2 [5000; 1500; 3]%R
           (pvw_dict (Fin 1) (Fin 2) (Fin 3)) 1 2 3 true).
  - reflexivity.
  - apply pvw_dict_p.
  - apply pvw_dict_v.
  - apply pvw_dict_w.
Defined.

(** Where the wavelength shift cancels the only non-zero coefficient the
    rescaling divides 0 by 0 and every coefficient returned is [nan]: no
    rescaling of anything. *)
Lemma TransformLegendreCoeffs_four_steps_fails_at_zero :
  ~ four_steps [1; 0]%R 2 0 (-1) true
      (TransformLegendreCoeffs (map Fin [1; 0]%R)
         (pvw_dict (Fin 2) (Fin 0) (Fin (-1))) true).
Proof.
  rewrite (TransformLegendreCoeffs_fin _ _ 2 0 (-1))
    by first [discriminate | apply pvw_dict_p | apply pvw_dict_v | apply pvw_dict_w].
  rewrite pixel_shift_fin_zero.
  - intros (T3 & _ & E & _). destruct T3 as [|t T3]; simpl in E; discriminate.
  - discriminate.
  - simpl. repeat constructor. lra.
Qed.


(** ** C3: the transform with no shift *)




(** ** C2: the renormalisation on the zero vector *)

(** On the zero vector, with both roles fit, the pixel-shifted vector is
    all [nan], with no norm to equal 0. *)
Lemma renormalisation_fails_at_zero : ~ norm_preserved ["p"; "v"] 1 [0]%R.
Proof.
  unfold norm_preserved. intros Hc.
  destruct (Hc eq_refl) as (T' & E & _).
  change (normP_of ["p"; "v"]) with true in E.
  rewrite pixel_shift_fin_zero in E.
  - destruct T' as [|t T']; simpl in E; discriminate.
  - discriminate.
  - repeat constructor.
Qed.

(** The same computations on binary64 numbers. *)
Module FloatRuns.
Import PrimFloat.

Example TransformLegendreCoeffs_float_zero :
  TransformLegendreCoeffs [0; 0]%float (pvw_dict 0 0 0)%float true
  = Ok [PrimFloat.nan; PrimFloat.nan].
Proof. vm_compute. reflexivity. Qed.

Example TransformLegendreCoeffs_float_no_shift :
  TransformLegendreCoeffs [5000; 1500; 3]%float (pvw_dict 0 0 0)%float true
  = Ok [5000; 1500; 3]%float.
Proof. vm_compute. reflexivity. Qed.

Example LCTransformMatrixP_float :
  LCTransformMatrixP 0.5%float 3 =
  [[1; 0.5; 0; 0.5]; [0; 1; 1.5; 0]; [0; 0; 1; 2.5]; [0; 0; 0; 1]]%float.
Proof. vm_compute. reflexivity. Qed.

End FloatRuns.

(** ** C1, C2, C3 as stated *)

Module Refuted.
Import PrimFloat.

(** C1 as stated fails.  Where the wavelength shift cancels the only
    non-zero coefficient ([LC = [1, 0]], [w = -1]) the rescaling divides
    0 by 0 and what comes back is no rescaling of anything; and on
    binary64 the same happens to the non-zero vector [[2^-600, 2^-600]],
    whose squares underflow to 0. *)
Lemma TransformLegendreCoeffs_four_steps_fails :
  ~ four_steps [1; 0]%R 2 0 (-1) true
      (TransformLegendreCoeffs (map Fin [1; 0]%R)
         (pvw_dict (Fin 2) (Fin 0) (Fin (-1))) true) /\
  TransformLegendreCoeffs [0x1p-600; 0x1p-600]%float (pvw_dict 0 0 0)%float true
  = Ok [nan; nan].
Proof.
  split; [exact TransformLegendreCoeffs_four_steps_fails_at_zero|].
  vm_compute. reflexivity.
Qed.


(** C2 as stated fails.  With both roles fit the pixel-shifted zero
    vector is all [nan], with no norm to equal 0; and on binary64 so is
    the pixel-shifted [[2^-600, 2^-600]]. *)
Lemma renormalisation_fails :
  ~ norm_preserved ["p"; "v"] 1 [0]%R /\
  pixel_shift 0%float (normP_of ["p"; "v"]) [0x1p-600; 0x1p-600]%float
  = [nan; nan].
Proof.
  split; [exact renormalisation_fails_at_zero|].
  vm_compute. reflexivity.
Qed.
End Refuted.

(** ** Running the monad *)

Lemma bind_run {A X Y : Type} (m : M A X) (k : X -> M A Y) (s : state A) :
  (m ≫= k) s =
  match m s with
  | (Ok x, s') => k x s'
  | (Err e, s') => (Err e, s')
  end.
Proof. reflexivity. Qed.

(** ** C5: method strings outside the grammar *)




(** An empty method string has no first character: line 219 raises
    before the dispatch. *)
Lemma ReCalibrate_empty_method {A : Type} `{Num A} `{Numerics A}
    (SpectrumY : list A) (RefSpectrum : list (A * A))
    (initial_guess : option (list A)) (sigma : option (weights A)) (cov : bool)
    (Reg : A) (defaultParamDic : option loc) (scalepixel : bool) (st : state A) :
  ReCalibrateDispersionSolution SpectrumY RefSpectrum ""
    initial_guess sigma cov Reg defaultParamDic scalepixel st
  = (Err IndexError, st).
Proof. reflexivity. Qed.

(** ** C10: the families [v], [x] and [l] are chosen by the first character *)

(** C10.  A method string that begins with [v] or [x] runs the velocity
    fit or the velocity and pixel fit whatever follows the first
    character, and one that begins with [l] runs the Legendre fit on what
    follows: none is rejected for its trailing characters. *)
Theorem ReCalibrate_dispatch_on_first_character {A : Type} `{Num A} `{Numerics A}
    (SpectrumY : list A) (RefSpectrum : list (A * A)) (rest : string)
    (initial_guess : option (list A)) (sigma : option (weights A)) (cov : bool)
    (Reg : A) (defaultParamDic : option loc) (scalepixel : bool) (st : state A) :
  let returned : fit_result -> M A fit_result :=
    fun '(wavl_sln, popt, pcov) => mret (wavl_sln, popt, if cov then pcov else None) in
  let run method :=
    ReCalibrateDispersionSolution SpectrumY RefSpectrum method
      initial_guess sigma cov Reg defaultParamDic scalepixel st in
  run (String "v" rest)
    = (velocity_fit SpectrumY RefSpectrum initial_guess sigma defaultParamDic
         ≫= returned) st /\
  run (String "x" rest)
    = (velocity_pixel_fit SpectrumY RefSpectrum initial_guess sigma defaultParamDic
         ≫= returned) st /\
  run (String "l" rest)
    = (legendre_fit SpectrumY RefSpectrum initial_guess sigma cov Reg
         defaultParamDic rest ≫= returned) st /\
  run (String "v" rest) = run "v" /\
  run (String "x" rest) = run "x".
Proof.
  cbv zeta. unfold ReCalibrateDispersionSolution. simpl.
  unfold mbind, M_bind, mret, M_ret. simpl.
  repeat apply conj; reflexivity.
Qed.

(** ** C9: the degree of the fallback fit in [errorfunc_tominimise] *)

(** C9.  Without ['LCRef'] and with ['ldeg'] and ['WavlCoords'] among the
    keyword arguments, the degree of the reference fit is the module-level
    name [ldeg]: the call ends in a [NameError] where that name is not
    bound, fits at the degree bound to it otherwise, and in neither case
    looks at the ['ldeg'] it was given. *)
Theorem errorfunc_tominimise_degree_from_module {A : Type} `{Num A} `{Numerics A}
    (scale : A) (shifts : list A) (Reg : A) (RefSpectrum : list A)
    (DataToFit : option (list A)) (sigma : option (weights A))
    (defaultParamDic : option loc) (WavlCoords : list A) (ldeg : Z)
    (paramstofit : option (list string)) (st : state A) :
  let call kwargs :=
    errorfunc_tominimise (scale :: shifts) "l" Reg (Some RefSpectrum) DataToFit
      sigma defaultParamDic kwargs st in
  call (mkEf (Some WavlCoords) None (Some ldeg) paramstofit)
  = match globals st !! "ldeg" with
    | None => (Err (NameError "ldeg"), st)
    | Some g =>
        match legfit (np_linspace (length RefSpectrum)) WavlCoords g with
        | Some LCRef => call (mkEf (Some WavlCoords) (Some LCRef) (Some ldeg) paramstofit)
        | None => (Err (LibraryError "legfit"), st)
        end
    end
  /\ forall ldeg',
       call (mkEf (Some WavlCoords) None (Some ldeg') paramstofit)
       = call (mkEf (Some WavlCoords) None (Some ldeg) paramstofit).
Proof.
  cbv zeta. split; [|reflexivity].
  unfold errorfunc_tominimise, predicted_spectrum.
  repeat (rewrite bind_run; simpl).
  unfold global_name.
  destruct (globals st !! "ldeg") as [g|]; [|reflexivity].
  repeat (rewrite bind_run; simpl).
  unfold library at 1.
  destruct (legfit (np_linspace (length RefSpectrum)) WavlCoords g) as [LC|];
    reflexivity.
Qed.

(** ** Taking successful runs apart *)

Lemma bind_ok {A X Y : Type} (m : M A X) (k : X -> M A Y) (s s' : state A) (y : Y) :
  (m ≫= k) s = (Ok y, s') ->
  exists x s1, m s = (Ok x, s1) /\ k x s1 = (Ok y, s').
Proof.
  rewrite bind_run. destruct (m s) as [[x|e] s1]; intros E.
  - exists x, s1. split; [reflexivity|assumption].
  - discriminate.
Qed.

Lemma lift_ok {A X : Type} (r : result X) (s s' : state A) (x : X) :
  lift r s = (Ok x, s') -> r = Ok x /\ s' = s.
Proof. unfold lift. intros E. inversion E. split; reflexivity. Qed.

Lemma ret_ok {A X : Type} (x y : X) (s s' : state A) :
  (mret x : M A X) s = (Ok y, s') -> y = x /\ s' = s.
Proof. unfold mret, M_ret. intros E. inversion E. split; reflexivity. Qed.

Lemma index_ok {A : Type} (l : list A) (i : nat) (a : A) :
  index l i = Ok a -> l !! i = Some a.
Proof. unfold index. destruct (l !! i); intros E; inversion E; reflexivity. Qed.

Lemma result_bind_ok {X Y : Type} (r : result X) (k : X -> result Y) (y : Y) :
  r ≫= k = Ok y -> exists x, r = Ok x /\ k x = Ok y.
Proof.
  destruct r as [x|e]; simpl; intros E; [|discriminate].
  exists x. split; [reflexivity|assumption].
Qed.

(** ** C4: the residual vector of the Legendre family *)

Lemma zip_with_same_zip_with {X : Type} (f : X -> X -> X) (x y : list X) :
  zip_with_same f x y = zip_with f x y.
Proof.
  revert y. induction x as [|a x IH]; intros [|b y]; simpl; try reflexivity.
  rewrite IH. reflexivity.
Qed.

Lemma broadcast_same_length {X : Type} `{Num X} (f : X -> X -> X) (x y : list X) :
  length x = length y -> broadcast f x y = Ok (zip_with f x y).
Proof.
  intros E. unfold broadcast. rewrite E, Nat.eqb_refl, zip_with_same_zip_with.
  reflexivity.
Qed.

(** Every entry of an operation on two arrays comes from their entries at
    that place, an array of one entry standing for all its places. *)
Lemma broadcast_entries {X : Type} `{Num X} (f : X -> X -> X) (x y z : list X) :
  broadcast f x y = Ok z ->
  (length z = 1%nat -> length x = 1%nat /\ length y = 1%nat) /\
  forall i c, z !! i = Some c ->
    exists a b, stretched x i = Some a /\ stretched y i = Some b /\ c = f a b.
Proof.
  unfold broadcast, stretched.
  destruct (Nat.eqb_spec (length x) (length y)) as [E|Hne].
  - intros [= <-].
    rewrite zip_with_same_zip_with. split.
    + rewrite length_zip_with. intros Hl. lia.
    + intros i c Hc. apply lookup_zip_with_Some in Hc as (a & b & -> & Ha & Hb).
      exists a, b. rewrite <- E.
      pose proof (lookup_lt_Some _ _ _ Ha) as Hi.
      destruct (Nat.eqb_spec (length x) 1) as [E1|_].
      * assert (i = 0%nat) by lia. subst i. auto.
      * auto.
  - destruct y as [|b [|b' y]].
    + destruct x as [|a [|a' x]]; intros Hz; try discriminate Hz.
      injection Hz as <-. split; [discriminate|].
      intros i c Hc. destruct i; discriminate.
    + intros Hz.
      assert (z = map (fun a => f a b) x) as ->
        by (destruct x as [|? [|? ?]]; simpl in Hz |- *; congruence).
      clear Hz. split.
      * rewrite length_map. intros Hl. simpl in Hne. congruence.
      * intros i c Hc. rewrite list_lookup_fmap in Hc.
        destruct (x !! i) as [a|] eqn:Ha; [|discriminate]. injection Hc as <-.
        exists a, b. simpl.
        rewrite (proj2 (Nat.eqb_neq (length x) 1)) by (simpl in Hne; exact Hne).
        auto.
    + destruct x as [|a [|a' x]]; intros Hz; try discriminate Hz.
      assert (z = map (fun d => f a d) (b :: b' :: y)) as ->
        by (simpl in Hz |- *; congruence).
      clear Hz. split.
      * simpl. discriminate.
      * intros i c Hc. rewrite list_lookup_fmap in Hc.
        destruct ((b :: b' :: y) !! i) as [d|] eqn:Hd; [|discriminate].
        injection Hc as <-. exists a, d. simpl. auto.
Qed.

(** The first block entry by entry, whatever the shapes numpy accepts. *)
Lemma residual_entries (predicted observed residual : list xreal)
    (sigma : option (weights xreal)) :
  (difference ← broadcast xsub predicted observed;
   divide_by difference (default (WScalar (Fin 1)) sigma)) = Ok residual ->
  forall i r, residual !! i = Some r ->
    exists p d s,
      stretched predicted i = Some p /\ stretched observed i = Some d /\
      sigma_at sigma i = Some s /\ r = xdiv (xsub p d) s.
Proof.
  intros Hrun.
  apply result_bind_ok in Hrun as (difference & Hdiff & Hdiv).
  apply broadcast_entries in Hdiff as [Hone Hdiff].
  assert (Hscalar : forall s, residual = map (fun a => xdiv a s) difference ->
            forall i r, residual !! i = Some r ->
            exists p d, stretched predicted i = Some p /\
                        stretched observed i = Some d /\ r = xdiv (xsub p d) s).
  { intros s -> i r Hr. rewrite list_lookup_fmap in Hr.
    destruct (difference !! i) as [c|] eqn:Hc; [|discriminate]. injection Hr as <-.
    destruct (Hdiff i c Hc) as (p & d & Hp & Hd & ->). exists p, d. auto. }
  destruct sigma as [[s|sg]|]; simpl in Hdiv.
  - injection Hdiv as E. intros i r Hr.
    destruct (Hscalar s (eq_sym E) i r Hr) as (p & d & Hp & Hd & ->).
    exists p, d, s. auto.
  - apply broadcast_entries in Hdiv as [_ Hdiv]. intros i r Hr.
    destruct (Hdiv i r Hr) as (c & s & Hc & Hs & ->).
    unfold stretched in Hc.
    destruct (Nat.eqb_spec (length difference) 1) as [E1|_].
    + destruct (Hone E1) as [Ep Eo].
      destruct (Hdiff 0%nat c Hc) as (p & d & Hp & Hd & ->).
      exists p, d, s. unfold stretched in *. rewrite Ep, Eo in *. simpl in *. auto.
    + destruct (Hdiff i c Hc) as (p & d & Hp & Hd & ->).
      exists p, d, s. auto.
  - injection Hdiv as E. intros i r Hr.
    destruct (Hscalar (Fin 1) (eq_sym E) i r Hr) as (p & d & Hp & Hd & ->).
    exists p, d, (Fin 1). auto.
Qed.

(** The first block as the code computes it: a subtraction and a division
    of arrays of one length. *)
Lemma residual_same_length (predicted observed : list xreal)
    (sigma : option (weights xreal)) :
  length observed = length predicted ->
  (forall sg, sigma = Some (WArray sg) -> length sg = length predicted) ->
  (difference ← broadcast xsub predicted observed;
   divide_by difference (default (WScalar (Fin 1)) sigma))
  = Ok (weighted_residuals predicted observed sigma).
Proof.
  intros Hobs Hsigma.
  rewrite (broadcast_same_length xsub) by (symmetry; exact Hobs).
  assert (Hscalar : forall s,
            map (fun a => xdiv a s) (zip_with xsub predicted observed)
            = zip_with (fun p d => xdiv (xsub p d) s) predicted observed).
  { intros s. clear. revert observed.
    induction predicted as [|p P IH]; intros [|d D]; simpl; try reflexivity.
    rewrite IH. reflexivity. }
  destruct sigma as [[s|sg]|]; simpl.
  - rewrite Hscalar. reflexivity.
  - rewrite (broadcast_same_length xdiv).
    + f_equal. clear. revert observed sg.
      induction predicted as [|p P IH]; intros [|d D] [|s sg]; simpl;
        try reflexivity.
      rewrite IH. reflexivity.
    + rewrite length_zip_with, (Hsigma sg eq_refl). lia.
  - rewrite Hscalar. reflexivity.
Qed.

(** The objective function once the prediction is made: the residuals,
    then the penalties. *)
Lemma errorfunc_tominimise_after_prediction `{Numerics xreal}
    (scale : R) (shifts : list R) (Reg : xreal)
    (RefSpectrum observed predicted : list xreal)
    (sigma : option (weights xreal)) (defaultParamDic : option loc)
    (kwargs : ef_kwargs xreal) (st st' : state xreal) :
  let params := map Fin (scale :: shifts) in
  predicted_spectrum params (vscale (Fin scale) RefSpectrum) (length RefSpectrum)
    defaultParamDic kwargs st = (Ok predicted, st') ->
  errorfunc_tominimise params "l" Reg (Some RefSpectrum) (Some observed) sigma
    defaultParamDic kwargs st
  = match (difference ← broadcast xsub predicted observed;
           divide_by difference (default (WScalar (Fin 1)) sigma)) with
    | Ok residual =>
        (Ok (Some (residual ++ map (fun x => xsqrt (xmul Reg (Fin (Rabs x)))) shifts)),
         st')
    | Err e => (Err e, st')
    end.
Proof.
  intros params Hpred.
  unfold errorfunc_tominimise.
  rewrite bind_run. unfold lift at 1. unfold params at 1.
  cbn [map index lookup list_lookup].
  rewrite bind_run. unfold lift at 1. cbn [not_none].
  change (("l" =? "l")%string) with true. cbv iota.
  rewrite bind_run, Hpred, bind_run. unfold lift, residual_vector.
  cbn [not_none mbind result_bind].
  change (@nsub xreal xreal_Num) with xsub.
  change (@nZ xreal xreal_Num 1) with (Fin 1).
  destruct (broadcast xsub predicted observed) as [difference|e];
    [|reflexivity].
  cbn [mbind result_bind].
  destruct (divide_by difference (default (WScalar (Fin 1)) sigma))
    as [residual|e]; [|reflexivity].
  unfold penalty, params. cbn [map tail mbind result_bind mret].
  rewrite map_map. reflexivity.
Qed.

(** C4.  For the method ['l'], once the predicted spectrum is made,
    [errorfunc_tominimise] returns [(PredictedSpectrum - DataToFit)/sigma]
    followed by [sqrt(Reg*abs(x))] for every [x] of [params[1:]]: one
    penalty for each parameter but the first, the flux scale, which the
    penalty block does not depend on; with [Reg = 0] every penalty is 0.
    Where the predicted spectrum, the observed one and [sigma], if an
    array, have one length, the first block is the quotient sample by
    sample and the call returns; in every shape numpy accepts, each of its
    entries is that quotient of the entries at its place, an array of one
    entry standing for all its places. *)
Theorem errorfunc_tominimise_two_blocks `{Numerics xreal}
    (scale : R) (shifts : list R) (Reg : xreal)
    (RefSpectrum observed predicted : list xreal)
    (sigma : option (weights xreal)) (defaultParamDic : option loc)
    (kwargs : ef_kwargs xreal) (st st' : state xreal) :
  let params := map Fin (scale :: shifts) in
  predicted_spectrum params (vscale (Fin scale) RefSpectrum) (length RefSpectrum)
    defaultParamDic kwargs st = (Ok predicted, st') ->
  let run := errorfunc_tominimise params "l" Reg (Some RefSpectrum) (Some observed)
               sigma defaultParamDic kwargs st in
  let second := map (fun x => xsqrt (xmul Reg (Fin (Rabs x)))) shifts in
  (length observed = length predicted ->
   (forall sg, sigma = Some (WArray sg) -> length sg = length predicted) ->
   let first := weighted_residuals predicted observed sigma in
   run = (Ok (Some (first ++ second)), st') /\
   length first = length predicted) /\
  (forall out st'', run = (Ok out, st'') ->
     st'' = st' /\
     exists first, out = Some (first ++ second) /\
       forall i r, first !! i = Some r ->
         exists p d s,
           stretched predicted i = Some p /\ stretched observed i = Some d /\
           sigma_at sigma i = Some s /\ r = xdiv (xsub p d) s) /\
  length second = (length params - 1)%nat /\
  (forall r, (0 <= r)%R -> Reg = Fin r ->
     second = map (fun x => Fin (sqrt (r * Rabs x))) shifts) /\
  (Reg = Fin 0 -> second = repeat (Fin 0) (length shifts)).
Proof.
  intros params Hpred run second.
  pose proof (errorfunc_tominimise_after_prediction scale shifts Reg RefSpectrum
                observed predicted sigma defaultParamDic kwargs st st' Hpred)
    as Hrun.
  fold params in Hrun. fold run in Hrun. fold second in Hrun.
  split; [|split; [|split; [|split]]].
  - intros Hobs Hsigma first. split.
    + rewrite Hrun.
      rewrite (residual_same_length predicted observed sigma Hobs Hsigma).
      reflexivity.
    + unfold first, weighted_residuals.
      destruct sigma as [[s|sg]|]; rewrite ?length_zip_with, ?length_zip.
      * lia.
      * rewrite (Hsigma sg eq_refl). lia.
      * lia.
  - intros out st'' Hout. rewrite Hrun in Hout.
    destruct (difference ← broadcast xsub predicted observed;
              divide_by difference (default (WScalar (Fin 1)) sigma))
      as [first|e] eqn:E; [|discriminate].
    injection Hout as <- <-. split; [reflexivity|].
    exists first. split; [reflexivity|].
    exact (residual_entries predicted observed first sigma E).
  - unfold second, params. simpl. rewrite !length_map. lia.
  - intros r Hr ->. unfold second. apply map_ext. intros x.
    cbn [xmul xsqrt].
    rewrite Rlt_b_false; [reflexivity|].
    apply Rmult_le_pos; [exact Hr|apply Rabs_pos].
  - intros ->. unfold second. clear.
    induction shifts as [|x xs IH]; [reflexivity|].
    cbn [map length repeat]. f_equal.
    + cbn [xmul xsqrt]. rewrite Rmult_0_l, Rlt_b_false by lra.
      rewrite sqrt_0. reflexivity.
    + apply IH.
Qed.

Lemma errorfunc_tominimise_two_blocks_witness :
  exists predicted st',
    let observed := [Fin 2; Fin 3; Fin 1; Fin 6; Fin 4] in
    let first := weighted_residuals predicted observed (Some (WScalar (Fin 2))) in
    let second := map (fun x => xsqrt (xmul (Fin 0) (Fin (Rabs x)))) [1; 2]%R in
    errorfunc_tominimise (H0 := stub_numerics 0) (map Fin [1; 1; 2]%R) "l" (Fin 0)
      (Some [Fin 1; Fin 3; Fin 2; Fin 5; Fin 4]) (Some observed)
      (Some (WScalar (Fin 2))) None
      (mkEf (Some [Fin 4000; Fin 5000; Fin 6000; Fin 7000; Fin 8000])
         (Some [Fin 6000; Fin 2000]) None (Some ["p"; "v"])) empty_state
    = (Ok (Some (first ++ second)), st') /\
    length first = 5%nat /\
    second = [Fin 0; Fin 0].
Proof.
  assert (Hpred : exists predicted st',
            predicted_spectrum (H0 := stub_numerics 0) (map Fin [1; 1; 2]%R)
              (vscale (Fin 1) [Fin 1; Fin 3; Fin 2; Fin 5; Fin 4]) 5 None
              (mkEf (Some [Fin 4000; Fin 5000; Fin 6000; Fin 7000; Fin 8000])
                 (Some [Fin 6000; Fin 2000]) None (Some ["p"; "v"])) empty_state
            = (Ok predicted, st') /\
            length [Fin 2; Fin 3; Fin 1; Fin 6; Fin 4] = length predicted).
  { eexists _, _. split; [vm_compute; reflexivity|reflexivity]. }
  destruct Hpred as (predicted & st' & Hpred & Hobs).
  exists predicted, st'. cbv zeta.
  destruct (errorfunc_tominimise_two_blocks (H := stub_numerics 0)
              1 [1; 2]%R (Fin 0) [Fin 1; Fin 3; Fin 2; Fin 5; Fin 4]
              [Fin 2; Fin 3; Fin 1; Fin 6; Fin 4] predicted
              (Some (WScalar (Fin 2))) None
              (mkEf (Some [Fin 4000; Fin 5000; Fin 6000; Fin 7000; Fin 8000])
                 (Some [Fin 6000; Fin 2000]) None (Some ["p"; "v"]))
              empty_state st' Hpred)
    as (Hsame & _ & _ & _ & Hzero).
  destruct (Hsame Hobs) as [Hrun Hlen].
  - intros sg E. discriminate.
  - split; [exact Hrun|]. split; [|exact (Hzero eq_refl)].
    rewrite Hlen, <- Hobs. reflexivity.
Defined.

(** ** Frame lemmas *)

Section Respects.
Context {A : Type} (R : relation (state A)).
Context (R_refl : forall s, R s s).
Context (R_trans : forall s1 s2 s3, R s1 s2 -> R s2 s3 -> R s1 s3).
Context (R_log : forall s ev, R s (mkState (heap s) (globals s) (log s ++ [ev]))).

Lemma respects_ret {X : Type} (x : X) : respects R (mret x).
Proof. intros s r s' E. inversion E. apply R_refl. Qed.

Lemma respects_raise {X : Type} (e : exn) : respects R (raise e : M A X).
Proof. intros s r s' E. inversion E. apply R_refl. Qed.

Lemma respects_lift {X : Type} (r : result X) : respects R (lift r).
Proof. intros s r' s' E. inversion E. apply R_refl. Qed.

Lemma respects_library {X : Type} (routine : string) (o : option X) :
  respects R (library routine o).
Proof. intros s r s' E. unfold library in E. destruct o; inversion E; apply R_refl. Qed.

Lemma respects_deref (l : loc) : respects R (deref l).
Proof. intros s r s' E. inversion E. apply R_refl. Qed.

Lemma respects_global_name (name : string) : respects R (global_name name).
Proof.
  intros s r s' E. unfold global_name in E.
  destruct (globals s !! name); inversion E; apply R_refl.
Qed.

Lemma respects_emit (ev : event) : respects R (emit ev).
Proof. intros s r s' E. inversion E. apply R_log. Qed.

Lemma respects_bind {X Y : Type} (m : M A X) (k : X -> M A Y) :
  respects R m -> (forall x, respects R (k x)) -> respects R (m ≫= k).
Proof.
  intros Hm Hk s r s' E. rewrite bind_run in E.
  destruct (m s) as [[x|e] s1] eqn:Em.
  - apply (R_trans _ s1); [exact (Hm _ _ _ Em)|exact (Hk x _ _ _ E)].
  - inversion E; subst. exact (Hm _ _ _ Em).
Qed.

Lemma respects_bind_lift {X Y : Type} (r : result X) (k : X -> M A Y) :
  (forall x, r = Ok x -> respects R (k x)) -> respects R (lift r ≫= k).
Proof.
  intros Hk s r' s' E. rewrite bind_run in E. unfold lift in E.
  destruct r as [x|e].
  - exact (Hk x eq_refl _ _ _ E).
  - inversion E. apply R_refl.
Qed.

Lemma respects_bind_ret {X Y : Type} (x : X) (k : X -> M A Y) :
  respects R (k x) -> respects R (mret x ≫= k).
Proof. intros Hk s r s' E. exact (Hk _ _ _ E). Qed.

Lemma respects_run_strategy {X : Type} (routine : string) (t : strategy A X)
    (f : list A -> M A (list A)) :
  (forall x, respects R (f x)) -> respects R (run_strategy routine t f).
Proof.
  intros Hf. induction t as [r| |x k IH]; simpl.
  - apply respects_ret.
  - apply respects_raise.
  - apply respects_bind; [apply Hf|]. intros y. apply IH.
Qed.
End Respects.

(** ** C8: the caller's role map *)



Section OnlyRoles.
Context {A : Type} `{Num A} `{Numerics A}.
Variables (l : loc) (paramstring : list string).

Lemma only_roles_refl (s : state A) : only_roles l paramstring s s.
Proof. repeat split; auto. Qed.

Lemma only_roles_trans (s1 s2 s3 : state A) :
  only_roles l paramstring s1 s2 -> only_roles l paramstring s2 s3 ->
  only_roles l paramstring s1 s3.
Proof.
  intros (G1 & F1 & S1 & D1) (G2 & F2 & S2 & D2). repeat split.
  - congruence.
  - intros l' Hl'. rewrite F2, F1 by assumption. reflexivity.
  - auto.
  - intros k Hk. rewrite D2, D1 by assumption. reflexivity.
Qed.

Lemma only_roles_log (s : state A) (ev : event) :
  only_roles l paramstring s (mkState (heap s) (globals s) (log s ++ [ev])).
Proof. repeat split; auto. Qed.

Lemma store_only_roles (s : string) (v : A) :
  s ∈ paramstring -> respects (only_roles l paramstring) (store l (skey s) v).
Proof.
  intros Hs st r st' E. inversion E; subst. clear E. repeat split; simpl.
  - intros l' Hl'. apply lookup_insert_ne. congruence.
  - intros _. rewrite lookup_insert_eq. eexists. reflexivity.
  - intros k Hk. unfold dict_at. simpl. rewrite lookup_insert_eq. simpl.
    apply lookup_insert_ne. intros <-. apply Hk.
    apply list_elem_of_fmap. exists s. split; [reflexivity|assumption].
Qed.

Lemma store_roles_only_roles (roles : list string) (values : list A) :
  (forall s, s ∈ roles -> s ∈ paramstring) ->
  respects (only_roles l paramstring) (store_roles l roles values).
Proof.
  revert values. induction roles as [|s roles IH]; intros values Hsub; simpl.
  - apply respects_ret, only_roles_refl.
  - destruct values as [|v values].
    + apply respects_raise, only_roles_refl.
    + apply respects_bind; [apply only_roles_trans| |].
      * apply store_only_roles, Hsub, list_elem_of_here.
      * intros _. apply IH. intros s' Hs'.
        apply Hsub, list_elem_of_further, Hs'.
Qed.

End OnlyRoles.

(** One step of a proof that a computation respects [only_roles]. *)
Ltac respects_step :=
  lazymatch goal with
  | |- respects _ (mret _ ≫= _) => apply respects_bind_ret
  | |- respects _ (lift _ ≫= _) =>
      apply respects_bind_lift;
      [apply only_roles_refl
      |let x := fresh "x" in let E := fresh "E" in
       intros x E; try (inversion E; subst; clear E)]
  | |- respects _ (_ ≫= _) =>
      apply respects_bind; [apply only_roles_trans| |intros ?]
  | |- respects _ (mret _) => apply respects_ret, only_roles_refl
  | |- respects _ (raise _) => apply respects_raise, only_roles_refl
  | |- respects _ (lift _) => apply respects_lift, only_roles_refl
  | |- respects _ (library _ _) => apply respects_library, only_roles_refl
  | |- respects _ (deref _) => apply respects_deref, only_roles_refl
  | |- respects _ (global_name _) => apply respects_global_name, only_roles_refl
  | |- respects _ (emit _) => apply respects_emit, only_roles_log
  | |- respects _ (store_roles _ _ _) =>
      apply store_roles_only_roles; (intros ? ?; assumption)
  | |- respects _ (run_strategy _ _ _) =>
      apply respects_run_strategy;
      [apply only_roles_refl|apply only_roles_trans|intros ?]
  | |- respects _ (match ?x with _ => _ end) => destruct x
  end.

Section LegendreFrame.
Context {A : Type} `{Num A} `{Numerics A}.

Lemma errorfunc_only_roles (l : loc) (paramstring : list string)
    (params : list A) (method : string) (Reg : A)
    (RefSpectrum DataToFit : option (list A)) (sigma : option (weights A))
    (WavlCoords LCRef : option (list A)) (ldeg : option Z) :
  respects (only_roles l paramstring)
    (errorfunc_tominimise params method Reg RefSpectrum DataToFit sigma (Some l)
       (mkEf WavlCoords LCRef ldeg (Some paramstring))).
Proof.
  unfold errorfunc_tominimise, predicted_spectrum, role_map. simpl.
  repeat respects_step.
Qed.

Lemma legendre_finish_only_roles (cov : bool) (l : loc) (paramstring : list string)
    (grid LCRef : list A) (fitoutput : fit_output A) :
  respects (only_roles l paramstring)
    (legendre_finish cov l paramstring grid LCRef fitoutput).
Proof. unfold legendre_finish. repeat respects_step. Qed.

Lemma legendre_fit_only_roles (SpectrumY : list A) (RefSpectrum : list (A * A))
    (initial_guess : option (list A)) (sigma : option (weights A)) (cov : bool)
    (Reg : A) (l : loc) (rest : string) :
  respects (only_roles l (role_letters rest))
    (legendre_fit SpectrumY RefSpectrum initial_guess sigma cov Reg (Some l) rest).
Proof.
  unfold legendre_fit, role_map, as_array.
  repeat respects_step;
    first [apply errorfunc_only_roles | apply legendre_finish_only_roles].
Qed.
End LegendreFrame.

Lemma library_ok {A X : Type} (routine : string) (o : option X)
    (s s' : state A) (x : X) :
  library routine o s = (Ok x, s') -> o = Some x /\ s' = s.
Proof.
  unfold library. destruct o; intros E; inversion E. split; reflexivity.
Qed.

Lemma deref_ok {A : Type} (l : loc) (s s' : state A) (d : gmap key A) :
  deref l s = (Ok d, s') -> d = dict_at l s /\ s' = s.
Proof. unfold deref. intros E. inversion E. split; reflexivity. Qed.

Lemma emit_ok {A : Type} (ev : event) (s s' : state A) (u : unit) :
  emit ev s = (Ok u, s') ->
  s' = mkState (heap s) (globals s) (log s ++ [ev]).
Proof. unfold emit. intros E. inversion E. reflexivity. Qed.

Section LegendreValues.
Context {A : Type} `{Num A} `{Numerics A}.

(** After the loop [PVWdic[s] = values[i]] the dictionary holds, under
    each role, the value at the last position where the role occurs. *)
Lemma store_roles_values (l : loc) (roles : list string) (values : list A)
    (s s' : state A) :
  store_roles l roles values s = (Ok tt, s') ->
  forall i r, roles !! i = Some r -> r ∉ drop (S i) roles ->
  dict_at l s' !! skey r = values !! i /\ is_Some (values !! i).
Proof.
  revert values s. induction roles as [|r0 roles IH]; intros values s Hrun i r Hi Hlast.
  - rewrite lookup_nil in Hi. discriminate.
  - simpl in Hrun. destruct values as [|v values]; [discriminate|].
    apply bind_ok in Hrun as (u & s1 & Hstore & Hrun).
    destruct i as [|i]; simpl in Hi, Hlast.
    + inversion Hi; subst r0. clear Hi.
      pose proof (store_roles_only_roles l roles roles values (fun _ Hs => Hs)
                    _ _ _ Hrun) as (_ & _ & _ & Hkeep).
      rewrite Hkeep.
      * inversion Hstore; subst s1. unfold dict_at. simpl.
        rewrite lookup_insert_eq. simpl. rewrite lookup_insert_eq.
        split; [reflexivity|eexists; reflexivity].
      * intros Hin. apply list_elem_of_fmap in Hin as (r' & Er & Hr').
        inversion Er; subst r'. contradiction.
    + exact (IH values s1 Hrun i r Hi Hlast).
Qed.

Lemma legendre_finish_ok (cov : bool) (l : loc) (paramstring : list string)
    (grid LCRef : list A) (fitoutput : fit_output A) (s s' : state A)
    (wavl_sln popt : list A) (pcov : option (list (list A))) :
  legendre_finish cov l paramstring grid LCRef fitoutput s
    = (Ok (wavl_sln, popt, pcov), s') ->
  popt = fo_x fitoutput /\
  exists s2, store_roles l paramstring (tail popt) s2 = (Ok tt, s').
Proof.
  unfold legendre_finish. intros Hrun.
  apply bind_ok in Hrun as (u & s1 & _ & Hrun).
  apply bind_ok in Hrun as (pc & s2 & _ & Hrun).
  apply bind_ok in Hrun as ([] & s3 & Hstore & Hrun).
  apply bind_ok in Hrun as (d & s4 & Hd & Hrun).
  apply deref_ok in Hd as [_ ->].
  apply bind_ok in Hrun as (LCnew & s4 & HLC & Hrun).
  apply lift_ok in HLC as [_ ->].
  apply bind_ok in Hrun as (w & s4 & Hw & Hrun).
  apply library_ok in Hw as [_ ->].
  apply ret_ok in Hrun as [E ->]. inversion E; subst.
  split; [reflexivity|]. exists s2. exact Hstore.
Qed.

Lemma legendre_fit_ok (SpectrumY : list A) (RefSpectrum : list (A * A))
    (initial_guess : option (list A)) (sigma : option (weights A)) (cov : bool)
    (Reg : A) (l : loc) (rest : string) (s s' : state A)
    (wavl_sln popt : list A) (pcov : option (list (list A))) :
  legendre_fit SpectrumY RefSpectrum initial_guess sigma cov Reg (Some l) rest s
    = (Ok (wavl_sln, popt, pcov), s') ->
  exists s2, store_roles l (role_letters rest) (tail popt) s2 = (Ok tt, s').
Proof.
  unfold legendre_fit, role_map. intros Hrun.
  apply bind_ok in Hrun as (l' & s1 & Hl & Hrun).
  apply ret_ok in Hl as [-> ->].
  apply bind_ok in Hrun as (ldeg & s1 & _ & Hrun).
  apply bind_ok in Hrun as (LCRef & s2 & _ & Hrun).
  apply bind_ok in Hrun as (p0 & s3 & _ & Hrun).
  apply bind_ok in Hrun as (scales & s4 & _ & Hrun).
  apply bind_ok in Hrun as (u & s5 & _ & Hrun).
  apply bind_ok in Hrun as (fitoutput & s6 & _ & Hrun).
  apply legendre_finish_ok in Hrun as [_ Hstore]. exact Hstore.
Qed.

(** The driver on a method of the family [l]. *)
Lemma ReCalibrate_legendre_run (SpectrumY : list A) (RefSpectrum : list (A * A))
    (rest : string) (initial_guess : option (list A)) (sigma : option (weights A))
    (cov : bool) (Reg : A) (defaultParamDic : option loc) (scalepixel : bool)
    (s : state A) :
  ReCalibrateDispersionSolution SpectrumY RefSpectrum (String "l" rest)
    initial_guess sigma cov Reg defaultParamDic scalepixel s
  = match legendre_fit SpectrumY RefSpectrum initial_guess sigma cov Reg
            defaultParamDic rest s with
    | (Ok (wavl_sln, popt, pcov), s') =>
        (Ok (wavl_sln, popt, if cov then pcov else None), s')
    | (Err e, s') => (Err e, s')
    end.
Proof.
  unfold ReCalibrateDispersionSolution. simpl.
  rewrite bind_run. simpl. rewrite bind_run.
  destruct (legendre_fit _ _ _ _ _ _ _ _ s) as [[[[w p] c]|e] s']; reflexivity.
Qed.
End LegendreValues.

(** C8.  With a method of the family [l] and a caller-supplied
    [defaultParamDic], a call that returns leaves in that dictionary, under
    each fitted role, the fitted value of [popt] (the last one, should a
    role letter be repeated), leaves its other entries as they were, and
    changes no other dictionary and no module-level name. *)
Theorem ReCalibrate_records_fitted_roles {A : Type} `{Num A} `{Numerics A}
    (SpectrumY : list A) (RefSpectrum : list (A * A)) (rest : string)
    (initial_guess : option (list A)) (sigma : option (weights A)) (cov : bool)
    (Reg : A) (l : loc) (scalepixel : bool) (d : gmap key A)
    (st st' : state A) (wavl_sln popt : list A) (pcov : option (list (list A))) :
  heap st !! l = Some d ->
  ReCalibrateDispersionSolution SpectrumY RefSpectrum (String "l" rest)
    initial_guess sigma cov Reg (Some l) scalepixel st
  = (Ok (wavl_sln, popt, pcov), st') ->
  roles_recorded l d (role_letters rest) popt st st'.
Proof.
  intros Hd Hrun. unfold roles_recorded.
  rewrite ReCalibrate_legendre_run in Hrun.
  destruct (legendre_fit SpectrumY RefSpectrum initial_guess sigma cov Reg
              (Some l) rest st) as [[[[w p] c]|e] s1] eqn:Hfit; [|discriminate].
  inversion Hrun; subst w p s1. clear Hrun.
  pose proof (legendre_fit_only_roles _ _ _ _ _ _ _ _ _ _ _ Hfit)
    as (Hglob & Hframe & Hsome & Hkeep).
  destruct (Hsome (ex_intro _ d Hd)) as [d' Hd'].
  apply legendre_fit_ok in Hfit as (s2 & Hstore).
  repeat apply conj; [|exact Hframe|exact Hglob].
  exists d'. repeat apply conj.
  - exact Hd'.
  - intros i s Hi Hlast.
    destruct (store_roles_values _ _ _ _ _ Hstore i s Hi Hlast) as [Hv Hs].
    unfold dict_at in Hv. rewrite Hd' in Hv. simpl in Hv.
    destruct popt as [|scale shifts]; exact (conj Hv Hs).
  - intros k Hk. specialize (Hkeep k Hk). unfold dict_at in Hkeep.
    rewrite Hd', Hd in Hkeep. exact Hkeep.
Qed.

Module RecordedRoles.
Import PrimFloat Samples.

Lemma ReCalibrate_records_fitted_roles_witness :
  exists wavl_sln popt pcov st',
    ReCalibrateDispersionSolution (H0 := stub_numerics 0)
      [1; 3; 2; 5]%float [(4000, 1); (5000, 3); (6000, 2); (7000, 5)]%float
      "lpv1" None None false 0%float (Some 5%positive) true caller_state
    = (Ok (wavl_sln, popt, pcov), st') /\
    roles_recorded 5%positive caller_dict (role_letters "pv1") popt
      caller_state st'.
Proof.
  eexists _, _, _, _. split; [vm_compute; reflexivity|].
  eapply (ReCalibrate_records_fitted_roles (H0 := stub_numerics 0)
            [1; 3; 2; 5]%float [(4000, 1); (5000, 3); (6000, 2); (7000, 5)]%float
            "pv1" None None false 0%float 5%positive true caller_dict caller_state).
  - vm_compute. reflexivity.
  - vm_compute. reflexivity.
Defined.
End RecordedRoles.

(** ** C6: what becomes of the status of the optimizer *)

Section Status.
Context {A : Type} `{Num A}.

Lemma run_strategy_with_status (routine : string) (status : Z)
    (t : strategy A (fit_output A)) (f : list A -> M A (list A)) (s : state A) :
  run_strategy routine (with_status status t) f s =
  match run_strategy routine t f s with
  | (Ok fo, s') => (Ok (set_status status fo), s')
  | (Err e, s') => (Err e, s')
  end.
Proof.
  revert s. induction t as [fo| |x k IH]; intros s; simpl.
  - reflexivity.
  - reflexivity.
  - rewrite !bind_run. destruct (f x s) as [[y|e] s1]; [apply IH|reflexivity].
Qed.

Lemma store_roles_with_log (l : loc) (roles : list string) (values : list A)
    (lg : list event) (s : state A) :
  store_roles l roles values (with_log lg s) =
  (fst (store_roles l roles values s), with_log lg (snd (store_roles l roles values s))).
Proof.
  revert values s. induction roles as [|r roles IH]; intros values s; simpl.
  - reflexivity.
  - destruct values as [|v values]; [reflexivity|].
    rewrite !bind_run. simpl.
    exact (IH values (mkState _ (globals s) (log s))).
Qed.

(** Lines 329-343 in closed form: the status goes to the log and, with
    [cov], to the covariance helper as a part of the fit output; nowhere
    else. *)
Lemma legendre_finish_closed_form `{Numerics A} (cov : bool) (l : loc)
    (paramstring : list string) (grid LCRef : list A) (fo : fit_output A)
    (s : state A) :
  legendre_finish cov l paramstring grid LCRef fo s =
  let printed := log s ++ [PrintStatus paramstring (fo_status fo)] in
  match (if cov then Some <$> calculate_cov_matrix_fromscipylsq fo else Some None) with
  | None => (Err (LibraryError "calculate_cov_matrix_fromscipylsq"), with_log printed s)
  | Some pcov =>
      let '(stored, s2) := store_roles l paramstring (tail (fo_x fo)) s in
      let s3 := with_log printed s2 in
      match stored with
      | Ok _ =>
          match TransformLegendreCoeffs LCRef (dict_at l s2) (normP_of paramstring) with
          | Ok LCnew =>
              match legval grid LCnew with
              | Some wavl_sln => (Ok (wavl_sln, fo_x fo, pcov), s3)
              | None => (Err (LibraryError "legval"), s3)
              end
          | Err e => (Err e, s3)
          end
      | Err e => (Err e, s3)
      end
  end.
Proof.
  unfold legendre_finish. cbv zeta. rewrite bind_run. simpl.
  change (mkState (heap s) (globals s) (log s ++ [PrintStatus paramstring (fo_status fo)]))
    with (with_log (log s ++ [PrintStatus paramstring (fo_status fo)]) s).
  set (s1 := with_log _ s).
  assert (Hrest : forall pcov : option (list (list A)),
    (store_roles l paramstring (tail (fo_x fo)) ≫= fun _ =>
     deref l ≫= fun d =>
     lift (TransformLegendreCoeffs LCRef d (normP_of paramstring)) ≫= fun LCnew =>
     library "legval" (legval grid LCnew) ≫= fun wavl_sln =>
     (mret (wavl_sln, fo_x fo, pcov) : M A (@fit_result A))) s1 =
    (let '(stored, s2) := store_roles l paramstring (tail (fo_x fo)) s in
    let s3 := with_log (log s ++ [PrintStatus paramstring (fo_status fo)]) s2 in
    match stored with
    | Ok _ =>
        match TransformLegendreCoeffs LCRef (dict_at l s2) (normP_of paramstring) with
        | Ok LCnew =>
            match legval grid LCnew with
            | Some wavl_sln => (Ok (wavl_sln, fo_x fo, pcov), s3)
            | None => (Err (LibraryError "legval"), s3)
            end
        | Err e => (Err e, s3)
        end
    | Err e => (Err e, s3)
    end : result (@fit_result A) * state A)).
  { intros pcov. rewrite bind_run. unfold s1. rewrite store_roles_with_log.
    destruct (store_roles l paramstring (tail (fo_x fo)) s) as [[[]|e] s2]; simpl;
      [|reflexivity].
    rewrite bind_run. simpl. rewrite bind_run. unfold lift, dict_at. simpl.
    destruct (TransformLegendreCoeffs LCRef (default ∅ (heap s2 !! l))
                (normP_of paramstring)) as [LCnew|e]; [|reflexivity].
    rewrite bind_run. unfold library.
    destruct (legval grid LCnew); reflexivity. }
  rewrite bind_run. destruct cov.
  - rewrite bind_run. unfold library.
    destruct (calculate_cov_matrix_fromscipylsq fo) as [c|]; simpl; [|reflexivity].
    apply Hrest.
  - simpl. apply Hrest.
Qed.
End Status.

Section StatusOfTheFit.
Context {A : Type} `{Num A} (N : Numerics A).
Variables (SpectrumY : list A) (RefSpectrum : list (A * A)) (rest : string)
  (initial_guess : option (list A)) (sigma : option (weights A)) (cov : bool)
  (Reg : A) (defaultParamDic : option loc).

(** The Legendre fit, had [least_squares] stopped with [status]: the same
    outcome, the same objects -- where the covariance helper, if it is
    called, makes of the fit output what it would make of it with any
    other status. *)
Lemma legendre_fit_with_status (status : Z) (s : state A) :
  (cov = true ->
   forall fo, @calculate_cov_matrix_fromscipylsq A N (set_status status fo)
              = @calculate_cov_matrix_fromscipylsq A N fo) ->
  let changed :=
    legendre_fit (H0 := with_least_squares_status status N) SpectrumY RefSpectrum
      initial_guess sigma cov Reg defaultParamDic rest s in
  let original :=
    legendre_fit (H0 := N) SpectrumY RefSpectrum
      initial_guess sigma cov Reg defaultParamDic rest s in
  fst changed = fst original /\ heap (snd changed) = heap (snd original).
Proof.
  intros Hcov. cbv zeta. unfold legendre_fit.
  change (@errorfunc_tominimise A H (with_least_squares_status status N))
    with (@errorfunc_tominimise A H N).
  change (@legendre_finish A H (with_least_squares_status status N))
    with (@legendre_finish A H N).
  cbn [np_linspace legfit least_squares with_least_squares_status].
  rewrite !bind_run.
  destruct (role_map defaultParamDic s) as [[l|e] s1]; [|split; reflexivity].
  rewrite !bind_run.
  destruct (lift (py_int (digit_letters rest)) s1) as [[ldeg|e] s2];
    [|split; reflexivity].
  rewrite !bind_run.
  destruct (library "legfit" _ s2) as [[LCRef|e] s3]; [|split; reflexivity].
  rewrite !bind_run.
  match goal with
  | |- context [match ?m s3 with _ => _ end] =>
      destruct (m s3) as [[p0|e] s4]; [|split; reflexivity]
  end.
  rewrite !bind_run.
  destruct (lift (map_result x_scaledic (role_letters rest)) s4) as [[scales|e] s5];
    [|split; reflexivity].
  rewrite !bind_run.
  destruct (emit CallLeastSquares s5) as [[u|e] s6]; [|split; reflexivity].
  rewrite !bind_run, run_strategy_with_status.
  match goal with
  | |- context [run_strategy ?r ?t ?f s6] =>
      destruct (run_strategy r t f s6) as [[fo|e] s7]; [|split; reflexivity]
  end.
  rewrite !legendre_finish_closed_form. cbv zeta.
  assert (Epc : (if cov
                 then Some <$> @calculate_cov_matrix_fromscipylsq A N (set_status status fo)
                 else Some None)
                = (if cov then Some <$> @calculate_cov_matrix_fromscipylsq A N fo
                   else Some None)).
  { destruct cov; [rewrite (Hcov eq_refl fo)|]; reflexivity. }
  rewrite Epc. change (fo_x (set_status status fo)) with (fo_x fo).
  destruct (if cov then Some <$> @calculate_cov_matrix_fromscipylsq A N fo
            else Some None) as [pcov|]; [|split; reflexivity].
  destruct (store_roles l (role_letters rest) (tail (fo_x fo)) s7) as [[[]|e] s8];
    [|split; reflexivity].
  destruct (TransformLegendreCoeffs LCRef (dict_at l s8)
              (normP_of (role_letters rest))) as [LCnew|e]; [|split; reflexivity].
  destruct (legval _ LCnew); split; reflexivity.
Qed.

(** What a successful Legendre fit returns and prints. *)
Lemma legendre_fit_returns (s s' : state A)
    (wavl_sln popt : list A) (pcov : option (list (list A))) :
  legendre_fit (H0 := N) SpectrumY RefSpectrum initial_guess sigma cov Reg
    defaultParamDic rest s = (Ok (wavl_sln, popt, pcov), s') ->
  exists p0 x_scale f s0 s1 fo,
    run_strategy "least_squares" (least_squares p0 x_scale) f s0 = (Ok fo, s1) /\
    popt = fo_x fo /\
    pcov = (if cov then @calculate_cov_matrix_fromscipylsq A N fo else None) /\
    log s' = log s1 ++ [PrintStatus (role_letters rest) (fo_status fo)].
Proof.
  unfold legendre_fit. intros Hrun.
  apply bind_ok in Hrun as (l & s1 & _ & Hrun).
  apply bind_ok in Hrun as (ldeg & s2 & _ & Hrun).
  apply bind_ok in Hrun as (LCRef & s3 & _ & Hrun).
  apply bind_ok in Hrun as (p0 & s4 & _ & Hrun).
  apply bind_ok in Hrun as (scales & s5 & _ & Hrun).
  apply bind_ok in Hrun as (u & s6 & _ & Hrun).
  apply bind_ok in Hrun as (fo & s7 & Hopt & Hrun).
  rewrite legendre_finish_closed_form in Hrun. cbv zeta in Hrun.
  assert (Hpc : forall pc,
            (if cov then Some <$> @calculate_cov_matrix_fromscipylsq A N fo
             else Some None) = Some pc ->
            pc = (if cov then @calculate_cov_matrix_fromscipylsq A N fo else None)).
  { intros pc. destruct cov; [|intros E; inversion E; reflexivity].
    destruct (@calculate_cov_matrix_fromscipylsq A N fo); intros E; inversion E.
    reflexivity. }
  destruct (if cov then Some <$> @calculate_cov_matrix_fromscipylsq A N fo
            else Some None) as [pc|]; [|discriminate].
  specialize (Hpc pc eq_refl).
  destruct (store_roles l (role_letters rest) (tail (fo_x fo)) s7) as [[[]|e] s8];
    [|discriminate].
  destruct (TransformLegendreCoeffs LCRef (dict_at l s8)
              (normP_of (role_letters rest))) as [LCnew|e]; [|discriminate].
  destruct (legval _ LCnew); [|discriminate].
  inversion Hrun; subst.
  eexists _, _, _, _, _, fo. split; [exact Hopt|].
  split; [reflexivity|]. split; reflexivity.
Qed.
End StatusOfTheFit.

(** C6 (amended).  For the Legendre family, the status with which
    [least_squares] stops does not make the driver raise and is no part of
    what it returns: had the optimizer stopped with any other status, the
    call would have ended the same way, with the same value and the same
    objects -- without [cov], and with [cov] where the covariance helper
    does not read the status.  A call that returns returns the [x] of the
    optimizer as [popt] and, with [cov], what the covariance helper makes
    of the fit output; the status is printed. *)
Theorem ReCalibrate_status_only_printed {A : Type} `{Num A} (N : Numerics A)
    (SpectrumY : list A) (RefSpectrum : list (A * A)) (rest : string)
    (initial_guess : option (list A)) (sigma : option (weights A)) (cov : bool)
    (Reg : A) (defaultParamDic : option loc) (scalepixel : bool) (status : Z)
    (st : state A) :
  (cov = true ->
   forall fo, @calculate_cov_matrix_fromscipylsq A N (set_status status fo)
              = @calculate_cov_matrix_fromscipylsq A N fo) ->
  let run (N' : Numerics A) :=
    ReCalibrateDispersionSolution (H0 := N') SpectrumY RefSpectrum (String "l" rest)
      initial_guess sigma cov Reg defaultParamDic scalepixel st in
  fst (run (with_least_squares_status status N)) = fst (run N) /\
  heap (snd (run (with_least_squares_status status N))) = heap (snd (run N)) /\
  forall wavl_sln popt pcov st',
    run N = (Ok (wavl_sln, popt, pcov), st') ->
    exists p0 x_scale f s0 s1 fo,
      run_strategy "least_squares" (least_squares p0 x_scale) f s0 = (Ok fo, s1) /\
      popt = fo_x fo /\
      pcov = (if cov then @calculate_cov_matrix_fromscipylsq A N fo else None) /\
      log st' = log s1 ++ [PrintStatus (role_letters rest) (fo_status fo)].
Proof.
  intros Hcov. cbv beta zeta. rewrite !ReCalibrate_legendre_run.
  pose proof (legendre_fit_with_status N SpectrumY RefSpectrum rest initial_guess
                sigma cov Reg defaultParamDic status st Hcov) as [Hfst Hheap].
  cbv zeta in Hfst, Hheap.
  destruct (legendre_fit (H0 := with_least_squares_status status N) SpectrumY
              RefSpectrum initial_guess sigma cov Reg defaultParamDic rest st)
    as [r' s'].
  destruct (legendre_fit (H0 := N) SpectrumY RefSpectrum initial_guess sigma
              cov Reg defaultParamDic rest st) as [r s] eqn:Hfit.
  simpl in Hfst, Hheap. subst r'.
  repeat apply conj.
  - destruct r as [[[w p] c]|e]; reflexivity.
  - destruct r as [[[w p] c]|e]; exact Hheap.
  - intros wavl_sln popt pcov st' Hrun.
    destruct r as [[[w p] c]|e]; [|discriminate].
    inversion Hrun; subst.
    destruct (legendre_fit_returns N _ _ _ _ _ _ _ _ _ _ _ _ _ Hfit)
      as (p0 & xs & f & s0 & s1 & fo & Hopt & Ep & Ec & Elog).
    exists p0, xs, f, s0, s1, fo.
    split; [exact Hopt|]. split; [exact Ep|]. split; [|exact Elog].
    rewrite Ec. destruct cov; reflexivity.
Qed.

Module StatusRuns.
Import PrimFloat.

(** A fit whose optimizer stops with status 0, its budget of
    evaluations spent, and one whose optimizer stops with status 2,
    converged, return the same value; no caller can read the status off
    it. *)
Lemma ReCalibrate_status_not_returned :
  ~ status_returned
      (fun status =>
         ReCalibrateDispersionSolution (H0 := stub_numerics status)
           [1; 3; 2; 5]%float [(4000, 1); (5000, 3); (6000, 2); (7000, 5)]%float
           "lpv1" None None false 0%float None true empty_state).
Proof.
  intros [read Hread].
  assert (exists rv s0 s2,
            ReCalibrateDispersionSolution (H0 := stub_numerics 0)
              [1; 3; 2; 5]%float [(4000, 1); (5000, 3); (6000, 2); (7000, 5)]%float
              "lpv1" None None false 0%float None true empty_state = (Ok rv, s0) /\
            ReCalibrateDispersionSolution (H0 := stub_numerics 2)
              [1; 3; 2; 5]%float [(4000, 1); (5000, 3); (6000, 2); (7000, 5)]%float
              "lpv1" None None false 0%float None true empty_state = (Ok rv, s2))
    as (rv & s0 & s2 & E0 & E2).
  { eexists _, _, _. split; vm_compute; reflexivity. }
  pose proof (Hread 0%Z rv s0 E0) as R0.
  pose proof (Hread 2%Z rv s2 E2) as R2.
  rewrite R0 in R2. discriminate.
Qed.

(** C6 as stated fails.  For the Legendre family the status is no part
    of what is returned (above); and for the families fitted with
    [curve_fit] there is nothing to return when the fit does not
    converge: [curve_fit] raises, the driver has no handler, and the call
    ends in that exception. *)
Lemma ReCalibrate_status_claim_fails :
  ~ status_returned
      (fun status =>
         ReCalibrateDispersionSolution (H0 := stub_numerics status)
           [1; 3; 2; 5]%float [(4000, 1); (5000, 3); (6000, 2); (7000, 5)]%float
           "lpv1" None None false 0%float None true empty_state) /\
  ReCalibrateDispersionSolution (H0 := with_failing_curve_fit (stub_numerics 0))
    [1; 3; 2; 5]%float [(4000, 1); (5000, 3); (6000, 2); (7000, 5)]%float
    "v" None None false 0%float None true empty_state
  = (Err (LibraryError "curve_fit"), with_log [CallCurveFit] empty_state).
Proof.
  split; [exact ReCalibrate_status_not_returned|].
  vm_compute. reflexivity.
Qed.

Lemma ReCalibrate_status_only_printed_witness :
  let run (N' : Numerics float) :=
    ReCalibrateDispersionSolution (H0 := N')
      [1; 3; 2; 5]%float [(4000, 1); (5000, 3); (6000, 2); (7000, 5)]%float
      "lpv1" None None true 0%float None true empty_state in
  fst (run (with_least_squares_status 2 (stub_numerics 0)))
  = fst (run (stub_numerics 0)) /\
  heap (snd (run (with_least_squares_status 2 (stub_numerics 0))))
  = heap (snd (run (stub_numerics 0))) /\
  forall wavl_sln popt pcov st',
    run (stub_numerics 0) = (Ok (wavl_sln, popt, pcov), st') ->
    exists p0 x_scale f s0 s1 fo,
      run_strategy "least_squares"
        (least_squares (Numerics := stub_numerics 0) p0 x_scale) f s0 = (Ok fo, s1) /\
      popt = fo_x fo /\
      pcov = (if true
              then calculate_cov_matrix_fromscipylsq (Numerics := stub_numerics 0) fo
              else None) /\
      log st' = log s1 ++ [PrintStatus (role_letters "pv1") (fo_status fo)].
Proof.
  apply (ReCalibrate_status_only_printed (stub_numerics 0)
           [1; 3; 2; 5]%float [(4000, 1); (5000, 3); (6000, 2); (7000, 5)]%float
           "pv1" None None true 0%float None true 2%Z empty_state).
  intros _ fo. reflexivity.
Defined.

(** The status is in what was printed. *)
Example ReCalibrate_status_printed :
  log (snd (ReCalibrateDispersionSolution (H0 := stub_numerics 0)
              [1; 3; 2; 5]%float [(4000, 1); (5000, 3); (6000, 2); (7000, 5)]%float
              "lpv1" None None false 0%float None true empty_state))
  = [CallLeastSquares; PrintStatus ["p"; "v"] 0].
Proof. vm_compute. reflexivity. Qed.
End StatusRuns.

(** ** C2: where the renormalisation is applied *)

Section Renormalisation.
Context `{Numerics xreal}.

(** The transform with the flag the fit computes from its roles. *)
Lemma TransformLegendreCoeffs_renormalised (roles : list string) (LC : list R)
    (d : gmap key xreal) (p v w : R) (LCnew : list xreal) :
  LC <> [] ->
  d !! skey "p" = Some (Fin p) ->
  d !! skey "v" = Some (Fin v) ->
  d !! skey "w" = Some (Fin w) ->
  TransformLegendreCoeffs (map Fin LC) d (normP_of roles) = Ok LCnew ->
  renormalised_when_both roles LC p v w LCnew.
Proof.
  intros HLC Hp Hv Hw Hrun. unfold renormalised_when_both. cbv zeta. split.
  - intros Hboth Hnz.
    pose proof (TransformLegendreCoeffs_steps LC d p v w (normP_of roles)
                  HLC Hp Hv Hw (or_intror Hnz)) as (T3 & Hres & E & _).
    rewrite (proj2 (normP_of_true roles) Hboth) in Hres.
    exists T3. split; [exact Hres|]. rewrite Hrun in E. inversion E. reflexivity.
  - intros Hnot.
    assert (Hflag : normP_of roles = false).
    { destruct (normP_of roles) eqn:E; [|reflexivity].
      exfalso. apply Hnot, normP_of_true, E. }
    pose proof (TransformLegendreCoeffs_steps LC d p v w (normP_of roles)
                  HLC Hp Hv Hw (or_introl Hflag)) as (T3 & Hres & E & _).
    rewrite Hflag in Hres. subst T3. rewrite Hrun in E. inversion E. reflexivity.
Qed.

Lemma role_map_ok (defaultParamDic : option loc) (s s1 : state xreal) (l : loc) :
  role_map defaultParamDic s = (Ok l, s1) -> l = role_map_at defaultParamDic s.
Proof.
  destruct defaultParamDic; unfold role_map, role_map_at, alloc; intros E;
    inversion E; reflexivity.
Qed.

(** Lines 146-178 on a call that returns, with [WavlCoords] and [LCRef]
    given: the coefficients, the coordinates and the spectrum it went
    through. *)
Lemma errorfunc_evaluates (defaultParamDic : option loc) (roles : list string)
    (params : list xreal) (method : string) (Reg : xreal)
    (Ref : list xreal) (Data : option (list xreal)) (sigma : option (weights xreal))
    (X LCRef : list xreal) (ldeg : option Z)
    (s s' : state xreal) (out : list xreal) :
  errorfunc_tominimise params method Reg (Some Ref) Data sigma defaultParamDic
    (mkEf (Some X) (Some LCRef) ldeg (Some roles)) s = (Ok (Some out), s') ->
  exists LCnew Xtransformed predicted scale,
    TransformLegendreCoeffs LCRef (dict_at (role_map_at defaultParamDic s) s')
      (normP_of roles) = Ok LCnew /\
    legval (np_linspace (length Ref)) LCnew = Some Xtransformed /\
    params !! 0%nat = Some scale /\
    spline 0 X (vscale scale Ref) Xtransformed = Some predicted /\
    residual_vector predicted Data sigma Reg params = Ok out.
Proof.
  unfold errorfunc_tominimise. intros Hrun.
  apply bind_ok in Hrun as (scale & s1 & Hscale & Hrun).
  apply lift_ok in Hscale as [Hscale ->]. apply index_ok in Hscale.
  apply bind_ok in Hrun as (Ref' & s1 & HRef & Hrun).
  apply lift_ok in HRef as [HRef ->]. inversion HRef; subst Ref'. clear HRef.
  destruct (String.eqb_spec method "l") as [->|Hne].
  2:{ apply bind_ok in Hrun as (u & s1 & _ & Hrun).
      apply ret_ok in Hrun as [E _]. discriminate. }
  apply bind_ok in Hrun as (predicted & s1 & Hpred & Hrun).
  apply bind_ok in Hrun as (res & s2 & Hres & Hrun).
  apply lift_ok in Hres as [Hres ->].
  apply ret_ok in Hrun as [E ->]. inversion E; subst res. clear E.
  unfold predicted_spectrum in Hpred. cbv zeta in Hpred.
  cbn [ef_WavlCoords ef_LCRef ef_ldeg ef_paramstofit] in Hpred.
  apply bind_ok in Hpred as ([LC X'] & s2 & HLX & Hpred).
  apply ret_ok in HLX as [E ->]. inversion E; subst LC X'. clear E.
  apply bind_ok in Hpred as (roles' & s3 & Hroles & Hpred).
  apply lift_ok in Hroles as [Er ->]. inversion Er; subst roles'. clear Er.
  apply bind_ok in Hpred as (l & s3 & Hl & Hpred).
  apply role_map_ok in Hl. subst l.
  apply bind_ok in Hpred as ([] & s4 & Hstore & Hpred).
  apply bind_ok in Hpred as (LC' & s5 & HLC & Hpred).
  apply lift_ok in HLC as [HLC ->]. inversion HLC; subst LC'. clear HLC.
  apply bind_ok in Hpred as (d & s5 & Hd & Hpred).
  apply deref_ok in Hd as [-> ->].
  apply bind_ok in Hpred as (LCnew & s5 & HLCnew & Hpred).
  apply lift_ok in HLCnew as [HLCnew ->].
  apply bind_ok in Hpred as (Xt & s5 & HXt & Hpred).
  apply library_ok in HXt as [HXt ->].
  apply bind_ok in Hpred as (Xo & s5 & HXo & Hpred).
  apply lift_ok in HXo as [HXo ->]. inversion HXo; subst Xo. clear HXo.
  apply library_ok in Hpred as [Hspline ->].
  exists LCnew, Xt, predicted, scale.
  split; [exact HLCnew|]. split; [exact HXt|]. split; [exact Hscale|].
  split; [exact Hspline|exact Hres].
Qed.

(** Lines 302-343 on a call that returns: the reference coefficients
    and the coefficients of the solution. *)
Lemma legendre_fit_evaluates (SpectrumY : list xreal)
    (RefSpectrum : list (xreal * xreal))
    (initial_guess : option (list xreal)) (sigma : option (weights xreal))
    (cov : bool) (Reg : xreal) (defaultParamDic : option loc) (rest : string)
    (s s' : state xreal)
    (wavl_sln popt : list xreal) (pcov : option (list (list xreal))) :
  legendre_fit SpectrumY RefSpectrum initial_guess sigma cov Reg defaultParamDic rest s
    = (Ok (wavl_sln, popt, pcov), s') ->
  exists ldeg LCRef LCnew,
    py_int (digit_letters rest) = Ok ldeg /\
    legfit (np_linspace (length RefSpectrum)) (map fst RefSpectrum) (Z.of_nat ldeg)
      = Some LCRef /\
    TransformLegendreCoeffs LCRef (dict_at (role_map_at defaultParamDic s) s')
      (normP_of (role_letters rest)) = Ok LCnew /\
    legval (np_linspace (length RefSpectrum)) LCnew = Some wavl_sln.
Proof.
  unfold legendre_fit. intros Hrun.
  apply bind_ok in Hrun as (l & s0 & Hl & Hrun).
  apply role_map_ok in Hl. subst l.
  set (l := role_map_at defaultParamDic s) in *.
  apply bind_ok in Hrun as (ldeg & s1 & Hdeg & Hrun).
  apply lift_ok in Hdeg as [Hdeg ->].
  apply bind_ok in Hrun as (LCRef & s2 & HLC & Hrun).
  apply library_ok in HLC as [HLC ->].
  apply bind_ok in Hrun as (p0 & s3 & _ & Hrun).
  apply bind_ok in Hrun as (scales & s4 & _ & Hrun).
  apply bind_ok in Hrun as (u & s5 & _ & Hrun).
  apply bind_ok in Hrun as (fo & s6 & _ & Hrun).
  rewrite legendre_finish_closed_form in Hrun. cbv zeta in Hrun.
  destruct (if cov then _ else _) as [pc|]; [|discriminate].
  destruct (store_roles l (role_letters rest) (tail (fo_x fo)) s6) as [[[]|e] s7];
    [|discriminate].
  destruct (TransformLegendreCoeffs LCRef (dict_at l s7)
              (normP_of (role_letters rest))) as [LCnew|e] eqn:HLCnew; [|discriminate].
  destruct (legval _ LCnew) as [w|] eqn:Hw; [|discriminate].
  inversion Hrun; subst. rewrite length_map in HLC, Hw.
  exists ldeg, LCRef, LCnew.
  split; [exact Hdeg|]. split; [exact HLC|]. split; [exact HLCnew|exact Hw].
Qed.
End Renormalisation.

(** C2 (amended).  In exact arithmetic, the renormalisation is applied
    exactly when both ['p'] and ['v'] are among the fitted roles, in the
    objective (lines 166-169) and in the driver (lines 338-341) alike.
    The coefficients the objective evaluates, and those of the wavelength
    solution the driver returns, then come by the velocity scaling from a
    positive multiple of the pixel-shifted vector whose norm is the norm
    of the wavelength-shifted vector -- where that vector is not the zero
    vector -- and from the pixel-shifted vector itself when one of the two
    roles is not fit. *)
Theorem renormalisation_preserves_norm `{Numerics xreal} :
  (forall (params : list xreal) (method : string) (Reg : xreal)
          (Ref : list xreal) (Data : option (list xreal))
          (sigma : option (weights xreal)) (defaultParamDic : option loc)
          (X : list xreal) (LC : list R) (ldeg : option Z) (roles : list string)
          (s s' : state xreal) (out : list xreal) (p v w : R),
     errorfunc_tominimise params method Reg (Some Ref) Data sigma defaultParamDic
       (mkEf (Some X) (Some (map Fin LC)) ldeg (Some roles)) s
     = (Ok (Some out), s') ->
     LC <> [] ->
     dict_at (role_map_at defaultParamDic s) s' !! skey "p" = Some (Fin p) ->
     dict_at (role_map_at defaultParamDic s) s' !! skey "v" = Some (Fin v) ->
     dict_at (role_map_at defaultParamDic s) s' !! skey "w" = Some (Fin w) ->
     exists LCnew Xtransformed predicted scale,
       renormalised_when_both roles LC p v w LCnew /\
       legval (np_linspace (length Ref)) LCnew = Some Xtransformed /\
       params !! 0%nat = Some scale /\
       spline 0 X (vscale scale Ref) Xtransformed = Some predicted /\
       residual_vector predicted Data sigma Reg params = Ok out) /\
  (forall (SpectrumY : list xreal) (RefSpectrum : list (xreal * xreal))
          (rest : string) (initial_guess : option (list xreal))
          (sigma : option (weights xreal)) (cov : bool) (Reg : xreal)
          (defaultParamDic : option loc)
          (scalepixel : bool) (st st' : state xreal)
          (wavl_sln popt : list xreal) (pcov : option (list (list xreal)))
          (ldeg : nat) (LC : list R) (p v w : R),
     ReCalibrateDispersionSolution SpectrumY RefSpectrum (String "l" rest)
       initial_guess sigma cov Reg defaultParamDic scalepixel st
     = (Ok (wavl_sln, popt, pcov), st') ->
     py_int (digit_letters rest) = Ok ldeg ->
     legfit (np_linspace (length RefSpectrum)) (map fst RefSpectrum) (Z.of_nat ldeg)
     = Some (map Fin LC) ->
     LC <> [] ->
     dict_at (role_map_at defaultParamDic st) st' !! skey "p" = Some (Fin p) ->
     dict_at (role_map_at defaultParamDic st) st' !! skey "v" = Some (Fin v) ->
     dict_at (role_map_at defaultParamDic st) st' !! skey "w" = Some (Fin w) ->
     exists LCnew,
       renormalised_when_both (role_letters rest) LC p v w LCnew /\
       legval (np_linspace (length RefSpectrum)) LCnew = Some wavl_sln).
Proof.
  split.
  - intros params method Reg Ref Data sigma defaultParamDic X LC ldeg roles
      s s' out p v w Hrun HLC Hp Hv Hw.
    apply errorfunc_evaluates in Hrun
      as (LCnew & Xt & predicted & scale & HLCnew & HXt & Hscale & Hspline & Hres).
    exists LCnew, Xt, predicted, scale.
    split; [|split; [exact HXt|split; [exact Hscale|split; [exact Hspline|exact Hres]]]].
    exact (TransformLegendreCoeffs_renormalised roles LC _ p v w LCnew
             HLC Hp Hv Hw HLCnew).
  - intros SpectrumY RefSpectrum rest initial_guess sigma cov Reg defaultParamDic
      scalepixel st st' wavl_sln popt pcov ldeg LC p v w Hrun Hdeg Hfit HLC Hp Hv Hw.
    rewrite ReCalibrate_legendre_run in Hrun.
    destruct (legendre_fit SpectrumY RefSpectrum initial_guess sigma cov Reg
                defaultParamDic rest st) as [[[[w0 p0] c0]|e] s1] eqn:Hleg;
      [|discriminate].
    inversion Hrun; subst w0 p0 s1. clear Hrun.
    apply legendre_fit_evaluates in Hleg
      as (ldeg' & LCRef & LCnew & Hdeg' & Hfit' & HLCnew & Hsln).
    rewrite Hdeg in Hdeg'. inversion Hdeg'; subst ldeg'.
    rewrite Hfit in Hfit'. inversion Hfit'; subst LCRef.
    exists LCnew. split; [|exact Hsln].
    exact (TransformLegendreCoeffs_renormalised (role_letters rest) LC _ p v w LCnew
             HLC Hp Hv Hw HLCnew).
Qed.

Lemma renormalisation_preserves_norm_witness :
  let caller : state xreal :=
    mkState {[5%positive := {[skey "w" := Fin 0]}]} ∅ [] in
  (exists out s' LCnew,
     errorfunc_tominimise (H0 := stub_numerics 0) [Fin 1; Fin 1; Fin 2] "l" (Fin 0)
       (Some [Fin 1; Fin 3; Fin 2; Fin 5; Fin 4])
       (Some [Fin 2; Fin 3; Fin 1; Fin 6; Fin 4]) None (Some 5%positive)
       (mkEf (Some [Fin 4000; Fin 5000; Fin 6000; Fin 7000; Fin 8000])
          (Some (map Fin [6000; 2000]%R)) None (Some ["p"; "v"])) caller
     = (Ok (Some out), s') /\
     renormalised_when_both ["p"; "v"] [6000; 2000]%R 1 2 0 LCnew) /\
  (exists wavl_sln popt pcov st' LCnew,
     ReCalibrateDispersionSolution (H0 := stub_numerics 0)
       [Fin 2; Fin 3; Fin 1; Fin 6; Fin 4]
       [(Fin 4000, Fin 1); (Fin 5000, Fin 3); (Fin 6000, Fin 2);
        (Fin 7000, Fin 5); (Fin 8000, Fin 4)]
       "lpv1" (Some [Fin 1; Fin 2; Fin 3]) None false (Fin 0) (Some 5%positive)
       true caller
     = (Ok (wavl_sln, popt, pcov), st') /\
     renormalised_when_both ["p"; "v"] [4000; 5000]%R 2 3 0 LCnew /\
     legval (Numerics := stub_numerics 0) (np_linspace (Numerics := stub_numerics 0) 5)
       LCnew = Some wavl_sln).
Proof.
  cbv zeta. split.
  - assert (Hrun : exists out s',
              errorfunc_tominimise (H0 := stub_numerics 0) [Fin 1; Fin 1; Fin 2] "l"
                (Fin 0) (Some [Fin 1; Fin 3; Fin 2; Fin 5; Fin 4])
                (Some [Fin 2; Fin 3; Fin 1; Fin 6; Fin 4]) None (Some 5%positive)
                (mkEf (Some [Fin 4000; Fin 5000; Fin 6000; Fin 7000; Fin 8000])
                   (Some (map Fin [6000; 2000]%R)) None (Some ["p"; "v"]))
                (mkState {[5%positive := {[skey "w" := Fin 0]}]} ∅ [])
              = (Ok (Some out), s') /\
              dict_at (role_map_at (Some 5%positive) (mkState {[5%positive := {[skey "w" := Fin 0]}]} ∅ [])) s' !! skey "p" = Some (Fin 1) /\
              dict_at (role_map_at (Some 5%positive) (mkState {[5%positive := {[skey "w" := Fin 0]}]} ∅ [])) s' !! skey "v" = Some (Fin 2) /\
              dict_at (role_map_at (Some 5%positive) (mkState {[5%positive := {[skey "w" := Fin 0]}]} ∅ [])) s' !! skey "w" = Some (Fin 0)).
    { eexists _, _. split; [vm_compute; reflexivity|].
      split; [|split]; vm_compute; reflexivity. }
    destruct Hrun as (out & s' & Hrun & Hp & Hv & Hw).
    destruct (proj1 (renormalisation_preserves_norm (H := stub_numerics 0))
                _ _ _ _ _ _ _ _ [6000; 2000]%R _ _ _ _ _ 1%R 2%R 0%R
                Hrun ltac:(discriminate) Hp Hv Hw)
      as (LCnew & _ & _ & _ & Hren & _).
    exists out, s', LCnew. split; [exact Hrun|exact Hren].
  - assert (Hrun : exists wavl_sln popt pcov st',
              ReCalibrateDispersionSolution (H0 := stub_numerics 0)
                [Fin 2; Fin 3; Fin 1; Fin 6; Fin 4]
                [(Fin 4000, Fin 1); (Fin 5000, Fin 3); (Fin 6000, Fin 2);
                 (Fin 7000, Fin 5); (Fin 8000, Fin 4)]
                "lpv1" (Some [Fin 1; Fin 2; Fin 3]) None false (Fin 0)
                (Some 5%positive) true
                (mkState {[5%positive := {[skey "w" := Fin 0]}]} ∅ [])
              = (Ok (wavl_sln, popt, pcov), st') /\
              dict_at (role_map_at (Some 5%positive) (mkState {[5%positive := {[skey "w" := Fin 0]}]} ∅ [])) st' !! skey "p" = Some (Fin 2) /\
              dict_at (role_map_at (Some 5%positive) (mkState {[5%positive := {[skey "w" := Fin 0]}]} ∅ [])) st' !! skey "v" = Some (Fin 3) /\
              dict_at (role_map_at (Some 5%positive) (mkState {[5%positive := {[skey "w" := Fin 0]}]} ∅ [])) st' !! skey "w" = Some (Fin 0)).
    { eexists _, _, _, _. split; [vm_compute; reflexivity|].
      split; [|split]; vm_compute; reflexivity. }
    destruct Hrun as (wavl_sln & popt & pcov & st' & Hrun & Hp & Hv & Hw).
    destruct (proj2 (renormalisation_preserves_norm (H := stub_numerics 0))
                _ _ "pv1" _ _ _ _ _ _ _ _ _ _ _ 1%nat [4000; 5000]%R 2%R 3%R 0%R
                Hrun eq_refl eq_refl ltac:(discriminate) Hp Hv Hw)
      as (LCnew & Hren & Hsln).
    exists wavl_sln, popt, pcov, st', LCnew.
    split; [exact Hrun|]. split; [exact Hren|exact Hsln].
Defined.

(** * Further properties of the code *)

(** ** [scale_interval_m1top1]: the interval and its degenerate case *)

(** X1.  For [a < b] the scaling sends [a] to -1, [b] to 1 and every [x] of
    the interval [a..b] into [-1..1]. *)
Theorem scale_interval_m1top1_into_unit (x a b : R) :
  (a < b)%R ->
  scale_interval_m1top1 (Fin a) (Fin a) (Fin b) false = Fin (-1) /\
  scale_interval_m1top1 (Fin b) (Fin a) (Fin b) false = Fin 1 /\
  ((a <= x <= b)%R ->
   exists y, scale_interval_m1top1 (Fin x) (Fin a) (Fin b) false = Fin y
             /\ (-1 <= y <= 1)%R).
Proof.
  intros Hab. unfold scale_interval_m1top1.
  cbn [nsub nadd nmul ndiv nZ xreal_Num xsub xadd xmul xopp].
  rewrite !xdiv_fin by lra. repeat apply conj.
  - f_equal. field. lra.
  - f_equal. field. lra.
  - intros Hx. eexists. split; [reflexivity|].
    assert (Hd : (0 < b + - a)%R) by lra.
    split.
    + apply (Rmult_le_reg_r (b + - a)); [assumption|].
      unfold Rdiv. rewrite Rmult_assoc, Rinv_l by lra. lra.
    + apply (Rmult_le_reg_r (b + - a)); [assumption|].
      unfold Rdiv. rewrite Rmult_assoc, Rinv_l by lra. lra.
Qed.

Lemma scale_interval_m1top1_into_unit_witness :
  scale_interval_m1top1 (Fin 4000) (Fin 4000) (Fin 7000) false = Fin (-1) /\
  scale_interval_m1top1 (Fin 7000) (Fin 4000) (Fin 7000) false = Fin 1 /\
  ((4000 <= 5000 <= 7000)%R ->
   exists y, scale_interval_m1top1 (Fin 5000) (Fin 4000) (Fin 7000) false = Fin y
             /\ (-1 <= y <= 1)%R).
Proof. apply scale_interval_m1top1_into_unit. lra. Defined.

(** X2.  The other way round: from [-1..1] to [a..b] and back. *)
Theorem scale_interval_m1top1_roundtrip_from_unit (y a b : R) :
  a <> b ->
  scale_interval_m1top1
    (scale_interval_m1top1 (Fin y) (Fin a) (Fin b) true)
    (Fin a) (Fin b) false = Fin y.
Proof.
  intros Hab. unfold scale_interval_m1top1.
  cbn [nsub nadd nmul ndiv nZ xreal_Num xsub xadd xmul xopp].
  rewrite xdiv_fin by lra.
  cbn [xsub xadd xmul xopp].
  rewrite xdiv_fin by lra.
  f_equal. field. lra.
Qed.

Lemma scale_interval_m1top1_roundtrip_from_unit_witness :
  scale_interval_m1top1
    (scale_interval_m1top1 (Fin 0) (Fin 4000) (Fin 7000) true)
    (Fin 4000) (Fin 7000) false = Fin 0.
Proof. apply scale_interval_m1top1_roundtrip_from_unit. lra. Defined.

(** X3.  In exact arithmetic and on numpy operands, as the driver passes
    them (plain Python floats raise [ZeroDivisionError] instead): on an
    interval of one point the scaling divides by 0 and no result is a
    finite number, while the inverse scaling returns that point whatever
    it is given. *)
Theorem scale_interval_m1top1_degenerate (x a : R) :
  ~ is_fin (scale_interval_m1top1 (Fin x) (Fin a) (Fin a) false) /\
  scale_interval_m1top1 (Fin x) (Fin a) (Fin a) true = Fin a.
Proof.
  unfold scale_interval_m1top1.
  cbn [nsub nadd nmul ndiv nZ xreal_Num xsub xadd xmul xopp]. split.
  - cbn [xdiv]. rewrite (Req_b_true (a + - a) 0) by lra.
    destruct (Req_b _ 0); [intros []|].
    destruct (Rlt_b 0 _); intros [].
  - rewrite xdiv_fin by lra. f_equal. field.
Qed.

(** ** Lines 219-223 and 348-354: the coordinates of the families [p] and [c] *)






(** X5.  With [scalepixel] set, the families [p] and [c] take the [min] of the
    reference wavelengths first: on an empty reference spectrum the call
    ends in a [ValueError], whatever follows the family letter, and no
    optimizer is entered. *)
Theorem ReCalibrate_empty_reference {A : Type} `{Num A} `{Numerics A}
    (SpectrumY : list A) (c : ascii) (rest : string)
    (initial_guess : option (list A)) (sigma : option (weights A)) (cov : bool)
    (Reg : A) (defaultParamDic : option loc) (st : state A) :
  Ascii.eqb c "p" || Ascii.eqb c "c" = true ->
  ReCalibrateDispersionSolution SpectrumY [] (String c rest)
    initial_guess sigma cov Reg defaultParamDic true st
  = (Err ValueError, st).
Proof.
  intros Hc. unfold ReCalibrateDispersionSolution. cbv zeta. rewrite Hc.
  reflexivity.
Qed.

Lemma ReCalibrate_empty_reference_witness :
  ReCalibrateDispersionSolution (H0 := stub_numerics 0) [] [] "p3"
    None None false (Fin 0) None true empty_state
  = (Err ValueError, empty_state).
Proof. apply ReCalibrate_empty_reference. reflexivity. Defined.

(** ** [TransformLegendreCoeffs]: when it returns, and what it keeps *)

Lemma LCTransformMatrixP_length {A : Type} `{Num A} (p : A) (deg : nat) :
  length (LCTransformMatrixP p deg) = S deg.
Proof.
  rewrite LCTransformMatrixP_entries. unfold TM_spec.
  rewrite length_map, length_seq. reflexivity.
Qed.

Lemma pixel_shift_length {A : Type} `{Num A} (p : A) (normP : bool) (T : list A) :
  T <> [] -> length (pixel_shift p normP T) = length T.
Proof.
  intros HT. unfold pixel_shift. cbv zeta.
  assert (E : length (np_matvec (LCTransformMatrixP p (length T - 1)) T) = length T).
  { unfold np_matvec. rewrite length_map, LCTransformMatrixP_length.
    destruct T; [congruence|simpl; lia]. }
  destruct normP; [rewrite length_map|]; exact E.
Qed.

(** X6.  [TransformLegendreCoeffs] returns exactly when [LC] is not empty and
    the role map has the three keys ['p'], ['v'] and ['w'], and then
    returns as many coefficients as it was given.  A missing ['w'] is a
    [KeyError] even for an empty [LC]; an empty [LC] is an [IndexError]
    once ['w'] is there; a missing ['p'] or ['v'] is a [KeyError]. *)
Theorem TransformLegendreCoeffs_returns {A : Type} `{Num A}
    (LC : list A) (PVWdic : gmap key A) (normP : bool) :
  let call := TransformLegendreCoeffs LC PVWdic normP in
  ((exists out, call = Ok out) <->
   LC <> [] /\ is_Some (PVWdic !! skey "p") /\ is_Some (PVWdic !! skey "v")
   /\ is_Some (PVWdic !! skey "w")) /\
  (forall out, call = Ok out -> length out = length LC) /\
  (PVWdic !! skey "w" = None -> call = Err KeyError) /\
  (is_Some (PVWdic !! skey "w") -> LC = [] -> call = Err IndexError) /\
  (is_Some (PVWdic !! skey "w") -> LC <> [] ->
   PVWdic !! skey "p" = None \/ PVWdic !! skey "v" = None -> call = Err KeyError).
Proof.
  cbv zeta. unfold TransformLegendreCoeffs, dict_get, wavl_shift.
  destruct (PVWdic !! skey "w") as [w|]; simpl.
  - destruct LC as [|c0 LC]; simpl.
    + split; [|split; [|split; [|split]]].
      * split; [intros [out E]; discriminate|intros [E _]; congruence].
      * discriminate.
      * discriminate.
      * reflexivity.
      * congruence.
    + destruct (PVWdic !! skey "p") as [p|]; simpl.
      * destruct (PVWdic !! skey "v") as [v|]; simpl.
        -- split; [|split; [|split; [|split]]].
           ++ split; [intros _|intros _; eexists; reflexivity].
              repeat split; try discriminate; eexists; reflexivity.
           ++ intros out E. inversion E; subst out. clear E.
              unfold velocity_shift, vscale. rewrite length_map.
              rewrite pixel_shift_length by discriminate. simpl.
              rewrite zip_with_same_length; [reflexivity|].
              unfold np_zeros. rewrite repeat_length. reflexivity.
           ++ discriminate.
           ++ discriminate.
           ++ intros _ _ [E|E]; discriminate.
        -- split; [|split; [|split; [|split]]];
             try discriminate; try reflexivity.
           split; [intros [out E]; discriminate|].
           intros (_ & _ & [v E] & _). discriminate.
      * split; [|split; [|split; [|split]]];
          try discriminate; try reflexivity.
        split; [intros [out E]; discriminate|].
        intros (_ & [p E] & _). discriminate.
  - split; [|split; [|split; [|split]]]; try discriminate; try reflexivity;
      try (intros [w E]; discriminate).
    split; [intros [out E]; discriminate|].
    intros (_ & _ & _ & [w E]). discriminate.
Qed.

Lemma rnorm_scale_abs (c : R) (x : list R) :
  rnorm (map (fun t => t * c)%R x) = (Rabs c * rnorm x)%R.
Proof.
  unfold rnorm, rdot. rewrite !zip_with_same_diag, map_map.
  assert (E : rsum (map (fun t => t * c * (t * c))%R x) =
              (Rsqr c * rsum (map (fun t => t * t)%R x))%R).
  { unfold Rsqr. induction x as [|a x IH]; simpl; [lra|]. rewrite IH. lra. }
  rewrite E, sqrt_mult_alt by apply Rle_0_sqr.
  rewrite sqrt_Rsqr_abs. reflexivity.
Qed.

(** X7.  With [normP] set the norm of what [TransformLegendreCoeffs] returns
    does not depend on the pixel shift [p]: it is [|1+v|] times the norm of
    the wavelength-shifted coefficients (which must not all be 0). *)
Theorem TransformLegendreCoeffs_norm_free_of_p
    (LC : list R) (d : gmap key xreal) (p v w : R) :
  LC <> [] ->
  d !! skey "p" = Some (Fin p) ->
  d !! skey "v" = Some (Fin v) ->
  d !! skey "w" = Some (Fin w) ->
  ~ all_zero (step1_wavelength w LC) ->
  exists out,
    TransformLegendreCoeffs (map Fin LC) d true = Ok (map Fin out) /\
    rnorm out = (Rabs (1 + v) * rnorm (step1_wavelength w LC))%R.
Proof.
  intros HLC Hp Hv Hw Hnz.
  rewrite (TransformLegendreCoeffs_fin LC d p v w) by assumption.
  rewrite pixel_shift_fin_normed by assumption. cbv zeta.
  rewrite velocity_shift_fin.
  set (T1 := step1_wavelength w LC) in *.
  set (T2 := step2_pixel p T1).
  eexists. split; [reflexivity|].
  unfold step4_velocity. rewrite rnorm_scale_abs. f_equal.
  assert (Hn1 : (0 < rnorm T1)%R).
  { pose proof (rnorm_nonneg T1). pose proof (rnorm_zero T1).
    destruct (Req_dec (rnorm T1) 0); [tauto|lra]. }
  assert (Hn2 : (0 < rnorm T2)%R).
  { pose proof (rnorm_nonneg T2). pose proof (rnorm_zero T2) as Hz.
    destruct (Req_dec (rnorm T2) 0) as [E|E]; [|lra].
    exfalso. apply Hnz, (step2_pixel_zero p), Hz, E. }
  rewrite rnorm_scale; [field; lra|].
  apply Rlt_le, Rdiv_lt_0_compat; assumption.
Qed.

Lemma TransformLegendreCoeffs_norm_free_of_p_witness :
  exists out,
    TransformLegendreCoeffs (map Fin [3; 4]%R) (pvw_dict (Fin 7) (Fin 1) (Fin 0)) true
      = Ok (map Fin out) /\
    rnorm out = (Rabs (1 + 1) * rnorm (step1_wavelength 0 [3; 4]%R))%R.
Proof.
  apply (TransformLegendreCoeffs_norm_free_of_p [3; 4]%R _ 7 1 0).
  - discriminate.
  - apply pvw_dict_p.
  - apply pvw_dict_v.
  - apply pvw_dict_w.
  - simpl. intros Hz. inversion Hz as [|? ? E _]. lra.
Defined.

Lemma rdot_minus (row a b : list R) :
  length a = length b ->
  rdot row (zip_with_same Rminus a b) = (rdot row a - rdot row b)%R.
Proof.
  unfold rdot. revert a b. induction row as [|r row IH]; intros a b E; simpl.
  - lra.
  - destruct a as [|x a], b as [|y b]; simpl in *; try discriminate; [lra|].
    rewrite IH by congruence. lra.
Qed.

Lemma zip_minus_zero (a b : list R) :
  length a = length b -> all_zero (zip_with_same Rminus a b) -> a = b.
Proof.
  revert b. induction a as [|x a IH]; intros [|y b] E Hz; simpl in *;
    try discriminate; [reflexivity|].
  inversion Hz as [|? ? Hxy Hrest]; subst.
  f_equal; [lra|]. apply IH; [congruence|assumption].
Qed.

(** X8.  In exact arithmetic, without [normP] the pixel shift loses
    nothing: two finite coefficient vectors of one length that it sends to
    the same vector are equal. *)
Theorem pixel_shift_injective (p : R) (a b : list R) :
  a <> [] -> length a = length b ->
  pixel_shift (Fin p) false (map Fin a) = pixel_shift (Fin p) false (map Fin b) ->
  a = b.
Proof.
  intros Ha Hlen Heq.
  assert (Hb : b <> []) by (destruct a, b; simpl in *; congruence).
  rewrite !pixel_shift_fin_plain in Heq by assumption.
  assert (E : step2_pixel p a = step2_pixel p b).
  { revert Heq. generalize (step2_pixel p a), (step2_pixel p b).
    induction l as [|x l IH]; intros [|y l'] E; simpl in *; try discriminate;
      [reflexivity|].
    inversion E. f_equal. apply IH. assumption. }
  apply zip_minus_zero; [assumption|].
  apply (step2_pixel_zero p). unfold all_zero, step2_pixel.
  rewrite zip_with_same_length by assumption.
  rewrite Forall_map. apply Forall_forall. intros i Hi. simpl.
  rewrite rdot_minus by assumption.
  unfold step2_pixel in E. rewrite <- Hlen in E.
  assert (Ei : rdot (map (TM p i) (seq 0 (length a))) a
               = rdot (map (TM p i) (seq 0 (length a))) b).
  { rewrite map_ext_in_iff in E. apply E.
    apply list_elem_of_In. exact Hi. }
  lra.
Qed.

Lemma pixel_shift_injective_witness :
  [5000; 1500]%R <> [] /\ length [5000; 1500]%R = length [5000; 1500]%R /\
  [5000; 1500]%R = [5000; 1500]%R.
Proof.
  split; [discriminate|]. split; [reflexivity|].
  apply (pixel_shift_injective 2 [5000; 1500]%R [5000; 1500]%R);
    [discriminate|reflexivity|reflexivity].
Defined.

(** ** [update_coeffs_with_defaults]: what the defaults overwrite *)

Section UpdateCoeffs.
Context {A : Type} `{Num A}.

(** The keys the loop visits are the keys of the dictionary. *)
Lemma sorted_keys_elem (d : gmap key A) (keys : list key) (k : key) :
  sorted_keys d = Ok keys -> (k ∈ keys <-> is_Some (d !! k)).
Proof.
  unfold sorted_keys. cbv zeta. intros E.
  assert (Hk : k ∈ (map_to_list d).*1 <-> is_Some (d !! k)).
  { rewrite list_elem_of_fmap. split.
    - intros ([k' v] & -> & Hin). apply elem_of_map_to_list in Hin.
      eexists. exact Hin.
    - intros [v Hv]. exists (k, v). split; [reflexivity|].
      apply elem_of_map_to_list. exact Hv. }
  rewrite <- Hk. clear Hk.
  set (ks := (map_to_list d).*1) in *.
  assert (Hint : forall z, z ∈ int_keys ks <-> ikey z ∈ ks).
  { intros z. unfold int_keys. rewrite list_elem_of_omap. split.
    - intros ([z'|s] & Hin & E'); inversion E'; subst. exact Hin.
    - intros Hin. exists (ikey z). split; [exact Hin|reflexivity]. }
  assert (Hstr : forall s, s ∈ str_keys ks <-> skey s ∈ ks).
  { intros s. unfold str_keys. rewrite list_elem_of_omap. split.
    - intros ([z|s'] & Hin & E'); inversion E'; subst. exact Hin.
    - intros Hin. exists (skey s). split; [exact Hin|reflexivity]. }
  destruct (str_keys ks) as [|s0 strs] eqn:Es.
  - assert (keys = ikey <$> merge_sort Z.le (int_keys ks))
      by (destruct (int_keys ks); inversion E; reflexivity).
    subst keys. rewrite list_elem_of_fmap. split.
    + intros (z & -> & Hz). rewrite merge_sort_Permutation in Hz.
      apply Hint. exact Hz.
    + intros Hin. destruct k as [z|s].
      * exists z. split; [reflexivity|].
        rewrite merge_sort_Permutation. apply Hint. exact Hin.
      * apply Hstr in Hin. inversion Hin.
  - destruct (int_keys ks) as [|z0 ints] eqn:Ei; [|discriminate].
    inversion E; subst keys. rewrite list_elem_of_fmap. split.
    + intros (s & -> & Hs). rewrite merge_sort_Permutation in Hs.
      apply Hstr. exact Hs.
    + intros Hin. destruct k as [z|s].
      * apply Hint in Hin. inversion Hin.
      * exists s. split; [reflexivity|].
        rewrite merge_sort_Permutation. apply Hstr. exact Hin.
Qed.

(** The loop over keys that are all positions inside [coeffs]. *)
Lemma assign_defaults_in_range (is_array : bool) (d : gmap key A)
    (keys : list key) (coeffs : list A) (st : state A) :
  (forall k, k ∈ keys ->
     is_Some (d !! k) /\
     exists z, k = ikey z /\ (0 <= z < Z.of_nat (length coeffs))%Z) ->
  exists coeffs',
    assign_defaults is_array d keys coeffs st = (Ok coeffs', st) /\
    length coeffs' = length coeffs /\
    forall j : nat,
      coeffs' !! j =
      if bool_decide (ikey (Z.of_nat j) ∈ keys)
      then d !! ikey (Z.of_nat j) else coeffs !! j.
Proof.
  revert coeffs. induction keys as [|k keys IH]; intros coeffs Hkeys.
  - exists coeffs. split; [reflexivity|]. split; [reflexivity|]. intros j.
    rewrite bool_decide_eq_false_2 by apply not_elem_of_nil. reflexivity.
  - destruct (Hkeys k (list_elem_of_here _ _)) as ([v Hv] & z & -> & Hz).
    simpl. rewrite bind_run. unfold lift, dict_get. rewrite Hv.
    unfold list_assign. cbv zeta.
    rewrite (proj2 (Z.leb_le 0 z)), (proj2 (Z.ltb_lt z _)) by lia. simpl.
    destruct (IH (<[Z.to_nat z := v]> coeffs)) as (c' & Erun & Elen & Elook).
    { intros k Hk. rewrite length_insert.
      apply Hkeys, list_elem_of_further, Hk. }
    exists c'. split; [exact Erun|]. split.
    { rewrite Elen, length_insert. reflexivity. }
    intros j. rewrite Elook.
    destruct (decide (ikey (Z.of_nat j) ∈ keys)) as [Hin|Hin].
    + rewrite !bool_decide_eq_true_2;
        [reflexivity|apply list_elem_of_further; assumption|assumption].
    + rewrite (bool_decide_eq_false_2 _ Hin).
      destruct (decide (Z.of_nat j = z)) as [<-|Hne].
      * rewrite bool_decide_eq_true_2 by apply list_elem_of_here.
        rewrite Nat2Z.id, Hv. apply list_lookup_insert_eq. lia.
      * rewrite bool_decide_eq_false_2.
        -- apply list_lookup_insert_ne. lia.
        -- intros [E|?]%elem_of_cons; [|contradiction].
           inversion E. contradiction.
Qed.

(** X9.  When every key of [defaultParamDic] is a position inside [coeffs],
    the coefficients come back with those positions overwritten by the
    defaults and the others as they were; the length is kept and nothing
    is printed or written. *)
Theorem update_coeffs_with_defaults_in_range (is_array : bool)
    (coeffs : list A) (d : gmap key A) (st : state A) :
  (forall k, is_Some (d !! k) ->
     exists z, k = ikey z /\ (0 <= z < Z.of_nat (length coeffs))%Z) ->
  exists coeffs',
    update_coeffs_with_defaults is_array coeffs (Some d) st = (Ok coeffs', st) /\
    length coeffs' = length coeffs /\
    forall j : nat,
      coeffs' !! j =
      match d !! ikey (Z.of_nat j) with
      | Some v => Some v
      | None => coeffs !! j
      end.
Proof.
  intros Hd. unfold update_coeffs_with_defaults, truthy.
  destruct (Nat.eqb_spec (size d) 0) as [E0|Hne]; simpl.
  - apply map_size_empty_inv in E0. subst d. exists coeffs.
    split; [reflexivity|]. split; [reflexivity|].
    intros j. rewrite lookup_empty. reflexivity.
  - destruct (sorted_keys d) as [keys|e] eqn:Ekeys.
    + rewrite bind_run. unfold lift.
      destruct (assign_defaults_in_range is_array d keys coeffs st)
        as (c' & Erun & Elen & Elook).
      { intros k Hk. apply (sorted_keys_elem d keys k Ekeys) in Hk.
        split; [exact Hk|apply Hd, Hk]. }
      exists c'. split; [exact Erun|]. split; [exact Elen|].
      intros j. rewrite Elook.
      destruct (d !! ikey (Z.of_nat j)) as [v|] eqn:Ej.
      * rewrite bool_decide_eq_true_2; [reflexivity|].
        apply (sorted_keys_elem d keys _ Ekeys). rewrite Ej. eexists. reflexivity.
      * rewrite bool_decide_eq_false_2; [reflexivity|].
        rewrite (sorted_keys_elem d keys _ Ekeys), Ej. intros [v E]. discriminate.
    + exfalso. unfold sorted_keys in Ekeys. cbv zeta in Ekeys.
      destruct (str_keys (map_to_list d).*1) as [|s strs] eqn:Es.
      * destruct (int_keys (map_to_list d).*1); discriminate.
      * assert (Hs : s ∈ str_keys (map_to_list d).*1)
          by (rewrite Es; apply list_elem_of_here).
        unfold str_keys in Hs. apply list_elem_of_omap in Hs as (k & Hk & Ek).
        apply list_elem_of_fmap in Hk as ([k' v] & -> & Hin).
        apply elem_of_map_to_list in Hin. simpl in Ek.
        destruct (Hd k' (ex_intro _ v Hin)) as (z & -> & _). discriminate.
Qed.
End UpdateCoeffs.

Lemma update_coeffs_with_defaults_in_range_witness :
  exists coeffs',
    update_coeffs_with_defaults false [Fin 1; Fin 2; Fin 3]
      (Some {[ikey 1 := Fin 9]}) empty_state = (Ok coeffs', empty_state) /\
    length coeffs' = length [Fin 1; Fin 2; Fin 3] /\
    forall j : nat,
      coeffs' !! j =
      match ({[ikey 1 := Fin 9]} : gmap key xreal) !! ikey (Z.of_nat j) with
      | Some v => Some v
      | None => [Fin 1; Fin 2; Fin 3] !! j
      end.
Proof.
  apply (update_coeffs_with_defaults_in_range false [Fin 1; Fin 2; Fin 3]
           {[ikey 1 := Fin 9]} empty_state).
  intros k [v Hv]. apply lookup_singleton_Some in Hv as [<- _].
  exists 1%Z. split; [reflexivity|simpl; lia].
Defined.

Section OneDefault.
Context {A : Type} `{Num A}.

Lemma sorted_keys_singleton (k : key) (v : A) : sorted_keys {[k := v]} = Ok [k].
Proof.
  unfold sorted_keys. cbv zeta. rewrite map_to_list_singleton.
  destruct k as [z|s]; reflexivity.
Qed.

(** X10.  One default, under the integer key [z], against [n] coefficients:
    inside the array it overwrites one position, counted from the end
    when [z] is negative; at [z = n] it extends the array by one; anywhere
    else the call prints its message and ends in an [IndexError]. *)
Theorem update_coeffs_with_defaults_one_default (is_array : bool)
    (coeffs : list A) (z : Z) (v : A) (st : state A) :
  let n := Z.of_nat (length coeffs) in
  let call :=
    update_coeffs_with_defaults is_array coeffs (Some {[ikey z := v]}) st in
  ((0 <= z < n)%Z -> call = (Ok (<[Z.to_nat z := v]> coeffs), st)) /\
  ((- n <= z < 0)%Z -> call = (Ok (<[Z.to_nat (n + z) := v]> coeffs), st)) /\
  (z = n -> call = (Ok (coeffs ++ [v]), st)) /\
  ((z < - n \/ n < z)%Z ->
   call = (Err IndexError,
           mkState (heap st) (globals st)
             (log st ++ [PrintMissingCoeffs (length coeffs) (ikey z)]))).
Proof.
  cbv zeta. unfold update_coeffs_with_defaults, truthy.
  rewrite map_size_singleton. simpl.
  rewrite bind_run. unfold lift. rewrite sorted_keys_singleton.
  simpl. rewrite bind_run. unfold lift, dict_get.
  rewrite lookup_singleton_eq. unfold list_assign. cbv zeta.
  split; [|split; [|split]].
  - intros Hz.
    rewrite (proj2 (Z.leb_le 0 z)), (proj2 (Z.ltb_lt z _)) by lia. reflexivity.
  - intros Hz.
    rewrite (proj2 (Z.leb_gt 0 z)) by lia. simpl.
    rewrite (proj2 (Z.leb_le _ z)), (proj2 (Z.ltb_lt z 0)) by lia. reflexivity.
  - intros ->.
    rewrite Z.ltb_irrefl, andb_false_r.
    rewrite (proj2 (Z.ltb_ge _ 0)), andb_false_r by lia.
    rewrite Z.eqb_refl. reflexivity.
  - intros Hz.
    assert (E1 : (Z.leb 0 z && Z.ltb z (Z.of_nat (length coeffs)) = false)).
    { destruct Hz; [rewrite (proj2 (Z.leb_gt 0 z)) by lia; reflexivity|].
      rewrite (proj2 (Z.ltb_ge z _)) by lia. apply andb_false_r. }
    assert (E2 : (Z.leb (- Z.of_nat (length coeffs)) z && Z.ltb z 0 = false)).
    { destruct Hz; [rewrite (proj2 (Z.leb_gt _ z)) by lia; reflexivity|].
      rewrite (proj2 (Z.ltb_ge z 0)) by lia. apply andb_false_r. }
    rewrite E1, E2.
    rewrite (proj2 (Z.eqb_neq _ z)) by lia. reflexivity.
Qed.

(** X11.  A string among the keys of [defaultParamDic] (a role map handed to
    the families [p] and [c], say): the call never returns coefficients.
    On a list it ends in a [TypeError]; on an array in a [TypeError] when
    integers are among the keys too, and in an [IndexError] otherwise. *)
Theorem update_coeffs_with_defaults_string_key (is_array : bool)
    (coeffs : list A) (d : gmap key A) (s : string) (st : state A) :
  is_Some (d !! skey s) ->
  let outcome := fst (update_coeffs_with_defaults is_array coeffs (Some d) st) in
  (is_array = false -> outcome = Err TypeError) /\
  (outcome = Err TypeError \/ outcome = Err IndexError).
Proof.
  intros Hs. cbv zeta. unfold update_coeffs_with_defaults, truthy.
  destruct (Nat.eqb_spec (size d) 0) as [E0|Hne]; simpl.
  { apply map_size_empty_inv in E0. subst d. rewrite lookup_empty in Hs.
    destruct Hs; discriminate. }
  rewrite bind_run. unfold lift.
  destruct (sorted_keys d) as [keys|e] eqn:Ekeys.
  - pose proof (fun k => sorted_keys_elem d keys k Ekeys) as Helem.
    unfold sorted_keys in Ekeys. cbv zeta in Ekeys.
    destruct (str_keys (map_to_list d).*1) as [|s0 strs] eqn:Es.
    + exfalso.
      assert (Hin : skey s ∈ keys) by (apply Helem; exact Hs).
      assert (keys = ikey <$> merge_sort Z.le (int_keys (map_to_list d).*1))
        by (destruct (int_keys _); inversion Ekeys; reflexivity).
      subst keys. apply list_elem_of_fmap in Hin as (z & E & _). discriminate.
    + destruct (int_keys (map_to_list d).*1); [|discriminate].
      inversion Ekeys as [Ek].
      destruct (merge_sort str_le (s0 :: strs)) as [|k ks] eqn:Em.
      { pose proof (merge_sort_Permutation str_le (s0 :: strs)) as Hp.
        rewrite Em in Hp. apply Permutation_nil_l in Hp. discriminate. }
      simpl in Ek. subst keys. simpl.
      destruct (proj1 (Helem (skey k)) (list_elem_of_here _ _)) as [v Hv].
      rewrite bind_run. unfold lift, dict_get. rewrite Hv.
      destruct is_array; simpl.
      * split; [discriminate|right; reflexivity].
      * split; [reflexivity|left; reflexivity].
  - unfold sorted_keys in Ekeys. cbv zeta in Ekeys.
    destruct (int_keys (map_to_list d).*1), (str_keys (map_to_list d).*1);
      inversion Ekeys; subst e.
    split; [reflexivity|left; reflexivity].
Qed.
End OneDefault.

Lemma update_coeffs_with_defaults_string_key_witness :
  let outcome :=
    fst (update_coeffs_with_defaults false [Fin 1; Fin 2]
           (Some {[skey "p" := Fin 0]}) empty_state) in
  (false = false -> outcome = Err TypeError) /\
  (outcome = Err TypeError \/ outcome = Err IndexError).
Proof.
  apply (update_coeffs_with_defaults_string_key false [Fin 1; Fin 2]
           {[skey "p" := Fin 0]} "p" empty_state).
  rewrite lookup_singleton_eq. eexists. reflexivity.
Defined.

(** ** [update_coeffs_with_defaults]: what a call that returns has done *)

Section DefaultsInPlace.
Context {A : Type} `{Num A}.

Lemma list_assign_length (coeffs coeffs' : list A) (z : Z) (v : A) :
  list_assign coeffs z v = Some coeffs' -> length coeffs' = length coeffs.
Proof.
  unfold list_assign. cbv zeta. intros E.
  destruct (_ && _); [inversion E; apply length_insert|].
  destruct (_ && _); [inversion E; apply length_insert|discriminate].
Qed.

(** A write at a position [z >= j] other than [j] leaves position [j]. *)
Lemma list_assign_other (coeffs coeffs' : list A) (z : Z) (v : A) (j : nat) :
  list_assign coeffs z v = Some coeffs' -> (Z.of_nat j < z)%Z ->
  coeffs' !! j = coeffs !! j.
Proof.
  unfold list_assign. cbv zeta. intros E Hj.
  destruct (_ && _) eqn:E1.
  - inversion E. apply andb_true_iff in E1 as [E1 _]. apply Z.leb_le in E1.
    apply list_lookup_insert_ne. intros Heq. lia.
  - destruct (Z.leb (- _) z && Z.ltb z 0) eqn:E2; [|discriminate].
    apply andb_true_iff in E2 as [_ E2]. apply Z.ltb_lt in E2. lia.
Qed.

Lemma list_assign_here (coeffs coeffs' : list A) (v : A) (j : nat) :
  list_assign coeffs (Z.of_nat j) v = Some coeffs' -> (j < length coeffs)%nat ->
  coeffs' !! j = Some v.
Proof.
  unfold list_assign. cbv zeta. intros E Hj.
  rewrite (proj2 (Z.leb_le 0 _)), (proj2 (Z.ltb_lt _ _)) in E by lia.
  inversion E. rewrite Nat2Z.id. apply list_lookup_insert_eq. exact Hj.
Qed.

(** One step of the loop, when it goes on: the key is an integer, the
    dictionary has a value under it, and the value was written inside
    [coeffs] or appended to it. *)
Lemma assign_defaults_step (is_array : bool) (d : gmap key A) (k : key)
    (keys : list key) (coeffs coeffs' : list A) (s s' : state A) :
  assign_defaults is_array d (k :: keys) coeffs s = (Ok coeffs', s') ->
  exists z v coeffs1,
    k = ikey z /\ d !! k = Some v /\
    (list_assign coeffs z v = Some coeffs1 \/
     (z = Z.of_nat (length coeffs) /\ coeffs1 = coeffs ++ [v])) /\
    assign_defaults is_array d keys coeffs1 s = (Ok coeffs', s').
Proof.
  simpl. intros E. rewrite bind_run in E. unfold lift, dict_get in E.
  destruct (d !! k) as [v|] eqn:Ev; [|discriminate].
  destruct k as [z|str].
  - exists z, v. destruct (list_assign coeffs z v) as [coeffs1|] eqn:Ea.
    + exists coeffs1. split; [reflexivity|]. split; [reflexivity|].
      split; [left; reflexivity|exact E].
    + destruct (Z.eqb_spec (Z.of_nat (length coeffs)) z) as [Ez|Hne].
      * exists (coeffs ++ [v]). split; [reflexivity|]. split; [reflexivity|].
        split; [right; split; [symmetry; exact Ez|reflexivity]|exact E].
      * rewrite bind_run in E. discriminate.
  - destruct is_array; [rewrite bind_run in E|]; discriminate.
Qed.

(** Where the loop returns it printed nothing, and the array did not
    shrink. *)
Lemma assign_defaults_grows (is_array : bool) (d : gmap key A)
    (keys : list key) (coeffs coeffs' : list A) (s s' : state A) :
  assign_defaults is_array d keys coeffs s = (Ok coeffs', s') ->
  s' = s /\ (length coeffs <= length coeffs')%nat.
Proof.
  revert coeffs. induction keys as [|k keys IH]; intros coeffs E.
  - inversion E. split; [reflexivity|lia].
  - apply assign_defaults_step in E as (z & v & c1 & _ & _ & Hc1 & E).
    apply IH in E as [-> Hlen]. split; [reflexivity|].
    destruct Hc1 as [Ha|[_ ->]].
    + apply list_assign_length in Ha. lia.
    + rewrite length_app in Hlen. simpl in Hlen. lia.
Qed.

(** A default that is in place stays in place while the keys still to
    come are not below its position. *)
Lemma assign_defaults_keeps (is_array : bool) (d : gmap key A)
    (zs : list Z) (coeffs coeffs' : list A) (s s' : state A) (j : nat) (v : A) :
  assign_defaults is_array d (ikey <$> zs) coeffs s = (Ok coeffs', s') ->
  Forall (Z.le (Z.of_nat j)) zs ->
  d !! ikey (Z.of_nat j) = Some v ->
  coeffs !! j = Some v -> coeffs' !! j = Some v.
Proof.
  revert coeffs. induction zs as [|z zs IH]; intros coeffs E Hzs Hd Hj.
  - inversion E; subst. exact Hj.
  - rewrite fmap_cons in E.
    apply assign_defaults_step in E as (z' & v' & c1 & Ez & Hv' & Hc1 & E).
    inversion Ez; subst z'. clear Ez.
    apply Forall_cons in Hzs as [Hz Hzs].
    apply (IH c1 E Hzs Hd).
    destruct (decide (z = Z.of_nat j)) as [->|Hne].
    + rewrite Hd in Hv'. inversion Hv'; subst v'.
      destruct Hc1 as [Ha|[Hlen _]].
      * apply (list_assign_here _ _ _ _ Ha). apply lookup_lt_Some in Hj. exact Hj.
      * apply lookup_lt_Some in Hj. lia.
    + destruct Hc1 as [Ha|[_ ->]].
      * rewrite (list_assign_other _ _ _ _ j Ha) by lia. exact Hj.
      * apply lookup_app_l_Some. exact Hj.
Qed.

Lemma assign_defaults_in_place (is_array : bool) (d : gmap key A)
    (zs : list Z) (coeffs coeffs' : list A) (s s' : state A) (j : nat) (v : A) :
  assign_defaults is_array d (ikey <$> zs) coeffs s = (Ok coeffs', s') ->
  StronglySorted Z.le zs ->
  Z.of_nat j ∈ zs -> (j < length coeffs)%nat ->
  d !! ikey (Z.of_nat j) = Some v ->
  coeffs' !! j = Some v.
Proof.
  revert coeffs. induction zs as [|z zs IH]; intros coeffs E Hsorted Hin Hj Hd.
  - inversion Hin.
  - apply StronglySorted_inv in Hsorted as [Hsorted Hz].
    pose proof E as E0. rewrite fmap_cons in E.
    apply assign_defaults_step in E as (z' & v' & c1 & Ez & Hv' & Hc1 & E).
    inversion Ez; subst z'. clear Ez.
    assert (Hlen : (length coeffs <= length c1)%nat).
    { destruct Hc1 as [Ha|[_ ->]].
      - apply list_assign_length in Ha. lia.
      - rewrite length_app. simpl. lia. }
    apply elem_of_cons in Hin as [Hin|Hin].
    + subst z. rewrite Hd in Hv'. inversion Hv'; subst v'.
      apply (assign_defaults_keeps _ _ _ _ _ _ _ _ _ E Hz Hd).
      destruct Hc1 as [Ha|[Hl _]]; [|lia].
      apply (list_assign_here _ _ _ _ Ha Hj).
    + apply (IH c1 E Hsorted Hin); [lia|exact Hd].
Qed.

(** A call that returns with a non-empty dictionary ran the loop over
    the keys of the dictionary, all integers, in ascending order. *)
Lemma update_coeffs_loop (is_array : bool)
    (coeffs coeffs' : list A) (d : gmap key A) (s s' : state A) :
  size d <> 0%nat ->
  update_coeffs_with_defaults is_array coeffs (Some d) s = (Ok coeffs', s') ->
  exists zs,
    StronglySorted Z.le zs /\
    (forall k, is_Some (d !! k) <-> exists z, k = ikey z /\ z ∈ zs) /\
    assign_defaults is_array d (ikey <$> zs) coeffs s = (Ok coeffs', s').
Proof.
  intros Hsize. unfold update_coeffs_with_defaults, truthy.
  rewrite (proj2 (Nat.eqb_neq _ _) Hsize). simpl.
  rewrite bind_run. unfold lift.
  destruct (sorted_keys d) as [keys|e] eqn:Ekeys; [|discriminate].
  intros E.
  pose proof (fun k => sorted_keys_elem d keys k Ekeys) as Helem.
  assert (Hkeys : keys = ikey <$> merge_sort Z.le (int_keys (map_to_list d).*1)).
  { destruct keys as [|k keys]; [exfalso|].
    - apply Hsize. apply map_size_empty_iff, map_eq. intros k. rewrite lookup_empty.
      destruct (d !! k) eqn:Ek; [|reflexivity].
      assert (Hin : k ∈ @nil key) by (apply Helem; eexists; exact Ek).
      inversion Hin.
    - pose proof E as E1.
      apply assign_defaults_step in E1 as (z & _ & _ & -> & _).
      unfold sorted_keys in Ekeys. cbv zeta in Ekeys.
      destruct (str_keys (map_to_list d).*1) as [|s0 strs].
      + destruct (int_keys (map_to_list d).*1); inversion Ekeys; reflexivity.
      + destruct (int_keys (map_to_list d).*1); [|discriminate].
        inversion Ekeys as [Ek].
        destruct (merge_sort str_le (s0 :: strs)); discriminate. }
  exists (merge_sort Z.le (int_keys (map_to_list d).*1)).
  split; [apply StronglySorted_merge_sort; [exact Z.le_trans|exact Z.le_total]|].
  split; [|rewrite <- Hkeys; exact E].
  intros k. rewrite <- Helem, Hkeys, list_elem_of_fmap. reflexivity.
Qed.

Lemma update_coeffs_in_place (is_array : bool)
    (coeffs coeffs' : list A) (d : gmap key A) (s s' : state A)
    (j : nat) (v : A) :
  update_coeffs_with_defaults is_array coeffs (Some d) s = (Ok coeffs', s') ->
  (j < length coeffs)%nat -> d !! ikey (Z.of_nat j) = Some v ->
  coeffs' !! j = Some v.
Proof.
  intros E Hj Hv.
  assert (Hsize : size d <> 0%nat).
  { intros E0. apply map_size_empty_inv in E0. subst d.
    rewrite lookup_empty in Hv. discriminate. }
  destruct (update_coeffs_loop _ _ _ _ _ _ Hsize E) as (zs & Hsorted & Hkeys & Hloop).
  apply (assign_defaults_in_place _ _ _ _ _ _ _ j v Hloop Hsorted); [|exact Hj|exact Hv].
  destruct (proj1 (Hkeys (ikey (Z.of_nat j))) (ex_intro _ v Hv)) as (z & Ez & Hz).
  inversion Ez; subst. exact Hz.
Qed.

(** X12.  Whenever [update_coeffs_with_defaults] returns, every key of
    [defaultParamDic] is an integer, nothing was printed, the array is at
    least as long as it was, and every default whose key is a position
    inside the array given is in place. *)
Theorem update_coeffs_with_defaults_on_return (is_array : bool)
    (coeffs coeffs' : list A) (d : gmap key A) (s s' : state A) :
  update_coeffs_with_defaults is_array coeffs (Some d) s = (Ok coeffs', s') ->
  s' = s /\
  (length coeffs <= length coeffs')%nat /\
  (forall k, is_Some (d !! k) -> exists z, k = ikey z) /\
  forall (j : nat) (v : A),
    (j < length coeffs)%nat -> d !! ikey (Z.of_nat j) = Some v ->
    coeffs' !! j = Some v.
Proof.
  intros E. destruct (decide (size d = 0%nat)) as [E0|Hsize].
  - apply map_size_empty_inv in E0. subst d.
    unfold update_coeffs_with_defaults, truthy in E.
    rewrite map_size_empty in E. inversion E; subst.
    split; [reflexivity|]. split; [lia|]. split.
    + intros k [v Hv]. rewrite lookup_empty in Hv. discriminate.
    + intros j v _ Hv. rewrite lookup_empty in Hv. discriminate.
  - destruct (update_coeffs_loop _ _ _ _ _ _ Hsize E)
      as (zs & Hsorted & Hkeys & Hloop).
    destruct (assign_defaults_grows _ _ _ _ _ _ _ Hloop) as [-> Hlen].
    split; [reflexivity|]. split; [exact Hlen|]. split.
    + intros k Hk. apply Hkeys in Hk as (z & -> & _). exists z. reflexivity.
    + intros j v Hj Hv.
      apply (assign_defaults_in_place _ _ _ _ _ _ _ j v Hloop Hsorted);
        [|exact Hj|exact Hv].
      destruct (proj1 (Hkeys (ikey (Z.of_nat j))) (ex_intro _ v Hv)) as (z & Ez & Hz).
      inversion Ez; subst. exact Hz.
Qed.
End DefaultsInPlace.

Lemma update_coeffs_with_defaults_on_return_witness :
  let d : gmap key xreal :=
    <[ikey 0 := Fin 9]> (<[ikey (-2) := Fin 7]> {[ikey 2 := Fin 5]}) in
  let coeffs' := [Fin 9; Fin 2; Fin 5] in
  (empty_state : state xreal) = empty_state /\
  (length [Fin 1; Fin 2] <= length coeffs')%nat /\
  (forall k, is_Some (d !! k) -> exists z, k = ikey z) /\
  forall (j : nat) (v : xreal),
    (j < length [Fin 1; Fin 2])%nat -> d !! ikey (Z.of_nat j) = Some v ->
    coeffs' !! j = Some v.
Proof.
  apply (update_coeffs_with_defaults_on_return true [Fin 1; Fin 2]
           [Fin 9; Fin 2; Fin 5]
           (<[ikey 0 := Fin 9]> (<[ikey (-2) := Fin 7]> {[ikey 2 := Fin 5]}))
           empty_state empty_state).
  vm_compute. reflexivity.
Defined.

(** ** The families [p], [c], [v] and [x] write nothing *)

Lemma store_unchanged_refl {A : Type} (s : state A) : store_unchanged s s.
Proof. split; reflexivity. Qed.

Lemma store_unchanged_trans {A : Type} (s1 s2 s3 : state A) :
  store_unchanged s1 s2 -> store_unchanged s2 s3 -> store_unchanged s1 s3.
Proof. intros [H1 G1] [H2 G2]. split; congruence. Qed.

Lemma store_unchanged_log {A : Type} (s : state A) (ev : event) :
  store_unchanged s (mkState (heap s) (globals s) (log s ++ [ev])).
Proof. split; reflexivity. Qed.

(** One step of a proof that a computation respects [store_unchanged]. *)
Ltac unchanged_step :=
  cbv beta;
  lazymatch goal with
  | |- respects _ (mret _ ≫= _) => apply respects_bind_ret
  | |- respects _ (lift _ ≫= _) =>
      apply respects_bind_lift; [apply store_unchanged_refl|intros ? _]
  | |- respects _ (_ ≫= _) =>
      apply respects_bind; [apply store_unchanged_trans| |intros ?]
  | |- respects _ (mret _) => apply respects_ret, store_unchanged_refl
  | |- respects _ (raise _) => apply respects_raise, store_unchanged_refl
  | |- respects _ (lift _) => apply respects_lift, store_unchanged_refl
  | |- respects _ (library _ _) => apply respects_library, store_unchanged_refl
  | |- respects _ (deref _) => apply respects_deref, store_unchanged_refl
  | |- respects _ (global_name _) => apply respects_global_name, store_unchanged_refl
  | |- respects _ (emit _) => apply respects_emit, store_unchanged_log
  | |- respects _ (run_strategy _ _ _) =>
      apply respects_run_strategy;
      [apply store_unchanged_refl|apply store_unchanged_trans|intros ?]
  | |- respects _ (match ?x with _ => _ end) => destruct x
  end.

Section NothingWritten.
Context {A : Type} `{Num A} `{Numerics A}.

Lemma assign_defaults_unchanged (is_array : bool) (d : gmap key A)
    (keys : list key) (coeffs : list A) :
  respects store_unchanged (assign_defaults is_array d keys coeffs).
Proof.
  revert coeffs. induction keys as [|k keys IH]; intros coeffs; simpl.
  - apply respects_ret, store_unchanged_refl.
  - repeat first [apply IH | unchanged_step].
Qed.

Lemma update_coeffs_unchanged (is_array : bool) (coeffs : list A)
    (dic : option (gmap key A)) :
  respects store_unchanged (update_coeffs_with_defaults is_array coeffs dic).
Proof.
  unfold update_coeffs_with_defaults.
  repeat first [apply assign_defaults_unchanged | unchanged_step].
Qed.

Lemma transformed_spectrum_unchanged (FluxSpec params : list A)
    (kwargs : ts_kwargs A) :
  respects store_unchanged (transformed_spectrum FluxSpec params kwargs).
Proof.
  unfold transformed_spectrum, read_defaults. cbv zeta.
  repeat first [apply update_coeffs_unchanged | unchanged_step].
Qed.

Lemma scale_wavl_unchanged (RefSpectrum : list (A * A)) (inverse_scale : bool)
    (x : list A) :
  respects store_unchanged (scale_wavl RefSpectrum inverse_scale x).
Proof. unfold scale_wavl. repeat unchanged_step. Qed.

Lemma series_fit_unchanged (SpectrumY : list A) (RefSpectrum : list (A * A))
    (initial_guess : option (list A)) (sigma : option (weights A))
    (defaultParamDic : option loc) (basis : string)
    (evaluate : list A -> list A -> option (list A)) (rest : string)
    (scaledWavl : option (list A)) :
  respects store_unchanged
    (series_fit SpectrumY RefSpectrum initial_guess sigma defaultParamDic
       basis evaluate rest scaledWavl).
Proof.
  unfold series_fit, read_defaults, as_array. cbv zeta.
  repeat first [apply update_coeffs_unchanged
               |apply transformed_spectrum_unchanged
               |unchanged_step].
Qed.

Lemma velocity_fit_unchanged (SpectrumY : list A) (RefSpectrum : list (A * A))
    (initial_guess : option (list A)) (sigma : option (weights A))
    (defaultParamDic : option loc) :
  respects store_unchanged
    (velocity_fit SpectrumY RefSpectrum initial_guess sigma defaultParamDic).
Proof.
  unfold velocity_fit, as_array. cbv zeta.
  repeat first [apply transformed_spectrum_unchanged | unchanged_step].
Qed.

Lemma velocity_pixel_fit_unchanged (SpectrumY : list A) (RefSpectrum : list (A * A))
    (initial_guess : option (list A)) (sigma : option (weights A))
    (defaultParamDic : option loc) :
  respects store_unchanged
    (velocity_pixel_fit SpectrumY RefSpectrum initial_guess sigma defaultParamDic).
Proof.
  unfold velocity_pixel_fit, as_array. cbv zeta.
  repeat first [apply transformed_spectrum_unchanged | unchanged_step].
Qed.

Lemma ReCalibrate_unchanged (SpectrumY : list A) (RefSpectrum : list (A * A))
    (c : ascii) (rest : string) (initial_guess : option (list A))
    (sigma : option (weights A)) (cov : bool) (Reg : A)
    (defaultParamDic : option loc) (scalepixel : bool) :
  Ascii.eqb c "l" = false ->
  respects store_unchanged
    (ReCalibrateDispersionSolution SpectrumY RefSpectrum (String c rest)
       initial_guess sigma cov Reg defaultParamDic scalepixel).
Proof.
  intros Hc. unfold ReCalibrateDispersionSolution. cbv zeta. rewrite Hc.
  repeat first [apply scale_wavl_unchanged
               |apply series_fit_unchanged
               |apply velocity_fit_unchanged
               |apply velocity_pixel_fit_unchanged
               |unchanged_step].
Qed.
End NothingWritten.

(** X13.  Outside the family [l] the driver writes no dictionary and no
    module-level name, whatever the arguments and however the call ends:
    a [defaultParamDic] given to the families [p], [c], [v] and [x] is
    only read, and so is it by [transformed_spectrum] under the
    optimizer. *)
Theorem ReCalibrate_writes_only_in_family_l {A : Type} `{Num A} `{Numerics A}
    (SpectrumY : list A) (RefSpectrum : list (A * A))
    (c : ascii) (rest : string) (initial_guess : option (list A))
    (sigma : option (weights A)) (cov : bool) (Reg : A)
    (defaultParamDic : option loc) (scalepixel : bool) (st : state A) :
  Ascii.eqb c "l" = false ->
  let st' :=
    snd (ReCalibrateDispersionSolution SpectrumY RefSpectrum (String c rest)
           initial_guess sigma cov Reg defaultParamDic scalepixel st) in
  heap st' = heap st /\ globals st' = globals st.
Proof.
  intros Hc. cbv zeta.
  destruct (ReCalibrateDispersionSolution _ _ _ _ _ _ _ _ _ st) as [r st'] eqn:E.
  exact (ReCalibrate_unchanged _ _ _ _ _ _ _ _ _ _ Hc _ _ _ E).
Qed.

Module NothingWrittenRuns.
Import PrimFloat Samples.

Lemma ReCalibrate_writes_only_in_family_l_witness :
  let st' :=
    snd (ReCalibrateDispersionSolution (H0 := stub_numerics 0)
           [1; 3; 2; 5]%float [(4000, 1); (5000, 3); (6000, 2); (7000, 5)]%float
           "p1" None None false 0%float (Some 5%positive) true caller_state) in
  heap st' = heap caller_state /\ globals st' = globals caller_state.
Proof.
  apply (ReCalibrate_writes_only_in_family_l (H0 := stub_numerics 0)
           [1; 3; 2; 5]%float [(4000, 1); (5000, 3); (6000, 2); (7000, 5)]%float
           "p" "1" None None false 0%float (Some 5%positive) true caller_state).
  reflexivity.
Defined.
End NothingWrittenRuns.

(** ** The family [l] without a [defaultParamDic] *)

Section FreshRoleMap.
Context {A : Type} `{Num A} `{Numerics A}.

(** Without a [defaultParamDic] the fit runs as it would on a dictionary
    [{'v':0,'p':0,'w':0}] newly made by the caller. *)
Lemma legendre_fit_fresh (SpectrumY : list A) (RefSpectrum : list (A * A))
    (initial_guess : option (list A)) (sigma : option (weights A)) (cov : bool)
    (Reg : A) (rest : string) (s : state A) :
  let l := fresh (dom (heap s)) in
  legendre_fit SpectrumY RefSpectrum initial_guess sigma cov Reg None rest s =
  legendre_fit SpectrumY RefSpectrum initial_guess sigma cov Reg (Some l) rest
    (mkState (<[l := pvw_dict (nZ 0) (nZ 0) (nZ 0)]> (heap s)) (globals s) (log s)).
Proof.
  cbv zeta. unfold legendre_fit. rewrite !bind_run. reflexivity.
Qed.
End FreshRoleMap.

(** X14.  With a method of the family [l] and no [defaultParamDic], the call
    works on a dictionary of its own: however it ends, every dictionary
    that existed before is as it was, and so is every module-level name. *)
Theorem ReCalibrate_own_role_map {A : Type} `{Num A} `{Numerics A}
    (SpectrumY : list A) (RefSpectrum : list (A * A)) (rest : string)
    (initial_guess : option (list A)) (sigma : option (weights A)) (cov : bool)
    (Reg : A) (scalepixel : bool) (st : state A) :
  let st' :=
    snd (ReCalibrateDispersionSolution SpectrumY RefSpectrum (String "l" rest)
           initial_guess sigma cov Reg None scalepixel st) in
  globals st' = globals st /\
  forall l (d : gmap key A), heap st !! l = Some d -> heap st' !! l = Some d.
Proof.
  cbv zeta. rewrite ReCalibrate_legendre_run, legendre_fit_fresh. cbv zeta.
  set (l0 := fresh (dom (heap st))).
  set (s1 := mkState _ _ _).
  destruct (legendre_fit SpectrumY RefSpectrum initial_guess sigma cov Reg
              (Some l0) rest s1) as [r s'] eqn:Hfit.
  pose proof (legendre_fit_only_roles _ _ _ _ _ _ _ _ _ _ _ Hfit)
    as (Hglob & Hframe & _ & _).
  assert (Hgoal : globals s' = globals st /\
            forall l (d : gmap key A), heap st !! l = Some d -> heap s' !! l = Some d).
  { split; [exact Hglob|]. intros l d Hd.
    assert (Hl : l <> l0).
    { intros ->. apply (is_fresh (dom (heap st))). apply elem_of_dom.
      eexists. exact Hd. }
    rewrite (Hframe l Hl). unfold s1. simpl.
    rewrite lookup_insert_ne by congruence. exact Hd. }
  destruct r as [[[w p] c]|e]; exact Hgoal.
Qed.

(** ** The families [p] and [c]: the defaults inside [popt] *)

Section DefaultsInPopt.
Context {A : Type} `{Num A} `{Numerics A}.

(** [popt[1:]] is a view of [popt]: the defaults written to the
    coefficients are written to [popt]. *)
Lemma series_fit_popt (SpectrumY : list A) (RefSpectrum : list (A * A))
    (initial_guess : option (list A)) (sigma : option (weights A))
    (l : loc) (d : gmap key A) (basis : string)
    (evaluate : list A -> list A -> option (list A)) (rest : string)
    (scaledWavl : option (list A)) (s s' : state A)
    (wavl popt : list A) (pcov : option (list (list A))) :
  heap s !! l = Some d ->
  series_fit SpectrumY RefSpectrum initial_guess sigma (Some l)
    basis evaluate rest scaledWavl s = (Ok (wavl, popt, pcov), s') ->
  forall (j : nat) (v : A),
    d !! ikey (Z.of_nat j) = Some v -> (S j < length popt)%nat ->
    popt !! S j = Some v.
Proof.
  intros Hd Hrun j v Hv Hj. unfold series_fit in Hrun. cbv zeta in Hrun.
  apply bind_ok in Hrun as (deg & s1 & Hdeg & Hrun).
  apply lift_ok in Hdeg as [_ ->].
  apply bind_ok in Hrun as (sw & s1 & Hsw & Hrun).
  apply lift_ok in Hsw as [_ ->].
  apply bind_ok in Hrun as (u & s1 & Hemit & Hrun).
  apply emit_ok in Hemit. subst s1.
  apply bind_ok in Hrun as ([popt0 pcov0] & s2 & Hfit & Hrun).
  assert (Hheap : heap s2 = heap s).
  { refine (proj1 (respects_run_strategy store_unchanged store_unchanged_refl
                     store_unchanged_trans _ _ _ _ _ _ _ Hfit)).
    intros x. unfold as_array.
    apply respects_bind; [apply store_unchanged_trans| |intros [y|]].
    - apply transformed_spectrum_unchanged.
    - apply respects_ret, store_unchanged_refl.
    - apply respects_raise, store_unchanged_refl. }
  set (popt1 := if Nat.ltb deg 1 then popt0 ++ [nZ 1] else popt0) in Hrun.
  apply bind_ok in Hrun as (dic & s3 & Hdic & Hrun).
  unfold read_defaults in Hdic.
  apply bind_ok in Hdic as (d' & s4 & Hderef & Hdic).
  apply deref_ok in Hderef as [-> ->].
  apply ret_ok in Hdic as [-> ->].
  unfold dict_at in Hrun. rewrite Hheap, Hd in Hrun. simpl in Hrun.
  apply bind_ok in Hrun as (coeffs' & s3 & Hupd & Hrun).
  apply bind_ok in Hrun as (w & s4 & _ & Hrun).
  apply ret_ok in Hrun as [E _]. inversion E; subst wavl popt pcov. clear E.
  destruct popt1 as [|scale coeffs]; [simpl in Hj; lia|].
  simpl in Hj, Hupd |- *.
  rewrite length_take in Hj.
  rewrite lookup_take_lt by lia.
  destruct (Nat.eqb (size d) 0) eqn:Esize; simpl in Hupd.
  - apply Nat.eqb_eq, map_size_empty_inv in Esize. subst d.
    rewrite lookup_empty in Hv. discriminate.
  - assert (Hupd' : update_coeffs_with_defaults true coeffs (Some d) s2
                    = (Ok coeffs', s3)).
    { unfold update_coeffs_with_defaults, truthy. rewrite Esize. exact Hupd. }
    apply (update_coeffs_in_place _ _ _ _ _ _ j v Hupd'); [lia|exact Hv].
Qed.
End DefaultsInPopt.

(** X15.  With a method of the family [p] or [c] and a caller-supplied
    [defaultParamDic], the [popt] of a call that returns holds, at
    position [j+1], the default under the key [j], for every such key
    inside it: not the value the optimizer came to. *)
Theorem ReCalibrate_popt_holds_defaults {A : Type} `{Num A} `{Numerics A}
    (SpectrumY : list A) (RefSpectrum : list (A * A)) (c : ascii) (rest : string)
    (initial_guess : option (list A)) (sigma : option (weights A)) (cov : bool)
    (Reg : A) (l : loc) (scalepixel : bool) (d : gmap key A)
    (st st' : state A) (wavl_sln popt : list A) (pcov : option (list (list A))) :
  Ascii.eqb c "p" || Ascii.eqb c "c" = true ->
  heap st !! l = Some d ->
  ReCalibrateDispersionSolution SpectrumY RefSpectrum (String c rest)
    initial_guess sigma cov Reg (Some l) scalepixel st
  = (Ok (wavl_sln, popt, pcov), st') ->
  forall (j : nat) (v : A),
    d !! ikey (Z.of_nat j) = Some v -> (S j < length popt)%nat ->
    popt !! S j = Some v.
Proof.
  intros Hc Hd Hrun. unfold ReCalibrateDispersionSolution in Hrun.
  cbv zeta in Hrun. rewrite Hc in Hrun.
  apply bind_ok in Hrun as (sw & s1 & Hsw & Hrun).
  assert (Hs1 : heap s1 = heap st).
  { refine (proj1 (_ : store_unchanged st s1)).
    destruct scalepixel.
    - apply bind_ok in Hsw as (x & s2 & Hx & Hsw).
      apply ret_ok in Hsw as [_ ->].
      exact (scale_wavl_unchanged _ _ _ _ _ _ Hx).
    - apply ret_ok in Hsw as [_ ->]. apply store_unchanged_refl. }
  apply bind_ok in Hrun as ([[w p] pc] & s2 & Hfit & Hrun).
  assert (Hp : popt = p).
  { apply bind_ok in Hrun as (w' & s3 & _ & Hrun).
    apply ret_ok in Hrun as [E _]. inversion E. reflexivity. }
  subst p. rewrite <- Hs1 in Hd.
  assert (Hl : Ascii.eqb c "l" = false /\ Ascii.eqb c "v" = false /\
               Ascii.eqb c "x" = false).
  { apply orb_true_iff in Hc as [Hc|Hc]; apply Ascii.eqb_eq in Hc; subst c;
      repeat split; reflexivity. }
  destruct Hl as (Hl & Hv & Hx). rewrite Hl, Hv, Hx in Hfit.
  destruct (Ascii.eqb c "p" && str_isdigit rest).
  { exact (series_fit_popt _ _ _ _ _ _ _ _ _ _ _ _ _ _ _ Hd Hfit). }
  destruct (Ascii.eqb c "c" && str_isdigit rest).
  { exact (series_fit_popt _ _ _ _ _ _ _ _ _ _ _ _ _ _ _ Hd Hfit). }
  discriminate.
Qed.

Module DefaultsInPoptRuns.
Import PrimFloat.

Lemma ReCalibrate_popt_holds_defaults_witness :
  exists wavl_sln pcov st',
    ReCalibrateDispersionSolution (H0 := stub_numerics 0)
      [1; 3; 2; 5]%float [(4000, 1); (5000, 3); (6000, 2); (7000, 5)]%float
      "p1" None None false 0%float (Some 5%positive) true
      (mkState {[5%positive := {[ikey 0 := 7%float]}]} ∅ [])
    = (Ok (wavl_sln, [1; 7; 1]%float, pcov), st') /\
    [1; 7; 1]%float !! 1%nat = Some 7%float.
Proof.
  eexists _, _, _. split; [vm_compute; reflexivity|].
  eapply (ReCalibrate_popt_holds_defaults (H0 := stub_numerics 0)
            [1; 3; 2; 5]%float [(4000, 1); (5000, 3); (6000, 2); (7000, 5)]%float
            "p" "1" None None false 0%float 5%positive true
            {[ikey 0 := 7%float]}
            (mkState {[5%positive := {[ikey 0 := 7%float]}]} ∅ [])).
  - reflexivity.
  - vm_compute. reflexivity.
  - vm_compute. reflexivity.
  - vm_compute. reflexivity.
  - simpl. lia.
Defined.
End DefaultsInPoptRuns.

(** ** The family [l]: a letter that is no role *)

Section UnknownRole.
Context {A : Type} `{Num A}.

Lemma py_int_error (s : string) (e : exn) : py_int s = Err e -> e = ValueError.
Proof.
  unfold py_int. destruct s as [|c s]; [intros E; inversion E; reflexivity|].
  generalize 0%nat. generalize (String c s). clear c s.
  induction s as [|c s IH]; intros acc E; simpl in E; [discriminate|].
  destruct (is_decimal c); [exact (IH _ E)|inversion E; reflexivity].
Qed.

(** A table with the keys [v], [p] and [w] only. *)
Lemma map_result_KeyError (f : string -> result A) (roles : list string) (s : string) :
  (forall r, f r = Err KeyError \/ exists x, f r = Ok x) ->
  s ∈ roles -> f s = Err KeyError ->
  map_result f roles = Err KeyError.
Proof.
  intros Hf Hin Hs. induction roles as [|r roles IH]; [inversion Hin|].
  simpl. destruct (Hf r) as [E|[x E]]; rewrite E; [reflexivity|]. simpl.
  apply elem_of_cons in Hin as [->|Hin]; [congruence|].
  rewrite (IH Hin). reflexivity.
Qed.

Lemma Initp_cases (r : string) : Initp r = Err KeyError \/ exists x : A, Initp r = Ok x.
Proof.
  unfold Initp. repeat (destruct (String.eqb r _); [right; eexists; reflexivity|]).
  left. reflexivity.
Qed.

Lemma x_scaledic_cases (r : string) :
  x_scaledic r = Err KeyError \/ exists x : A, x_scaledic r = Ok x.
Proof.
  unfold x_scaledic. repeat (destruct (String.eqb r _); [right; eexists; reflexivity|]).
  left. reflexivity.
Qed.

Lemma no_role_KeyError (s : string) :
  s <> "v" -> s <> "p" -> s <> "w" ->
  Initp s = Err KeyError /\ x_scaledic s = Err KeyError.
Proof.
  intros Hv Hp Hw. unfold Initp, x_scaledic.
  rewrite (proj2 (String.eqb_neq s "v") Hv), (proj2 (String.eqb_neq s "p") Hp),
    (proj2 (String.eqb_neq s "w") Hw).
  split; reflexivity.
Qed.
End UnknownRole.

(** X16.  With a method of the family [l] that has, after the [l], a character
    that is neither a digit nor one of [p], [v], [w], the call raises
    before the optimizer is entered and prints nothing: a [ValueError]
    where the digits make no integer, else what [legfit] raises, else a
    [KeyError] from the table of initial values or of scales.  A
    caller's [defaultParamDic] is left as it was. *)
Theorem ReCalibrate_legendre_unknown_role {A : Type} `{Num A} `{Numerics A}
    (SpectrumY : list A) (RefSpectrum : list (A * A)) (rest : string)
    (initial_guess : option (list A)) (sigma : option (weights A)) (cov : bool)
    (Reg : A) (l : loc) (scalepixel : bool) (s : string) (st : state A) :
  s ∈ role_letters rest -> s <> "v" -> s <> "p" -> s <> "w" ->
  ReCalibrateDispersionSolution SpectrumY RefSpectrum (String "l" rest)
    initial_guess sigma cov Reg (Some l) scalepixel st
  = (Err match py_int (digit_letters rest) with
         | Err _ => ValueError
         | Ok ldeg =>
             match legfit (np_linspace (length RefSpectrum)) (map fst RefSpectrum)
                     (Z.of_nat ldeg) with
             | None => LibraryError "legfit"
             | Some _ => KeyError
             end
         end, st).
Proof.
  intros Hin Hv Hp Hw.
  destruct (no_role_KeyError (A := A) s Hv Hp Hw) as [Hinit Hscale].
  rewrite ReCalibrate_legendre_run. unfold legendre_fit, role_map.
  rewrite bind_run. simpl. rewrite bind_run. unfold lift.
  destruct (py_int (digit_letters rest)) as [ldeg|e] eqn:Eint.
  2:{ apply py_int_error in Eint. subst e. reflexivity. }
  rewrite bind_run. unfold library. rewrite length_map.
  destruct (legfit _ _ _) as [LCRef|]; [|reflexivity].
  rewrite bind_run.
  destruct initial_guess as [guess|].
  - simpl. rewrite bind_run. unfold lift.
    rewrite (map_result_KeyError x_scaledic _ s x_scaledic_cases Hin Hscale).
    reflexivity.
  - rewrite bind_run. unfold lift.
    rewrite (map_result_KeyError Initp _ s Initp_cases Hin Hinit).
    reflexivity.
Qed.

Module UnknownRoleRuns.
Import PrimFloat Samples.

Lemma ReCalibrate_legendre_unknown_role_witness :
  ReCalibrateDispersionSolution (H0 := stub_numerics 0)
    [1; 3; 2; 5]%float [(4000, 1); (5000, 3); (6000, 2); (7000, 5)]%float
    "lpq2" None None false 0%float (Some 5%positive) true caller_state
  = (Err KeyError, caller_state).
Proof.
  apply (ReCalibrate_legendre_unknown_role (H0 := stub_numerics 0)
           [1; 3; 2; 5]%float [(4000, 1); (5000, 3); (6000, 2); (7000, 5)]%float
           "pq2" None None false 0%float 5%positive true "q" caller_state).
  - vm_compute. apply list_elem_of_further, list_elem_of_here.
  - discriminate.
  - discriminate.
  - discriminate.
Defined.
End UnknownRoleRuns.

(** ** [errorfunc_tominimise]: the trial parameters in the caller's dictionary *)

Section TrialParameters.
Context {A : Type} `{Num A} `{Numerics A}.

Lemma errorfunc_ok (l : loc) (paramstring : list string)
    (params : list A) (method : string) (Reg : A)
    (RefSpectrum DataToFit : option (list A)) (sigma : option (weights A))
    (WavlCoords LCRef : option (list A)) (ldeg : option Z)
    (s s' : state A) (out : list A) :
  errorfunc_tominimise params method Reg RefSpectrum DataToFit sigma (Some l)
    (mkEf WavlCoords LCRef ldeg (Some paramstring)) s = (Ok (Some out), s') ->
  method = "l" /\
  exists s2, store_roles l paramstring (tail params) s2 = (Ok tt, s').
Proof.
  unfold errorfunc_tominimise. intros Hrun.
  apply bind_ok in Hrun as (scale & s1 & Hscale & Hrun).
  apply lift_ok in Hscale as [_ ->].
  apply bind_ok in Hrun as (Ref & s1 & HRef & Hrun).
  apply lift_ok in HRef as [_ ->].
  destruct (String.eqb_spec method "l") as [->|Hne].
  2:{ apply bind_ok in Hrun as (u & s1 & _ & Hrun).
      apply ret_ok in Hrun as [E _]. discriminate. }
  split; [reflexivity|].
  apply bind_ok in Hrun as (Predicted & s1 & Hpred & Hrun).
  apply bind_ok in Hrun as (res & s2 & Hres & Hrun).
  apply lift_ok in Hres as [_ ->].
  apply ret_ok in Hrun as [_ ->].
  unfold predicted_spectrum, role_map in Hpred. cbv zeta in Hpred. simpl in Hpred.
  apply bind_ok in Hpred as ([LC X] & s2 & _ & Hpred).
  apply bind_ok in Hpred as (roles & s3 & Hroles & Hpred).
  apply lift_ok in Hroles as [Er ->]. inversion Er; subst roles. clear Er.
  apply bind_ok in Hpred as (l' & s3 & Hl & Hpred).
  apply ret_ok in Hl as [-> ->].
  apply bind_ok in Hpred as ([] & s3 & Hstore & Hpred).
  apply bind_ok in Hpred as (LC' & s4 & HLC & Hpred).
  apply lift_ok in HLC as [_ ->].
  apply bind_ok in Hpred as (d & s4 & Hd & Hpred).
  apply deref_ok in Hd as [_ ->].
  apply bind_ok in Hpred as (LCnew & s4 & HLCnew & Hpred).
  apply lift_ok in HLCnew as [_ ->].
  apply bind_ok in Hpred as (Xt & s4 & HXt & Hpred).
  apply library_ok in HXt as [_ ->].
  apply bind_ok in Hpred as (Xo & s4 & HXo & Hpred).
  apply lift_ok in HXo as [_ ->].
  apply library_ok in Hpred as [_ ->].
  exists s2. exact Hstore.
Qed.
End TrialParameters.

(** X17.  Every evaluation of [errorfunc_tominimise] that returns a residual
    vector has written its trial parameters into the [defaultParamDic]
    it was given: [params[i+1]] under the role at position [i] of
    [paramstofit] (the last one, should a role be repeated).  The other
    entries of that dictionary, the other dictionaries and the
    module-level names are as they were. *)
Theorem errorfunc_tominimise_records_trial {A : Type} `{Num A} `{Numerics A}
    (l : loc) (paramstring : list string)
    (params : list A) (method : string) (Reg : A)
    (RefSpectrum DataToFit : option (list A)) (sigma : option (weights A))
    (WavlCoords LCRef : option (list A)) (ldeg : option Z)
    (s s' : state A) (out : list A) :
  errorfunc_tominimise params method Reg RefSpectrum DataToFit sigma (Some l)
    (mkEf WavlCoords LCRef ldeg (Some paramstring)) s = (Ok (Some out), s') ->
  (forall (i : nat) (r : string),
     paramstring !! i = Some r -> r ∉ drop (S i) paramstring ->
     is_Some (params !! S i) /\ dict_at l s' !! skey r = params !! S i) /\
  (forall k, k ∉ skey <$> paramstring -> dict_at l s' !! k = dict_at l s !! k) /\
  (forall l', l' <> l -> heap s' !! l' = heap s !! l') /\
  globals s' = globals s.
Proof.
  intros Hrun.
  pose proof (errorfunc_only_roles _ _ _ _ _ _ _ _ _ _ _ _ _ _ Hrun)
    as (Hglob & Hframe & _ & Hkeep).
  apply errorfunc_ok in Hrun as (_ & s2 & Hstore).
  split; [|split; [exact Hkeep|split; [exact Hframe|exact Hglob]]].
  intros i r Hi Hlast.
  destruct (store_roles_values _ _ _ _ _ Hstore i r Hi Hlast) as [Hv Hs].
  destruct params as [|scale shifts]; [destruct Hs; discriminate|].
  split; [exact Hs|exact Hv].
Qed.

Module TrialParametersRuns.
Import PrimFloat Samples.

Lemma errorfunc_tominimise_records_trial_witness :
  exists out s',
    errorfunc_tominimise (H0 := stub_numerics 0) [1; 0.5; 0.25]%float "l" 0%float
      (Some [1; 3; 2; 5]%float) (Some [1; 3; 2; 5]%float) None (Some 5%positive)
      (mkEf (Some [4000; 5000; 6000; 7000]%float) (Some [5500; 1500]%float) None
         (Some ["p"; "v"])) caller_state
    = (Ok (Some out), s') /\
    dict_at 5%positive s' !! skey "v" = Some 0.25%float /\
    dict_at 5%positive s' !! skey "q" = Some 9%float.
Proof.
  eexists _, _. split; [vm_compute; reflexivity|].
  edestruct (errorfunc_tominimise_records_trial (H0 := stub_numerics 0)
               5%positive ["p"; "v"] [1; 0.5; 0.25]%float "l" 0%float
               (Some [1; 3; 2; 5]%float) (Some [1; 3; 2; 5]%float) None
               (Some [4000; 5000; 6000; 7000]%float) (Some [5500; 1500]%float) None
               caller_state) as (Hroles & Hkeep & _ & _).
  - vm_compute. reflexivity.
  - split.
    + refine (proj2 (Hroles 1%nat "v" eq_refl _)).
      simpl. apply not_elem_of_nil.
    + rewrite Hkeep; [vm_compute; reflexivity|].
      vm_compute. intros Hin.
      apply elem_of_cons in Hin as [E|Hin]; [discriminate|].
      apply elem_of_cons in Hin as [E|Hin]; [discriminate|inversion Hin].
Defined.
End TrialParametersRuns.

(** ** A method the two model functions do not implement *)

(** X18.  [transformed_spectrum] with a [method] other than [p], [c], [v] and
    [x] never returns a spectrum and raises nothing of its own: with
    parameters and without defaults it prints its message and returns
    [None], leaving the dictionaries and module-level names alone. *)
Theorem transformed_spectrum_unknown_method {A : Type} `{Num A} `{Numerics A}
    (FluxSpec params : list A) (WavlCoords : option (list A)) (method : string)
    (defaultParamDic : option loc) (s : state A) :
  method <> "p" -> method <> "c" -> method <> "v" -> method <> "x" ->
  let run :=
    transformed_spectrum FluxSpec params
      (mkTs WavlCoords (Some method) defaultParamDic) in
  (forall y, fst (run s) <> Ok (Some y)) /\
  (params <> [] -> defaultParamDic = None ->
   run s = (Ok None, with_log (log s ++ [PrintNotImplemented method]) s)).
Proof.
  intros Hp Hc Hv Hx. cbv zeta. unfold transformed_spectrum. cbv zeta. simpl.
  rewrite (proj2 (String.eqb_neq method "p") Hp),
    (proj2 (String.eqb_neq method "c") Hc),
    (proj2 (String.eqb_neq method "v") Hv),
    (proj2 (String.eqb_neq method "x") Hx).
  split.
  - intros y Hy.
    match type of Hy with fst (?m s) = _ => destruct (m s) as [r s'] eqn:Hrun end.
    simpl in Hy. subst r.
    apply bind_ok in Hrun as (scale & s1 & _ & Hrun).
    apply bind_ok in Hrun as (dic & s2 & _ & Hrun).
    apply bind_ok in Hrun as (coeffs & s3 & _ & Hrun).
    apply bind_ok in Hrun as (u & s4 & _ & Hrun).
    apply ret_ok in Hrun as [E _]. discriminate.
  - intros Hparams ->. destruct params as [|scale shifts]; [contradiction|].
    reflexivity.
Qed.

Lemma transformed_spectrum_unknown_method_witness :
  let run :=
    transformed_spectrum (H0 := stub_numerics 0) [Fin 1; Fin 3] [Fin 1; Fin 0]
      (mkTs None (Some "l") None) in
  (forall y, fst (run (@empty_state xreal)) <> Ok (Some y)) /\
  ([Fin 1; Fin 0] <> [] -> @None loc = None ->
   run (@empty_state xreal)
   = (Ok None, with_log (log (@empty_state xreal) ++ [PrintNotImplemented "l"]) (@empty_state xreal))).
Proof.
  apply (transformed_spectrum_unknown_method (H0 := stub_numerics 0)
           [Fin 1; Fin 3] [Fin 1; Fin 0] None "l" None (@empty_state xreal));
    discriminate.
Defined.

(** X19.  [errorfunc_tominimise] with a [method] other than [l] never returns a
    residual vector: given parameters and a reference spectrum it prints
    its message and returns [None], and a [defaultParamDic] it was given
    is not written to. *)
Theorem errorfunc_tominimise_unknown_method {A : Type} `{Num A} `{Numerics A}
    (params : list A) (method : string) (Reg : A)
    (RefSpectrum DataToFit : option (list A)) (sigma : option (weights A))
    (defaultParamDic : option loc) (kwargs : ef_kwargs A) (s : state A) :
  method <> "l" ->
  let run :=
    errorfunc_tominimise params method Reg RefSpectrum DataToFit sigma
      defaultParamDic kwargs in
  (forall y, fst (run s) <> Ok (Some y)) /\
  (params <> [] -> RefSpectrum <> None ->
   run s = (Ok None, with_log (log s ++ [PrintNotImplemented method]) s)).
Proof.
  intros Hl. cbv zeta. unfold errorfunc_tominimise.
  rewrite (proj2 (String.eqb_neq method "l") Hl).
  split.
  - intros y Hy.
    match type of Hy with fst (?m s) = _ => destruct (m s) as [r s'] eqn:Hrun end.
    simpl in Hy. subst r.
    apply bind_ok in Hrun as (scale & s1 & _ & Hrun).
    apply bind_ok in Hrun as (Ref & s2 & _ & Hrun).
    apply bind_ok in Hrun as (u & s3 & _ & Hrun).
    apply ret_ok in Hrun as [E _]. discriminate.
  - intros Hparams HRef. destruct params as [|scale shifts]; [contradiction|].
    destruct RefSpectrum as [Ref|]; [|contradiction].
    reflexivity.
Qed.

Lemma errorfunc_tominimise_unknown_method_witness :
  let run :=
    errorfunc_tominimise (H0 := stub_numerics 0) [Fin 1; Fin 0] "p" (Fin 0)
      (Some [Fin 1; Fin 3]) (Some [Fin 1; Fin 3]) None (Some 5%positive)
      (mkEf None None None (Some ["p"])) in
  (forall y, fst (run (@empty_state xreal)) <> Ok (Some y)) /\
  ([Fin 1; Fin 0] <> [] -> Some [Fin 1; Fin 3] <> None ->
   run (@empty_state xreal)
   = (Ok None, with_log (log (@empty_state xreal) ++ [PrintNotImplemented "p"]) (@empty_state xreal))).
Proof.
  apply (errorfunc_tominimise_unknown_method (H0 := stub_numerics 0)
           [Fin 1; Fin 0] "p" (Fin 0) (Some [Fin 1; Fin 3]) (Some [Fin 1; Fin 3])
           None (Some 5%positive) (mkEf None None None (Some ["p"])) (@empty_state xreal)).
  discriminate.
Defined.

(** ** Digits that make no integer *)

Lemma read_decimal_not_decimal (s : string) (acc : nat) :
  forallb is_decimal (list_ascii_of_string s) = false ->
  read_decimal acc s = Err ValueError.
Proof.
  revert acc. induction s as [|ch s IH]; intros acc Hs; simpl in Hs |- *.
  - discriminate.
  - destruct (is_decimal ch); [apply IH; exact Hs|reflexivity].
Qed.

(** X20.  A degree written with a superscript digit passes [isdigit] and is
    refused by [int]: with a method [p] or [c] followed by digits of which
    one is no decimal digit, the call ends in a [ValueError], not in the
    [NotImplementedError] of an unknown method, before anything is
    fitted or printed. *)
Theorem ReCalibrate_degree_no_integer {A : Type} `{Num A} `{Numerics A}
    (SpectrumY : list A) (RefSpectrum : list (A * A)) (c : ascii) (rest : string)
    (initial_guess : option (list A)) (sigma : option (weights A)) (cov : bool)
    (Reg : A) (defaultParamDic : option loc) (scalepixel : bool) (st : state A) :
  Ascii.eqb c "p" || Ascii.eqb c "c" = true ->
  str_isdigit rest = true ->
  forallb is_decimal (list_ascii_of_string rest) = false ->
  (scalepixel = true -> RefSpectrum <> []) ->
  ReCalibrateDispersionSolution SpectrumY RefSpectrum (String c rest)
    initial_guess sigma cov Reg defaultParamDic scalepixel st
  = (Err ValueError, st).
Proof.
  intros Hc Hdigit Hdec Hne.
  assert (Hint : py_int rest = Err ValueError).
  { unfold py_int. destruct rest as [|ch rest]; [reflexivity|].
    apply read_decimal_not_decimal. exact Hdec. }
  unfold ReCalibrateDispersionSolution. cbv zeta. rewrite Hc, Hdigit.
  rewrite !andb_true_r.
  assert (Hscaled : exists x,
            (if scalepixel
             then scale_wavl RefSpectrum false (map fst RefSpectrum) ≫=
                  (fun x => mret (Some x))
             else mret (Some (map fst RefSpectrum))) st = (Ok x, st)).
  { destruct scalepixel; [|eexists; reflexivity].
    destruct RefSpectrum as [|[w f] Ref]; [exfalso; apply Hne; reflexivity|].
    eexists. reflexivity. }
  destruct Hscaled as [x Hx].
  rewrite bind_run, Hx, bind_run.
  apply orb_true_iff in Hc as [Hc|Hc]; apply Ascii.eqb_eq in Hc; subst c; simpl;
    unfold series_fit; rewrite bind_run; unfold lift; rewrite Hint; reflexivity.
Qed.

Lemma ReCalibrate_degree_no_integer_witness :
  ReCalibrateDispersionSolution (H0 := stub_numerics 0)
    [Fin 1; Fin 3] [(Fin 4000, Fin 1); (Fin 5000, Fin 3)]
    (String "p" (String (ascii_of_nat 179) EmptyString))
    None None false (Fin 0) None true empty_state
  = (Err ValueError, empty_state).
Proof.
  apply (ReCalibrate_degree_no_integer (H0 := stub_numerics 0)
           [Fin 1; Fin 3] [(Fin 4000, Fin 1); (Fin 5000, Fin 3)]
           "p" (String (ascii_of_nat 179) EmptyString)
           None None false (Fin 0) None true empty_state).
  - reflexivity.
  - reflexivity.
  - reflexivity.
  - discriminate.
Defined.

(** ** The family [l]: where the digits stand *)

Section DigitsAnywhere.

Lemma filter_twice {X : Type} (P : X -> Prop) `{!forall x, Decision (P x)}
    (l : list X) :
  filter P (filter P l) = filter P l.
Proof.
  induction l as [|x l IH]; [reflexivity|]. rewrite (filter_cons P x l).
  destruct (decide (P x)) as [Hx|Hx]; [|exact IH].
  rewrite filter_cons_True by exact Hx. rewrite IH. reflexivity.
Qed.

Lemma filter_apart {X : Type} (P Q : X -> Prop)
    `{!forall x, Decision (P x)} `{!forall x, Decision (Q x)} (l : list X) :
  (forall x, P x -> Q x -> False) -> filter P (filter Q l) = [].
Proof.
  intros HPQ. induction l as [|x l IH]; [reflexivity|]. rewrite (filter_cons Q x l).
  destruct (decide (Q x)) as [Hx|Hx]; [|exact IH].
  rewrite filter_cons_False; [exact IH|]. intros HP. exact (HPQ x HP Hx).
Qed.

(** The method string with its digits moved behind its role letters. *)
Lemma digits_last_roles (rest : string) :
  let cs := list_ascii_of_string rest in
  let rest' :=
    string_of_list_ascii
      (filter (fun c => negb (char_isdigit c)) cs ++
       filter (fun c => char_isdigit c) cs) in
  role_letters rest' = role_letters rest /\ digit_letters rest' = digit_letters rest.
Proof.
  cbv zeta. unfold role_letters, digit_letters.
  rewrite list_ascii_of_string_of_list_ascii, !filter_app.
  rewrite !filter_twice.
  rewrite (filter_apart (fun c => negb (char_isdigit c)) (fun c => char_isdigit c)).
  2:{ intros x. destruct (char_isdigit x); simpl; tauto. }
  rewrite (filter_apart (fun c => char_isdigit c) (fun c => negb (char_isdigit c))).
  2:{ intros x. destruct (char_isdigit x); simpl; tauto. }
  rewrite app_nil_r. split; reflexivity.
Qed.
End DigitsAnywhere.

(** X21.  In a method of the family [l] the digits of the degree and the role
    letters may stand in any mixture: the call does what it does on the
    method with the role letters first, in their order, and the digits
    after them, in theirs. *)
Theorem ReCalibrate_legendre_digits_anywhere {A : Type} `{Num A} `{Numerics A}
    (SpectrumY : list A) (RefSpectrum : list (A * A)) (rest : string)
    (initial_guess : option (list A)) (sigma : option (weights A)) (cov : bool)
    (Reg : A) (defaultParamDic : option loc) (scalepixel : bool) (st : state A) :
  let cs := list_ascii_of_string rest in
  let rest' :=
    string_of_list_ascii
      (filter (fun c => negb (char_isdigit c)) cs ++
       filter (fun c => char_isdigit c) cs) in
  ReCalibrateDispersionSolution SpectrumY RefSpectrum (String "l" rest)
    initial_guess sigma cov Reg defaultParamDic scalepixel st
  = ReCalibrateDispersionSolution SpectrumY RefSpectrum (String "l" rest')
      initial_guess sigma cov Reg defaultParamDic scalepixel st.
Proof.
  cbv zeta. destruct (digits_last_roles rest) as [Hroles Hdigits].
  cbv zeta in Hroles, Hdigits.
  rewrite !ReCalibrate_legendre_run. unfold legendre_fit.
  rewrite Hroles, Hdigits. reflexivity.
Qed.

(** ** The families [v] and [x]: the solution and the model *)

Section SolutionIsModelMap.
Context {A : Type} `{Num A} `{Numerics A}.

Lemma velocity_fit_solution (SpectrumY : list A) (RefSpectrum : list (A * A))
    (initial_guess : option (list A)) (sigma : option (weights A))
    (s s' : state A) (wavl_sln popt : list A) (pcov : option (list (list A))) :
  velocity_fit SpectrumY RefSpectrum initial_guess sigma None s
    = (Ok (wavl_sln, popt, pcov), s') ->
  exists scale shifts,
    popt = scale :: shifts /\
    forall st,
      transformed_spectrum (map snd RefSpectrum) popt
        (mkTs (Some (map fst RefSpectrum)) (Some "v") None) st
      = resampled_at (map snd RefSpectrum) (map fst RefSpectrum) scale wavl_sln st.
Proof.
  unfold velocity_fit. cbv zeta. intros Hrun.
  apply bind_ok in Hrun as (u & s1 & _ & Hrun).
  apply bind_ok in Hrun as ([popt0 pcov0] & s2 & _ & Hrun).
  apply bind_ok in Hrun as (v & s3 & Hv & Hrun).
  apply lift_ok in Hv as [Hv _]. apply index_ok in Hv.
  apply ret_ok in Hrun as [E _]. inversion E; subst. clear E.
  destruct popt0 as [|scale [|v' shifts]]; try discriminate.
  simpl in Hv. inversion Hv; subst v'. clear Hv.
  exists scale, (v :: shifts). split; [reflexivity|]. intros st.
  unfold transformed_spectrum, resampled_at. cbv zeta.
  destruct shifts as [|dp shifts]; reflexivity.
Qed.

Lemma velocity_pixel_fit_solution (SpectrumY : list A) (RefSpectrum : list (A * A))
    (initial_guess : option (list A)) (sigma : option (weights A))
    (s s' : state A) (wavl_sln popt : list A) (pcov : option (list (list A))) :
  velocity_pixel_fit SpectrumY RefSpectrum initial_guess sigma None s
    = (Ok (wavl_sln, popt, pcov), s') ->
  exists scale shifts,
    popt = scale :: shifts /\
    forall st,
      transformed_spectrum (map snd RefSpectrum) popt
        (mkTs (Some (map fst RefSpectrum)) (Some "x") None) st
      = resampled_at (map snd RefSpectrum) (map fst RefSpectrum) scale wavl_sln st.
Proof.
  unfold velocity_pixel_fit. cbv zeta. intros Hrun.
  apply bind_ok in Hrun as (u & s1 & _ & Hrun).
  apply bind_ok in Hrun as ([popt0 pcov0] & s2 & _ & Hrun).
  apply bind_ok in Hrun as (v & s3 & Hv & Hrun).
  apply lift_ok in Hv as [Hv _]. apply index_ok in Hv.
  apply bind_ok in Hrun as (dp & s4 & Hdp & Hrun).
  apply lift_ok in Hdp as [Hdp _]. apply index_ok in Hdp.
  apply bind_ok in Hrun as (g & s5 & Hg & Hrun).
  apply library_ok in Hg as [Hg _].
  apply bind_ok in Hrun as (w & s6 & Hw & Hrun).
  apply lift_ok in Hw as [Hw _].
  apply ret_ok in Hrun as [E _]. inversion E; subst. clear E.
  destruct popt0 as [|scale [|v' [|dp' shifts]]]; try discriminate.
  simpl in Hv, Hdp. inversion Hv; subst v'. inversion Hdp; subst dp'. clear Hv Hdp.
  exists scale, (v :: dp :: shifts). split; [reflexivity|]. intros st.
  unfold transformed_spectrum, resampled_at. cbv zeta.
  cbn -[broadcast vscale]. rewrite Hg.
  repeat (rewrite bind_run; cbn -[broadcast vscale]).
  rewrite Hw. reflexivity.
Qed.
End SolutionIsModelMap.

(** X22.  With a method of the family [v] or [x] and no [defaultParamDic], the
    wavelength solution of a call that returns is the coordinate map of
    the model at the fitted parameters: [transformed_spectrum], called
    with [popt] as the optimizer called it, resamples the reference flux
    at exactly the returned [wavl_sln]. *)
Theorem ReCalibrate_solution_is_model_map {A : Type} `{Num A} `{Numerics A}
    (SpectrumY : list A) (RefSpectrum : list (A * A)) (c : ascii) (rest : string)
    (initial_guess : option (list A)) (sigma : option (weights A)) (cov : bool)
    (Reg : A) (scalepixel : bool) (st st' : state A)
    (wavl_sln popt : list A) (pcov : option (list (list A))) :
  Ascii.eqb c "v" || Ascii.eqb c "x" = true ->
  ReCalibrateDispersionSolution SpectrumY RefSpectrum (String c rest)
    initial_guess sigma cov Reg None scalepixel st
  = (Ok (wavl_sln, popt, pcov), st') ->
  exists scale shifts,
    popt = scale :: shifts /\
    forall s,
      transformed_spectrum (map snd RefSpectrum) popt
        (mkTs (Some (map fst RefSpectrum)) (Some (String c EmptyString)) None) s
      = resampled_at (map snd RefSpectrum) (map fst RefSpectrum) scale wavl_sln s.
Proof.
  intros Hc Hrun. unfold ReCalibrateDispersionSolution in Hrun. cbv zeta in Hrun.
  apply orb_true_iff in Hc as [Hc|Hc]; apply Ascii.eqb_eq in Hc; subst c;
    simpl in Hrun;
    apply bind_ok in Hrun as (sw & s1 & _ & Hrun);
    apply bind_ok in Hrun as ([[w p] pc] & s2 & Hfit & Hrun);
    apply bind_ok in Hrun as (w' & s3 & Hw & Hrun);
    apply ret_ok in Hw as [-> _];
    apply ret_ok in Hrun as [E _]; inversion E; subst; clear E.
  - exact (velocity_fit_solution _ _ _ _ _ _ _ _ _ Hfit).
  - exact (velocity_pixel_fit_solution _ _ _ _ _ _ _ _ _ Hfit).
Qed.

Module SolutionRuns.
Import PrimFloat.

Lemma ReCalibrate_solution_is_model_map_witness :
  exists wavl_sln popt pcov st',
    ReCalibrateDispersionSolution (H0 := stub_numerics 0)
      [1; 3; 2; 5]%float [(4000, 1); (5000, 3); (6000, 2); (7000, 5)]%float
      "x" None None false 0%float None true empty_state
    = (Ok (wavl_sln, popt, pcov), st') /\
    exists scale shifts,
      popt = scale :: shifts /\
      forall s,
        transformed_spectrum (H0 := stub_numerics 0) [1; 3; 2; 5]%float popt
          (mkTs (Some [4000; 5000; 6000; 7000]%float) (Some "x") None) s
        = resampled_at (H0 := stub_numerics 0) [1; 3; 2; 5]%float
            [4000; 5000; 6000; 7000]%float scale wavl_sln s.
Proof.
  eexists _, _, _, _. split; [vm_compute; reflexivity|].
  eapply (ReCalibrate_solution_is_model_map (H0 := stub_numerics 0)
            [1; 3; 2; 5]%float [(4000, 1); (5000, 3); (6000, 2); (7000, 5)]%float
            "x" "" None None false 0%float true empty_state).
  - reflexivity.
  - vm_compute. reflexivity.
Defined.
End SolutionRuns.
